(** * three-dee-maze-wanderer: the maze generator and the grid-world rules

    A shallow embedding of [src/utils/mazeGenerator.ts] and of the gameplay
    functions of the [MazeGame] component (movement, collision, spawn
    validation, damage, respawn timer, win test), with the properties the
    specification states about them. *)

From Stdlib Require Import ZArith QArith Qround Lia Reals Qreals Lra.
From Stdlib Require Lqa.
From stdpp Require Import base option list.

#[local] Open Scope Z_scope.

(** ** Outcomes of JavaScript code

    A call either returns, throws, or (in the model only) runs out of the
    fuel that bounds its recursion. *)

Inductive js_error : Type :=
| TypeError    (* property access on [undefined] *)
| RangeError   (* [Array(n)] with a negative length *)
| OffRow.      (* [row[x] = v] with [x] outside [0 .. row.length-1]: JavaScript
                  does not throw but attaches a new property to the row, so
                  the matrix stops being rectangular; the model stops here *)

Inductive outcome (A : Type) : Type :=
| Done (a : A)
| Throws (e : js_error)
| OutOfFuel.

Arguments Done {A} a.
Arguments Throws {A} e.
Arguments OutOfFuel {A}.

#[global] Instance outcome_ret : MRet outcome := fun A a => Done a.
#[global] Instance outcome_bind : MBind outcome := fun A B k m =>
  match m with
  | Done a => k a
  | Throws e => Throws e
  | OutOfFuel => OutOfFuel
  end.

(** ** The occupancy grid: [number[][]], [1] = wall, [0] = open *)

Abbreviation grid := (list (list Z)).

(** [g[y]], [None] when it is [undefined]. *)
Definition row_at (g : grid) (y : Z) : option (list Z) :=
  if y <? 0 then None else g !! Z.to_nat y.

(** [row[x]], [None] when it is [undefined]. *)
Definition col_at (row : list Z) (x : Z) : option Z :=
  if x <? 0 then None else row !! Z.to_nat x.

(** The value of [g[y][x]] as a specification-level lookup. *)
Definition cell (g : grid) (x y : Z) : option Z :=
  row_at g y ≫= fun row => col_at row x.

(** The expression [g[y][x]]: a missing row makes the access throw. *)
Definition read (g : grid) (x y : Z) : outcome (option Z) :=
  match row_at g y with
  | None => Throws TypeError
  | Some row => Done (col_at row x)
  end.

(** The statement [g[y][x] = v]. *)
Definition write (g : grid) (x y v : Z) : outcome grid :=
  match row_at g y with
  | None => Throws TypeError
  | Some row =>
      if (0 <=? x) && (x <? Z.of_nat (length row))
      then Done (<[Z.to_nat y := <[Z.to_nat x := v]> row]> g)
      else Throws OffRow
  end.

(** [a === n] for a possibly undefined [a]. *)
Definition is_num (a : option Z) (n : Z) : bool :=
  match a with
  | Some v => v =? n
  | None => false
  end.

Module MazeGenerator.

(** The generator's mutable state: the [maze] field and the number of
  [Math.random()] calls made so far. [width] and [height] are set by the
  constructor and never change. *)
Record state : Type := mk_state { maze : grid; calls : nat }.

Section Generator.

Variables width height : Z.

(** [random k] is the value returned by the [k]-th call of
  [Math.random()]. A binary64 number is a rational; rounding in
  [Math.random() * (i + 1)] can move a product onto the next integer, so
  the index picked for one given draw may differ from the exact one, but
  the indices and comparisons that can occur are the same. *)
Variable random : nat → Q.

Definition isValidCell (x y : Z) : bool :=
(0 <? x) && (x <? width - 1) && (0 <? y) && (y <? height - 1).

Definition directions : list (Z * Z) :=
[(0, -2); (2, 0); (0, 2); (-2, 0)].

Definition set_cell (s : state) (x y v : Z) : outcome state :=
g ← write (maze s) x y v; Done (mk_state g (calls s)).

(** The Fisher-Yates loop [for (i = length-1; i > 0; i--)]. An index [j]
  outside the array leaves [undefined] in it, on which the later
  [const [dx, dy] of directions] throws. *)
Fixpoint shuffle (i : nat) (ds : list (Z * Z)) (k : nat)
: outcome (list (Z * Z) * nat) :=
match i with
| O => Done (ds, k)
| S i' =>
    let j := Qfloor (random k * inject_Z (Z.of_nat i + 1)) in
    match ds !! i, (if j <? 0 then None else ds !! Z.to_nat j) with
    | Some di, Some dj =>
        shuffle i' (<[Z.to_nat j := di]> (<[i := dj]> ds)) (S k)
    | _, _ => Throws TypeError
    end
end.

(** The loop [for (const [dx, dy] of directions)] of [carvePath], with
  the recursive call as the parameter [carve]. *)
Definition tryDirections (carve : Z → Z → state → outcome state) (x y : Z)
: list (Z * Z) → state → outcome state :=
fix each (ds : list (Z * Z)) (s : state) : outcome state :=
  match ds with
  | [] => Done s
  | (dx, dy) :: ds' =>
      let newX := x + dx in
      let newY := y + dy in
      if isValidCell newX newY then
        v ← read (maze s) newX newY;
        if is_num v 1 then
          s2 ← set_cell s (x + dx / 2) (y + dy / 2) 0;
          s3 ← carve newX newY s2;
          each ds' s3
        else each ds' s
      else each ds' s
  end.

(** [carvePath]; [fuel] bounds the depth of the recursion. *)
Fixpoint carvePath (fuel : nat) (x y : Z) (s : state) : outcome state :=
match fuel with
| O => OutOfFuel
| S fuel' =>
    s1 ← set_cell s x y 0;
    '(ds, k) ← shuffle (length directions - 1) directions (calls s1);
    tryDirections (carvePath fuel') x y ds (mk_state (maze s1) k)
end.

(** The [while] loop of [ensureExitPath]; [Math.random()] is called only
  when [currentX < exitX]. *)
Fixpoint exitLoop (fuel : nat) (exitX exitY currentX currentY : Z)
(s : state) : outcome state :=
match fuel with
| O => OutOfFuel
| S fuel' =>
    if (currentX <? exitX) || (currentY <? exitY) then
      s1 ← set_cell s currentX currentY 0;
      if currentX <? exitX then
        let s2 := mk_state (maze s1) (S (calls s1)) in
        if negb (Qle_bool (random (calls s1)) (3 # 10)) then
          exitLoop fuel' exitX exitY (currentX + 1) currentY s2
        else if currentY <? exitY then
          exitLoop fuel' exitX exitY currentX (currentY + 1) s2
        else
          exitLoop fuel' exitX exitY (currentX + 1) currentY s2
      else if currentY <? exitY then
        exitLoop fuel' exitX exitY currentX (currentY + 1) s1
      else
        exitLoop fuel' exitX exitY currentX currentY s1
    else Done s
end.

Definition ensureExitPath (fuel : nat) (s : state) : outcome state :=
let exitX := width - 2 in
let exitY := height - 2 in
s1 ← exitLoop fuel exitX exitY 1 1 s;
set_cell s1 exitX exitY 0.

(** [Array(height).fill(null).map(() => Array(width).fill(1))] *)
Definition walls : outcome grid :=
if (width <? 0) || (height <? 0) then Throws RangeError
else Done (replicate (Z.to_nat height) (replicate (Z.to_nat width) 1)).

Definition generate_fuel (fuel : nat) : outcome grid :=
g ← walls;
s1 ← carvePath fuel 1 1 (mk_state g 0);
s2 ← ensureExitPath fuel s1;
Done (maze s2).

(** One unit of fuel per cell is enough (see [generate_fuel_enough]). *)
Definition generate : outcome grid :=
generate_fuel (Z.to_nat (width * height)).

End Generator.

End MazeGenerator.

(** ** The game component: data shared by its variants

    The repository holds the basic component [src/components/MazeGame.tsx]
    and an enhanced one (enemies, lives, checkpoints, per-axis movement).
    Both use a 21 by 21 grid of cells of world size 2. *)

Record Position : Type := mk_pos { pos_x : Z; pos_z : Z }.

Definition MAZE_SIZE : Z := 21.
Definition WALL_SIZE : Z := 2.

Definition Qltb (a b : Q) : bool := negb (Qle_bool b a).

(** [Math.round]: the nearest integer, a tie going up. *)
Definition round (q : Q) : Z := Qfloor (q + (1 # 2)).

(** [(worldPos + MAZE_SIZE * WALL_SIZE / 2) / WALL_SIZE] *)
Definition worldToMaze (worldPos : Q) : Q :=
  (worldPos + inject_Z MAZE_SIZE * inject_Z WALL_SIZE / 2) / inject_Z WALL_SIZE.

(** [(cell - MAZE_SIZE / 2) * WALL_SIZE]: where a cell's mesh is placed. *)
Definition mazeToWorld (c : Z) : Q :=
  (inject_Z c - inject_Z MAZE_SIZE / 2) * inject_Z WALL_SIZE.

(** The sum under the square root in
    [Math.sqrt(Math.pow(a.x - b.x, 2) + Math.pow(a.z - b.z, 2))]. *)
Definition distance2 (a b : Position) : Z :=
  (pos_x a - pos_x b) ^ 2 + (pos_z a - pos_z b) ^ 2.

(** [distance < t] between grid positions, for a threshold [t >= 0]: the
    coordinates are integers, so the test is decided on the squares (see
    [distance_lt_sqrt] for the statement with the square root). *)
Definition distance_lt (a b : Position) (t : Q) : bool :=
  Qltb (inject_Z (distance2 a b)) (t * t).

(** The four key flags of [moveStateRef]. *)
Record MoveState : Type := mk_keys {
  forward : bool; backward : bool; left : bool; right : bool
}.

(** *** The exit scan of the mount effect

    [for (x = MAZE_SIZE - 2; x >= MAZE_SIZE - 4 && !exitFound; x--)] and the
    same loop on [z] inside it. *)

Record scan : Type := mk_scan { exitPosition : Position; exitFound : bool }.

Definition scan_range : list Z :=
  [MAZE_SIZE - 2; MAZE_SIZE - 3; MAZE_SIZE - 4].

Fixpoint scanColumn (maze : grid) (x : Z) (zs : list Z) (st : scan)
  : outcome scan :=
  match zs with
  | [] => Done st
  | z :: zs' =>
      if exitFound st then Done st
      else
        v ← read maze x z;
        scanColumn maze x zs'
          (if is_num v 0 then mk_scan (mk_pos x z) true else st)
  end.

Fixpoint scanExit (maze : grid) (xs : list Z) (st : scan) : outcome scan :=
  match xs with
  | [] => Done st
  | x :: xs' =>
      if exitFound st then Done st
      else st' ← scanColumn maze x scan_range st; scanExit maze xs' st'
  end.

(** The value left in [exitPositionRef], which starts as [{x: 0, z: 0}]. *)
Definition findExit (maze : grid) : outcome Position :=
  st ← scanExit maze scan_range (mk_scan (mk_pos 0 0) false);
  Done (exitPosition st).

(** ** The basic component, [src/components/MazeGame.tsx] *)

Module Basic.

Definition MOVE_SPEED : Q := 1 # 10.

(** [camera.position.x] and [camera.position.z]. *)
Record Camera : Type := mk_camera { cam_x : Q; cam_z : Q }.

Record Session : Type := mk_session {
  cameraRef : option Camera;
  playerPositionRef : Position
}.

Section Movement.

Variable maze : grid.   (* mazeRef.current *)

(** The [x] and [z] components of [velocity.applyQuaternion(...)],
    computed by three.js from the camera's orientation. *)
Variable applyQuaternion : Q * Q → Q * Q.

Definition checkCollision (x z : Q) : outcome bool :=
  let mazeX := round (worldToMaze x) in
  let mazeZ := round (worldToMaze z) in
  if (mazeX <? 0) || (mazeX >=? MAZE_SIZE) ||
     (mazeZ <? 0) || (mazeZ >=? MAZE_SIZE)
  then Done true
  else v ← read maze mazeX mazeZ; Done (is_num v 1).

Definition updateMovement (keys : MoveState) (s : Session)
  : outcome Session :=
  match cameraRef s with
  | None => Done s
  | Some camera =>
      let vz := ((if backward keys then MOVE_SPEED else 0)
                 - (if forward keys then MOVE_SPEED else 0))%Q in
      let vx := ((if right keys then MOVE_SPEED else 0)
                 - (if left keys then MOVE_SPEED else 0))%Q in
      let velocity := applyQuaternion (vx, vz) in
      let newX := (cam_x camera + velocity.1)%Q in
      let newZ := (cam_z camera + velocity.2)%Q in
      hit ← checkCollision newX newZ;
      if (hit : bool) then Done s
      else Done (mk_session (Some (mk_camera newX newZ))
                   (mk_pos (round (worldToMaze newX))
                           (round (worldToMaze newZ))))
  end.

End Movement.

End Basic.

(** ** The enhanced component *)

Module Enhanced.

Definition MOVE_SPEED : Q := 8 # 100.
Definition RESPAWN_DELAY : Z := 2000.
Definition MIN_SPAWN_DISTANCE : Q := 8.
Definition COLLISION_RADIUS : Q := 25 # 100.

(** [camera.position.x], [camera.position.z] and [camera.rotation.y]. *)
Record Camera : Type := mk_camera { cam_x : Q; cam_z : Q; rot_y : Q }.

(** The values of the [useState] variables. A function of the component
    reads the values of the render that created it. *)
Record React : Type := mk_react {
  gameWon : bool;
  gameOver : bool;
  lives : Z;
  currentCheckpoint : Position;
  isRespawning : bool;
  score : Z
}.

(** The refs, the state held by React (what the setters wrote last) and
    the part of the browser the component talks to: the pending
    [setTimeout] callbacks, each with the checkpoint its closure captured,
    the pending animation-frame request, the listeners and the renderer. *)
Record Session : Type := mk_session {
  react : React;
  cameraRef : option Camera;
  playerPositionRef : Position;
  exitPositionRef : Position;
  respawnTimerRef : option positive;
  timeouts : list (positive * Position);
  nextTimeout : positive;
  frameRequested : bool;
  listening : bool;
  rendererDisposed : bool
}.

Definition with_react (f : React → React) (s : Session) : Session :=
  mk_session (f (react s)) (cameraRef s) (playerPositionRef s)
    (exitPositionRef s) (respawnTimerRef s) (timeouts s) (nextTimeout s)
    (frameRequested s) (listening s) (rendererDisposed s).

Definition setGameWon (b : bool) : Session → Session :=
  with_react (fun r => mk_react b (gameOver r) (lives r)
                         (currentCheckpoint r) (isRespawning r) (score r)).
Definition setGameOver (b : bool) : Session → Session :=
  with_react (fun r => mk_react (gameWon r) b (lives r)
                         (currentCheckpoint r) (isRespawning r) (score r)).
Definition setLives (n : Z) : Session → Session :=
  with_react (fun r => mk_react (gameWon r) (gameOver r) n
                         (currentCheckpoint r) (isRespawning r) (score r)).
Definition setCurrentCheckpoint (p : Position) : Session → Session :=
  with_react (fun r => mk_react (gameWon r) (gameOver r) (lives r)
                         p (isRespawning r) (score r)).
Definition setIsRespawning (b : bool) : Session → Session :=
  with_react (fun r => mk_react (gameWon r) (gameOver r) (lives r)
                         (currentCheckpoint r) b (score r)).
Definition setScore (n : Z) : Session → Session :=
  with_react (fun r => mk_react (gameWon r) (gameOver r) (lives r)
                         (currentCheckpoint r) (isRespawning r) n).

Definition set_camera (c : option Camera) (s : Session) : Session :=
  mk_session (react s) c (playerPositionRef s) (exitPositionRef s)
    (respawnTimerRef s) (timeouts s) (nextTimeout s) (frameRequested s)
    (listening s) (rendererDisposed s).
Definition set_playerPosition (p : Position) (s : Session) : Session :=
  mk_session (react s) (cameraRef s) p (exitPositionRef s)
    (respawnTimerRef s) (timeouts s) (nextTimeout s) (frameRequested s)
    (listening s) (rendererDisposed s).
Definition set_respawnTimer (t : option positive) (s : Session) : Session :=
  mk_session (react s) (cameraRef s) (playerPositionRef s)
    (exitPositionRef s) t (timeouts s) (nextTimeout s) (frameRequested s)
    (listening s) (rendererDisposed s).
Definition set_timeouts (ts : list (positive * Position)) (n : positive)
  (s : Session) : Session :=
  mk_session (react s) (cameraRef s) (playerPositionRef s)
    (exitPositionRef s) (respawnTimerRef s) ts n (frameRequested s)
    (listening s) (rendererDisposed s).

(** [window.setTimeout(callback, RESPAWN_DELAY)]: a fresh handle. *)
Definition setTimeout (captured : Position) (s : Session)
  : positive * Session :=
  let id := nextTimeout s in
  (id, set_timeouts (timeouts s ++ [(id, captured)]) (Pos.succ id) s).

(** [window.clearTimeout(id)] *)
Definition clearTimeout (id : positive) (s : Session) : Session :=
  set_timeouts (filter (fun t => t.1 ≠ id) (timeouts s)) (nextTimeout s) s.

(** [requestAnimationFrame(animate)] *)
Definition requestAnimationFrame (s : Session) : Session :=
  mk_session (react s) (cameraRef s) (playerPositionRef s)
    (exitPositionRef s) (respawnTimerRef s) (timeouts s) (nextTimeout s)
    true (listening s) (rendererDisposed s).

(** *** Spawn validation *)

Fixpoint farFromAll (x z : Z) (usedPositions : list Position) : bool :=
  match usedPositions with
  | [] => true
  | pos :: rest =>
      if distance_lt (mk_pos x z) pos 4 then false
      else farFromAll x z rest
  end.

Definition isValidSpawnLocation (x z : Z) (maze : grid)
  (usedPositions : list Position) : outcome bool :=
  v ← read maze x z;
  if is_num v 1 then Done false
  else if distance_lt (mk_pos x z) (mk_pos 1 1) MIN_SPAWN_DISTANCE
       then Done false
  else Done (farFromAll x z usedPositions).

(** *** Damage and respawn; [v] holds the values the closure reads *)

Definition respawnPlayer (v : React) (s : Session) : Session :=
  match cameraRef s with
  | None => s
  | Some _ =>
      if isRespawning v then s
      else
        let s1 := setIsRespawning true s in
        let s2 := match respawnTimerRef s1 with
                  | Some t => clearTimeout t s1
                  | None => s1
                  end in
        let '(id, s3) := setTimeout (currentCheckpoint v) s2 in
        set_respawnTimer (Some id) s3
  end.

Definition attackPlayer (v : React) (s : Session) : Session :=
  if isRespawning v then s
  else
    let newLives := lives v - 1 in
    let s1 := setLives newLives s in
    if newLives <=? 0 then setGameOver true s1
    else respawnPlayer v s1.

(** The callback given to [setTimeout]; [r1] and [r2] are its two
    [Math.random()] values. *)
Definition respawnCallback (captured : Position) (r1 r2 : Q) (s : Session)
  : Session :=
  match cameraRef s with
  | None => s
  | Some camera =>
      let offsetX := ((r1 - (1 # 2)) * (1 # 2))%Q in
      let offsetZ := ((r2 - (1 # 2)) * (1 # 2))%Q in
      let s1 := set_camera
                  (Some (mk_camera
                           (mazeToWorld (pos_x captured) + offsetX)
                           (mazeToWorld (pos_z captured) + offsetZ)
                           (rot_y camera))) s in
      let s2 := set_playerPosition captured s1 in
      set_respawnTimer None (setIsRespawning false s2)
  end.

(** The browser runs the pending callback [id], if there is one. *)
Definition fireTimeout (id : positive) (r1 r2 : Q) (s : Session) : Session :=
  match list_find (fun t => t.1 = id) (timeouts s) with
  | Some (_, (_, captured)) =>
      respawnCallback captured r1 r2 (clearTimeout id s)
  | None => s
  end.

(** *** Win test *)

Definition checkWinCondition (v : React) (s : Session) : Session :=
  if distance_lt (playerPositionRef s) (exitPositionRef s) (3 # 2)
     && negb (gameWon v)
  then setScore (score v + lives v * 50) (setGameWon true s)
  else s.

(** *** Reset button and effect cleanup *)

Definition resetGame (s : Session) : Session :=
  let s1 := setIsRespawning false
              (setCurrentCheckpoint (mk_pos 1 1)
                 (setScore 0 (setLives 3
                    (setGameOver false (setGameWon false s))))) in
  match cameraRef s1 with
  | Some camera =>
      set_playerPosition (mk_pos 1 1)
        (set_camera (Some (mk_camera (inject_Z WALL_SIZE)
                             (inject_Z WALL_SIZE) (rot_y camera))) s1)
  | None => s1
  end.

(** The function returned by the mount effect: it removes the listeners,
    detaches the canvas and disposes the renderer. *)
Definition cleanup (s : Session) : Session :=
  mk_session (react s) (cameraRef s) (playerPositionRef s)
    (exitPositionRef s) (respawnTimerRef s) (timeouts s) (nextTimeout s)
    (frameRequested s) false true.

Section Movement.

Variable maze : grid.   (* mazeRef.current *)

(** three.js: [moveVector.normalize()] and [moveVector.applyEuler] for
    the Euler angles [(0, yaw, 0)], on the [x] and [z] components. *)
Variable normalize : Q * Q → Q * Q.
Variable applyEuler : Q → Q * Q → Q * Q.

Definition in_maze (gridX gridZ : Z) : bool :=
  (0 <=? gridX) && (gridX <? MAZE_SIZE) &&
  (0 <=? gridZ) && (gridZ <? MAZE_SIZE).

(** The loop over [checkPositions]. *)
Fixpoint anyWall (checkPositions : list (Q * Q)) : outcome bool :=
  match checkPositions with
  | [] => Done false
  | (cx, cz) :: rest =>
      let gridX := Qfloor cx in
      let gridZ := Qfloor cz in
      if in_maze gridX gridZ then
        v ← read maze gridX gridZ;
        if is_num v 1 then Done true else anyWall rest
      else anyWall rest
  end.

Definition checkPositions (mazeX mazeZ : Q) : list (Q * Q) :=
  [ (mazeX, mazeZ);
    (mazeX + COLLISION_RADIUS, mazeZ);
    (mazeX - COLLISION_RADIUS, mazeZ);
    (mazeX, mazeZ + COLLISION_RADIUS);
    (mazeX, mazeZ - COLLISION_RADIUS) ]%Q.

Definition margin : Q := 1 # 10.

Definition checkCollision (x z : Q) : outcome bool :=
  let mazeX := worldToMaze x in
  let mazeZ := worldToMaze z in
  if Qltb mazeX margin || Qle_bool (inject_Z MAZE_SIZE - margin) mazeX ||
     Qltb mazeZ margin || Qle_bool (inject_Z MAZE_SIZE - margin) mazeZ
  then Done true
  else anyWall (checkPositions mazeX mazeZ).

(** The key vector before it is normalised. *)
Definition moveVector (keys : MoveState) : Q * Q :=
  (((if right keys then 1 else 0) - (if left keys then 1 else 0))%Q,
   ((if backward keys then 1 else 0) - (if forward keys then 1 else 0))%Q).

(** [moveVector.length() > 0] *)
Definition nonzero (m : Q * Q) : bool :=
  negb (Qeq_bool m.1 0 && Qeq_bool m.2 0).

Definition updateMovement (v : React) (keys : MoveState) (s : Session)
  : outcome Session :=
  match cameraRef s with
  | None => Done s
  | Some camera =>
      if isRespawning v then Done s
      else if nonzero (moveVector keys) then
        let n := normalize (moveVector keys) in
        let m :=
          applyEuler (rot_y camera) (n.1 * MOVE_SPEED, n.2 * MOVE_SPEED)%Q in
        (* the X displacement alone *)
        let testX := (cam_x camera + m.1)%Q in
        hitX ← checkCollision testX (cam_z camera);
        let x' := if (hitX : bool) then cam_x camera else testX in
        (* the Z displacement alone, from the original position *)
        let testZ := (cam_z camera + m.2)%Q in
        hitZ ← checkCollision (cam_x camera) testZ;
        let z' := if (hitZ : bool) then cam_z camera else testZ in
        Done (set_playerPosition
                (mk_pos (round (worldToMaze x')) (round (worldToMaze z')))
                (set_camera (Some (mk_camera x' z' (rot_y camera))) s))
      else Done s
  end.

(** *** The frame loop

    [animate] asks for the next frame first, then runs the game logic.
    [attacks] is the number of enemies whose attack completes in this
    frame ([updateEnemies] calls [attackPlayer] once for each) and
    [reached] the checkpoints activated in it ([checkCheckpoints]); the
    distance and clock tests that decide them are not modelled. *)
Definition checkCheckpoints (reached : list Position) (s : Session)
  : Session :=
  foldl (fun s p =>
           setScore (score (react s) + 100) (setCurrentCheckpoint p s))
        s reached.

Definition animate (v : React) (isLocked : bool) (keys : MoveState)
  (attacks : nat) (reached : list Position) (s : Session)
  : outcome Session :=
  let s0 := requestAnimationFrame s in
  if isLocked && negb (gameWon v) && negb (gameOver v)
     && negb (isRespawning v)
  then
    s1 ← updateMovement v keys s0;
    let s2 := Nat.iter attacks (attackPlayer v) s1 in
    Done (checkWinCondition v (checkCheckpoints reached s2))
  else Done s0.

(** What can happen to a mounted session. *)
Inductive event : Type :=
| Frame (v : React) (isLocked : bool) (keys : MoveState)
        (attacks : nat) (reached : list Position)
| Timeout (id : positive) (r1 r2 : Q)
| Reset
| Unmount.

Definition handle (e : event) (s : Session) : outcome Session :=
  match e with
  | Frame v isLocked keys attacks reached =>
      if frameRequested s then animate v isLocked keys attacks reached s
      else Done s
  | Timeout id r1 r2 => Done (fireTimeout id r1 r2 s)
  | Reset => Done (resetGame s)
  | Unmount => Done (cleanup s)
  end.

Fixpoint run (es : list event) (s : Session) : outcome Session :=
  match es with
  | [] => Done s
  | e :: es' => s' ← handle e s; run es' s'
  end.

(** The session as the mount effect leaves it, [animate()] having been
    called once. *)
Definition mounted (exit : Position) : Session :=
  mk_session (mk_react false false 3 (mk_pos 1 1) false 0)
    (Some (mk_camera (inject_Z WALL_SIZE) (inject_Z WALL_SIZE) 0))
    (mk_pos 1 1) exit None [] 1%positive true true false.

End Movement.

End Enhanced.

(** ** Enemies: [createEnemies] and [updateEnemies] of the enhanced
    component *)

Module Enemies.

Definition ENEMY_SPEED : Q := 2 # 100.
Definition ENEMY_ATTACK_RANGE : Q := 2.
Definition ENEMY_ATTACK_COOLDOWN : Z := 3000.
Definition ENEMY_ATTACK_DURATION : Z := 1000.
Definition ENEMY_COUNT : nat := 4.

(** The fields of [Enemy] the game logic reads; [id] is the number in
    [`enemy_${enemiesCreated}`], [mesh_x] and [mesh_z] are
    [mesh.position.x] and [mesh.position.z]. *)
Record Enemy : Type := mk_enemy {
  id : nat;
  mesh_x : Q;
  mesh_z : Q;
  position : Position;
  health : Z;
  lastAttack : Z;
  patrolPath : list Position;
  currentPathIndex : nat;
  speed : Q;
  isAttacking : bool;
  attackStartTime : Z
}.

Section Create.

Variable maze : grid.

(** [random k] is the value of the [k]-th call of [Math.random()]. *)
Variable random : nat → Q.

(** [Math.floor(Math.random() * n)], for the [k]-th call. *)
Definition randomInt (k : nat) (n : Z) : Z := Qfloor (random k * inject_Z n).

Definition directions : list (Z * Z) := [(0, -1); (1, 0); (0, 1); (-1, 0)].

(** The loop [for (let i = 0; i < 3; i++)] that extends [patrolPath];
    [n] counts the rounds left and [k] the calls of [Math.random()] made
    so far. An index outside [directions] gives [undefined], whose [dx]
    cannot be read. *)
Fixpoint patrolPoints (n : nat) (x z : Z) (k : nat)
  (patrolPath : list Position) : outcome (list Position * nat) :=
  match n with
  | O => Done (patrolPath, k)
  | S n' =>
      let i := randomInt k (Z.of_nat (length directions)) in
      let distance := 3 + randomInt (S k) 4 in
      match (if i <? 0 then None else directions !! Z.to_nat i) with
      | None => Throws TypeError
      | Some direction =>
          let newX :=
            Z.max 1 (Z.min (MAZE_SIZE - 2) (x + direction.1 * distance)) in
          let newZ :=
            Z.max 1 (Z.min (MAZE_SIZE - 2) (z + direction.2 * distance)) in
          v ← read maze newX newZ;
          patrolPoints n' x z (S (S k))
            (if is_num v 0 then patrolPath ++ [mk_pos newX newZ]
             else patrolPath)
      end
  end.

(** The local variables of [createEnemies], and the number of calls of
    [Math.random()] made so far. *)
Record spawning : Type := mk_spawning {
  enemies : list Enemy;
  usedPositions : list Position;
  enemiesCreated : nat;
  calls : nat
}.

(** The [while] loop; [left] is [maxAttempts - attempts]. *)
Fixpoint spawnLoop (left : nat) (st : spawning) : outcome spawning :=
  match left with
  | O => Done st
  | S left' =>
      if (enemiesCreated st <? ENEMY_COUNT)%nat then
        let k := calls st in
        let x := randomInt k MAZE_SIZE in
        let z := randomInt (S k) MAZE_SIZE in
        valid ← Enhanced.isValidSpawnLocation x z maze (usedPositions st);
        if negb valid then
          spawnLoop left'
            (mk_spawning (enemies st) (usedPositions st) (enemiesCreated st)
               (S (S k)))
        else
          '(patrolPath, k') ← patrolPoints 3 x z (S (S k)) [mk_pos x z];
          let enemy :=
            mk_enemy (enemiesCreated st) (mazeToWorld x) (mazeToWorld z)
              (mk_pos x z) 100 0 patrolPath 0
              (ENEMY_SPEED * ((8 # 10) + random k' * (4 # 10)))%Q
              false 0 in
          spawnLoop left'
            (mk_spawning (enemies st ++ [enemy])
               (usedPositions st ++ [mk_pos x z])
               (S (enemiesCreated st)) (S k'))
      else Done st
  end.

(** The list left in [enemiesRef.current], and the number of random
    draws made. *)
Definition createEnemies (k : nat) : outcome (list Enemy * nat) :=
  st ← spawnLoop 200 (mk_spawning [] [] 0 k);
  Done (enemies st, calls st).

End Create.

(** *** [updateEnemies] *)

Section Update.

(** [Math.sqrt], on the squared distance to the patrol target. *)
Variable sqrt : Q → Q.

Definition set_patrol (e : Enemy) (x z : Q) (p : Position) (i : nat) : Enemy :=
  mk_enemy (id e) x z p (health e) (lastAttack e) (patrolPath e) i
    (speed e) (isAttacking e) (attackStartTime e).

Definition set_attack (e : Enemy) (last : Z) (attacking : bool) (start : Z)
  : Enemy :=
  mk_enemy (id e) (mesh_x e) (mesh_z e) (position e) (health e) last
    (patrolPath e) (currentPathIndex e) (speed e) attacking start.

(** The patrol movement of one enemy. *)
Definition patrol (e : Enemy) : outcome Enemy :=
  if (0 <? length (patrolPath e))%nat then
    match patrolPath e !! currentPathIndex e with
    | None => Throws TypeError
    | Some targetPos =>
        let dx := (mazeToWorld (pos_x targetPos) - mesh_x e)%Q in
        let dz := (mazeToWorld (pos_z targetPos) - mesh_z e)%Q in
        let distance := sqrt (dx * dx + dz * dz)%Q in
        if Qltb distance (2 # 10) then
          Done (set_patrol e (mesh_x e) (mesh_z e) (position e)
                  ((currentPathIndex e + 1) `mod` length (patrolPath e))%nat)
        else
          let x := (mesh_x e + dx / distance * speed e)%Q in
          let z := (mesh_z e + dz / distance * speed e)%Q in
          Done (set_patrol e x z
                  (mk_pos (round (worldToMaze x)) (round (worldToMaze z)))
                  (currentPathIndex e))
    end
  else Done e.

(** The attack logic of one enemy at [currentTime]; the boolean tells
    whether [attackPlayer()] is called. [v] holds the values the closure
    reads. *)
Definition engage (v : Enhanced.React) (currentTime : Z)
  (playerPos : Position) (e : Enemy) : Enemy * bool :=
  if Enhanced.isRespawning v then (e, false)
  else if distance_lt playerPos (position e) ENEMY_ATTACK_RANGE then
    let e1 :=
      if negb (isAttacking e) &&
         (ENEMY_ATTACK_COOLDOWN <? currentTime - lastAttack e)
      then set_attack e (lastAttack e) true currentTime
      else e in
    if isAttacking e1 &&
       (ENEMY_ATTACK_DURATION <=? currentTime - attackStartTime e1)
    then (set_attack e1 currentTime false (attackStartTime e1), true)
    else (e1, false)
  else
    ((if isAttacking e
      then set_attack e (lastAttack e) false (attackStartTime e)
      else e), false).

(** The body of [enemiesRef.current.forEach]. *)
Definition updateEnemy (v : Enhanced.React) (currentTime : Z)
  (playerPos : Position) (e : Enemy) (s : Enhanced.Session)
  : outcome (Enemy * Enhanced.Session) :=
  e1 ← patrol e;
  let '(e2, hit) := engage v currentTime playerPos e1 in
  Done (e2, if hit then Enhanced.attackPlayer v s else s).

Fixpoint forEach (v : Enhanced.React) (currentTime : Z)
  (playerPos : Position) (es : list Enemy) (s : Enhanced.Session)
  : outcome (list Enemy * Enhanced.Session) :=
  match es with
  | [] => Done ([], s)
  | e :: rest =>
      r ← updateEnemy v currentTime playerPos e s;
      r' ← forEach v currentTime playerPos rest r.2;
      Done (r.1 :: r'.1, r'.2)
  end.

(** [updateEnemies], at [Date.now() = currentTime]. The scene and the
    camera are created together by the mount effect; the guard is on the
    camera. *)
Definition updateEnemies (v : Enhanced.React) (currentTime : Z)
  (es : list Enemy) (s : Enhanced.Session)
  : outcome (list Enemy * Enhanced.Session) :=
  match Enhanced.cameraRef s with
  | None => Done (es, s)
  | Some _ =>
      forEach v currentTime (Enhanced.playerPositionRef s) es s
  end.

(** One enemy over several frames, each with its closure values, clock
    and player position: the enemy at the end and the times at which it
    called [attackPlayer()]. *)
Fixpoint enemyFrames (frames : list (Enhanced.React * Z * Position))
  (e : Enemy) : outcome (Enemy * list Z) :=
  match frames with
  | [] => Done (e, [])
  | (v, currentTime, playerPos) :: rest =>
      e1 ← patrol e;
      let r := engage v currentTime playerPos e1 in
      r' ← enemyFrames rest r.1;
      Done (r'.1, if r.2 then currentTime :: r'.2 else r'.2)
  end.

End Update.

End Enemies.

(** ** Checkpoints: [createCheckpoints] and [checkCheckpoints] of the
    enhanced component *)

Module Checkpoints.

Record Checkpoint : Type := mk_checkpoint {
  position : Position;
  activated : bool
}.

Section Create.

Variable maze : grid.
Variable random : nat → Q.

(** The loop [do { ... } while ((maze[z][x] === 1 ||
    !isValidSpawnLocation(...)) && attempts < 100)]: it returns the last
    candidate, the number of attempts and the number of random draws.
    [fuel] bounds the iterations. *)
Fixpoint pick (fuel : nat) (attempts : nat) (k : nat)
  (usedPositions : list Position) : outcome (Z * Z * nat * nat) :=
  match fuel with
  | O => OutOfFuel
  | S fuel' =>
      let x := Qfloor (random k * inject_Z MAZE_SIZE) in
      let z := Qfloor (random (S k) * inject_Z MAZE_SIZE) in
      let attempts' := S attempts in
      v ← read maze x z;
      bad ← (if is_num v 1 then Done true
             else valid ← Enhanced.isValidSpawnLocation x z maze usedPositions;
                  Done (negb valid));
      if (bad : bool) && (attempts' <? 100)%nat
      then pick fuel' attempts' (S (S k)) usedPositions
      else Done (x, z, attempts', S (S k))
  end.

(** The loop [for (let i = 0; i < checkpointCount; i++)], [n] rounds
    from the end. *)
Fixpoint place (n : nat) (checkpoints : list Checkpoint)
  (usedPositions : list Position) (k : nat)
  : outcome (list Checkpoint * nat) :=
  match n with
  | O => Done (checkpoints, k)
  | S n' =>
      r ← pick 100 0 k usedPositions;
      let '(x, z, attempts, k') := r in
      if (100 <=? attempts)%nat then place n' checkpoints usedPositions k'
      else place n' (checkpoints ++ [mk_checkpoint (mk_pos x z) false])
             (usedPositions ++ [mk_pos x z]) k'
  end.

(** The list left in [checkpointsRef.current], and the number of random
    draws made. *)
Definition createCheckpoints (k : nat) : outcome (list Checkpoint * nat) :=
  place 3 [] [mk_pos 1 1] k.

End Create.

(** The test of [checkCheckpoints] on one checkpoint. *)
Definition reaches (playerPos : Position) (checkpoint : Checkpoint) : bool :=
  negb (activated checkpoint) &&
  distance_lt playerPos (position checkpoint) 2.

(** [checkpointsRef.current.forEach(...)] *)
Fixpoint forEach (playerPos : Position) (checkpoints : list Checkpoint)
  (s : Enhanced.Session) : list Checkpoint * Enhanced.Session :=
  match checkpoints with
  | [] => ([], s)
  | checkpoint :: rest =>
      let r :=
        if reaches playerPos checkpoint
        then (mk_checkpoint (position checkpoint) true,
              Enhanced.setScore (Enhanced.score (Enhanced.react s) + 100)
                (Enhanced.setCurrentCheckpoint (position checkpoint) s))
        else (checkpoint, s) in
      let r' := forEach playerPos rest r.2 in
      (r.1 :: r'.1, r'.2)
  end.

Definition checkCheckpoints (checkpoints : list Checkpoint)
  (s : Enhanced.Session) : list Checkpoint * Enhanced.Session :=
  forEach (Enhanced.playerPositionRef s) checkpoints s.

(** The player stands at each of [visits] in turn, for one frame each. *)
Fixpoint visit (visits : list Position) (checkpoints : list Checkpoint)
  (s : Enhanced.Session) : list Checkpoint * Enhanced.Session :=
  match visits with
  | [] => (checkpoints, s)
  | p :: rest =>
      let r := checkCheckpoints checkpoints
                 (Enhanced.set_playerPosition p s) in
      visit rest r.1 r.2
  end.

End Checkpoints.

(** ** Wall meshes: [createMaze], the same in both components

    The [x] and [z] of the position of each mesh pushed on
    [wallsRef.current], in the order of the two loops. *)

Fixpoint wallsOfRow (z x : Z) (row : list Z) : list (Q * Q) :=
  match row with
  | [] => []
  | v :: rest =>
      (if v =? 1 then [(mazeToWorld x, mazeToWorld z)] else [])
      ++ wallsOfRow z (x + 1) rest
  end.

Fixpoint wallsFrom (z : Z) (maze : grid) : list (Q * Q) :=
  match maze with
  | [] => []
  | row :: rest => wallsOfRow z 0 row ++ wallsFrom (z + 1) rest
  end.

Definition createMaze (maze : grid) : list (Q * Q) := wallsFrom 0 maze.

(** ** The win test of the basic component, [src/components/MazeGame.tsx] *)

Module BasicWin.

(** [gameWon] as React holds it, and the two refs the test reads. *)
Record Game : Type := mk_game {
  gameWon : bool;
  playerPositionRef : Position;
  exitPositionRef : Position
}.

(** [checkWinCondition]; [gameWon_read] is the value of [gameWon] in the
    closure that runs, the one of the render that mounted the frame
    loop. *)
Definition checkWinCondition (gameWon_read : bool) (g : Game) : Game :=
  if distance_lt (playerPositionRef g) (exitPositionRef g) (3 # 2)
     && negb gameWon_read
  then mk_game true (playerPositionRef g) (exitPositionRef g)
  else g.

End BasicWin.

(** ** Vocabulary of the specification *)

(** A [W] by [H] matrix. *)
Definition rect (W H : Z) (g : grid) : Prop :=
  Z.of_nat (length g) = H ∧
  ∀ y row, row_at g y = Some row → Z.of_nat (length row) = W.

Fixpoint count_walls (row : list Z) : nat :=
  match row with
  | [] => 0
  | v :: row' => ((if (v =? 1)%Z then 1 else 0) + count_walls row')%nat
  end.

(** The number of wall cells of a grid. *)
Fixpoint wall_count (g : grid) : nat :=
  match g with
  | [] => 0
  | row :: g' => (count_walls row + wall_count g')%nat
  end.

(** The cells that are not on the outer border: [isValidCell]. *)
Definition interior (W H x y : Z) : Prop := 0 < x < W - 1 ∧ 0 < y < H - 1.

(** [g'] is [g] with some interior walls opened, and nothing else
    changed. *)
Record carved (W H : Z) (g g' : grid) : Prop := {
  carved_rect : rect W H g';
  carved_cells : ∀ x y,
    cell g' x y = cell g x y ∨ (interior W H x y ∧ cell g' x y = Some 0);
  carved_count : (wall_count g' ≤ wall_count g)%nat
}.

(** The all-wall matrix [generate] starts from. *)
Definition all_walls (W H : Z) : grid :=
  replicate (Z.to_nat H) (replicate (Z.to_nat W) 1).

(** *** Reachability over open cells *)

Definition open_cell (g : grid) (p : Z * Z) : Prop := cell g p.1 p.2 = Some 0.

(** Two cells that share an edge. *)
Definition adjacent (p q : Z * Z) : Prop :=
  Z.abs (p.1 - q.1) + Z.abs (p.2 - q.2) = 1.

(** [path g p q]: a walk from [p] to [q] over open cells of [g], each step
    between 4-adjacent cells. *)
Inductive path (g : grid) : Z * Z → Z * Z → Prop :=
| path_here p : open_cell g p → path g p p
| path_step p q r : open_cell g p → adjacent p q → path g q r → path g p r.

(** A flood fill from [start]: [flood g start n] lists the cells reached
    after [n] rounds, each round adding the open neighbours of the cells
    reached so far. *)
Definition is_open (g : grid) (p : Z * Z) : bool := is_num (cell g p.1 p.2) 0.

Definition neighbours (p : Z * Z) : list (Z * Z) :=
  [(p.1 + 1, p.2); (p.1 - 1, p.2); (p.1, p.2 + 1); (p.1, p.2 - 1)].

Definition spread (g : grid) (reached : list (Z * Z)) : list (Z * Z) :=
  reached ++ filter (fun q => is_open g q = true) (reached ≫= neighbours).

Definition flood (g : grid) (start : Z * Z) (rounds : nat) : list (Z * Z) :=
  Nat.iter rounds (spread g) (if is_open g start then [start] else []).

(** The values [Math.random()] can return. *)
Definition unit_interval (random : nat → Q) : Prop :=
  ∀ k, (0 <= random k)%Q ∧ (random k < 1)%Q.

(** The straight-line grid distance that the component computes with
    [Math.sqrt]. *)
Definition distance (a b : Position) : R := sqrt (IZR (distance2 a b)).

(** *** The timers and the frame request of a session *)

(** No timer is pending, or exactly one is and [respawnTimerRef] holds its
    handle. *)
Definition one_timer (s : Enhanced.Session) : Prop :=
  Enhanced.timeouts s = [] ∨
  ∃ id captured,
    Enhanced.timeouts s = [(id, captured)] ∧
    Enhanced.respawnTimerRef s = Some id.

(** The invariant of a mounted session: the timers as above, and a frame
    request always pending. *)
Definition session_inv (s : Enhanced.Session) : Prop :=
  one_timer s ∧ Enhanced.frameRequested s = true.

(** [s'] differs from [s] outside the timers and the frame request. *)
Definition same_schedule (s s' : Enhanced.Session) : Prop :=
  Enhanced.timeouts s' = Enhanced.timeouts s ∧
  Enhanced.respawnTimerRef s' = Enhanced.respawnTimerRef s ∧
  Enhanced.frameRequested s' = Enhanced.frameRequested s.

(** *** A sample level and sample inputs *)

(** A stream of draws that are all [0.5], for the examples. *)
Definition half : nat → Q := fun _ => 1 # 2.

(** The maze generated when every draw is [0.5], as a level to play in. *)
Definition sample_maze : grid :=
  Eval vm_compute in
    match MazeGenerator.generate MAZE_SIZE MAZE_SIZE half with
    | Done g => g
    | _ => []
    end.

(** A diagonal move (right and backward, camera not turned) against the
    east border of the sample maze, from the open cell (19,5). *)
Definition diagonal_keys : MoveState := mk_keys false true false true.
Definition sample_normalize (m : Q * Q) : Q * Q :=
  ((m.1 * (7071 # 10000))%Q, (m.2 * (7071 # 10000))%Q).
Definition no_turn (yaw : Q) (m : Q * Q) : Q * Q := m.

(** One attack in the first frame, the timer running out, a second attack,
    a reset and a teardown. *)
Definition sample_events : list Enhanced.event :=
  let v := Enhanced.mk_react false false 3 (mk_pos 1 1) false 0 in
  let no_keys := mk_keys false false false false in
  [ Enhanced.Frame v true diagonal_keys 1 [];
    Enhanced.Timeout 1 (1 # 2) (1 # 4);
    Enhanced.Frame v true no_keys 2 [mk_pos 5 1];
    Enhanced.Reset;
    Enhanced.Unmount ].

Definition sample_final : Enhanced.Session :=
  Eval vm_compute in
    match Enhanced.run sample_maze sample_normalize no_turn sample_events
            (Enhanced.mounted (mk_pos 19 19)) with
    | Done s => s
    | _ => Enhanced.mounted (mk_pos 19 19)
    end.

(** The session after one attack in the first frame and a teardown. *)
Definition torn_down : Enhanced.Session :=
  Eval vm_compute in
    match Enhanced.run sample_maze sample_normalize no_turn
            [Enhanced.Frame (Enhanced.mk_react false false 3 (mk_pos 1 1) false 0)
               true (mk_keys false false false false) 1 [];
             Enhanced.Unmount]
            (Enhanced.mounted (mk_pos 19 19)) with
    | Done s => s
    | _ => Enhanced.mounted (mk_pos 19 19)
    end.

(** *** Connectivity of a maze *)

(** Every open cell can be reached from the spawn cell (1,1). *)
Definition connected (g : grid) : Prop :=
  ∀ p, open_cell g p → path g (1, 1) p.

(** A cell whose opening keeps a maze connected: the spawn cell, a cell
    that is open already, or a cell next to an open one. *)
Definition attachable (g : grid) (q : Z * Z) : Prop :=
  q = (1, 1) ∨ open_cell g q ∨ ∃ r, adjacent r q ∧ open_cell g r.

(** *** Frames, and positions next to the grid's first row and column *)

(** The events that are animation frames. *)
Definition is_frame (e : Enhanced.event) : Prop :=
  match e with Enhanced.Frame _ _ _ _ _ => True | _ => False end.

(** A camera whose two grid coordinates are below 1.25. *)
Definition near_corner (c : Enhanced.Camera) : Prop :=
  (worldToMaze (Enhanced.cam_x c) < 5 # 4)%Q ∧
  (worldToMaze (Enhanced.cam_z c) < 5 # 4)%Q.

(** *** Closures, the exit scan and a game that goes on *)

(** The frames of [es] run the closure that read [v]. *)
Definition frames_read (v : Enhanced.React) (e : Enhanced.event) : Prop :=
  match e with Enhanced.Frame v' _ _ _ _ => v' = v | _ => True end.

(** [(x, z)] is visited before [p] by the exit scan, which counts both
    coordinates down, [x] in the outer loop. *)
Definition scanned_before (x z : Z) (p : Position) : Prop :=
  pos_x p < x ∨ (x = pos_x p ∧ pos_z p < z).

Definition in_scan_range (c : Z) : Prop := MAZE_SIZE - 4 ≤ c ≤ MAZE_SIZE - 2.

(** The game goes on: not over, and a life left. *)
Definition alive (s : Enhanced.Session) : Prop :=
  Enhanced.gameOver (Enhanced.react s) = false ∧
  0 < Enhanced.lives (Enhanced.react s).

(** *** Rooms of a maze *)

(** The cells [carvePath] is called on: both coordinates odd. *)
Definition room (x y : Z) : Prop := Z.odd x = true ∧ Z.odd y = true.

(** Every cell two steps away from [(x, y)] that [isValidCell] accepts is
    open. *)
Definition saturated (W H : Z) (g : grid) (x y : Z) : Prop :=
  ∀ d, d ∈ MazeGenerator.directions →
       MazeGenerator.isValidCell W H (x + d.1) (y + d.2) = true →
       cell g (x + d.1) (y + d.2) = Some 0.

(** The rooms opened between [g] and [g'] are saturated in [g']. *)
Definition covers (W H : Z) (g g' : grid) : Prop :=
  ∀ x y, room x y → cell g' x y = Some 0 → cell g x y ≠ Some 0 →
         saturated W H g' x y.

(** *** Enemies as [createEnemies] leaves them *)

(** A cell of the grid that is not a wall, at a straight-line distance of
    at least 8 from the player spawn and of at least 4 from each of the
    positions [used]. *)
Definition well_placed (maze : grid) (used : list Position) (p : Position)
  : Prop :=
  0 ≤ pos_x p < MAZE_SIZE ∧ 0 ≤ pos_z p < MAZE_SIZE ∧
  cell maze (pos_x p) (pos_z p) ≠ Some 1 ∧
  (8 <= distance p (mk_pos 1 1))%R ∧
  ∀ q, q ∈ used → (4 <= distance p q)%R.

(** A patrol path: the spawn cell, then at most three open cells away from
    the border. *)
Definition patrol_ok (maze : grid) (e : Enemies.Enemy) : Prop :=
  ∃ rest,
    Enemies.patrolPath e = Enemies.position e :: rest ∧
    (length rest ≤ 3)%nat ∧
    Forall (fun p => cell maze (pos_x p) (pos_z p) = Some 0 ∧
                     1 ≤ pos_x p ≤ MAZE_SIZE - 2 ∧
                     1 ≤ pos_z p ≤ MAZE_SIZE - 2) rest.

(** An enemy that has not moved or attacked yet. *)
Definition fresh_enemy (e : Enemies.Enemy) : Prop :=
  Enemies.mesh_x e = mazeToWorld (pos_x (Enemies.position e)) ∧
  Enemies.mesh_z e = mazeToWorld (pos_z (Enemies.position e)) ∧
  Enemies.currentPathIndex e = 0%nat ∧
  Enemies.isAttacking e = false ∧
  Enemies.lastAttack e = 0 ∧
  Enemies.health e = 100 ∧
  (16 # 1000 <= Enemies.speed e)%Q ∧ (Enemies.speed e < 24 # 1000)%Q.

(** The enemies of a list, each well placed with respect to the ones
    before it. *)
Definition enemies_ok (maze : grid) (es : list Enemies.Enemy) : Prop :=
  ∀ i e, es !! i = Some e →
         Enemies.id e = i ∧
         well_placed maze (Enemies.position <$> take i es)
           (Enemies.position e) ∧
         patrol_ok maze e ∧ fresh_enemy e.

(** *** Enemies while the game runs *)

(** The patrol index points into the patrol path. *)
Definition patrol_index_ok (e : Enemies.Enemy) : Prop :=
  Enemies.patrolPath e = [] ∨
  (Enemies.currentPathIndex e < length (Enemies.patrolPath e))%nat.

(** An attack under way was started more than the cooldown after the last
    hit. *)
Definition attack_ok (e : Enemies.Enemy) : Prop :=
  Enemies.isAttacking e = true →
  Enemies.ENEMY_ATTACK_COOLDOWN
  < Enemies.attackStartTime e - Enemies.lastAttack e.

(** Each time of [hits] is more than 4000 ms after the one before it,
    the first one after [last]. *)
Fixpoint spaced (last : Z) (hits : list Z) : Prop :=
  match hits with
  | [] => True
  | t :: rest => 4000 < t - last ∧ spaced t rest
  end.

(** *** Checkpoints *)

(** The checkpoints of a list, each well placed with respect to the player
    spawn and the checkpoints before it, and not activated. *)
Definition checkpoints_ok (maze : grid) (cps : list Checkpoints.Checkpoint)
  : Prop :=
  ∀ i c, cps !! i = Some c →
         well_placed maze
           (mk_pos 1 1 :: (Checkpoints.position <$> take i cps))
           (Checkpoints.position c) ∧
         Checkpoints.activated c = false.

(** The number of activated checkpoints. *)
Definition activated_count (cps : list Checkpoints.Checkpoint) : Z :=
  Z.of_nat (length (filter (fun c => Checkpoints.activated c = true) cps)).

(** *** What is drawn *)

(** The footprint of a wall mesh at [w]: a [BoxGeometry] of side
    [WALL_SIZE] centred on the mesh position, closed on its low sides. *)
Definition in_wall_box (w p : Q * Q) : Prop :=
  (w.1 - inject_Z WALL_SIZE / 2 <= p.1)%Q ∧
  (p.1 < w.1 + inject_Z WALL_SIZE / 2)%Q ∧
  (w.2 - inject_Z WALL_SIZE / 2 <= p.2)%Q ∧
  (p.2 < w.2 + inject_Z WALL_SIZE / 2)%Q.

(** ** Facts about grids *)

Section GridFacts.

Implicit Types (g : grid) (row : list Z) (x y v : Z).

Lemma row_at_Some g y row :
  row_at g y = Some row → 0 ≤ y < Z.of_nat (length g).
Proof.
  unfold row_at. destruct (Z.ltb_spec y 0); [done|].
  intros Hl%lookup_lt_Some. lia.
Qed.

Lemma row_at_in g y :
  0 ≤ y < Z.of_nat (length g) → ∃ row, row_at g y = Some row.
Proof.
  intros Hy. unfold row_at. destruct (Z.ltb_spec y 0); [lia|].
  apply lookup_lt_is_Some_2. lia.
Qed.

Lemma col_at_in row x :
  0 ≤ x < Z.of_nat (length row) → ∃ v, col_at row x = Some v.
Proof.
  intros Hx. unfold col_at. destruct (Z.ltb_spec x 0); [lia|].
  apply lookup_lt_is_Some_2. lia.
Qed.

Lemma cell_in W H g x y :
  rect W H g → 0 ≤ x < W → 0 ≤ y < H → ∃ v, cell g x y = Some v.
Proof.
  intros [Hlen Hrows] Hx Hy.
  destruct (row_at_in g y) as [row Hrow]; [lia|].
  destruct (col_at_in row x) as [v Hv]; [rewrite (Hrows _ _ Hrow); lia|].
  exists v. unfold cell. by rewrite Hrow.
Qed.

Lemma count_walls_insert row (i : nat) old :
  row !! i = Some old →
  (count_walls (<[i := 0%Z]> row) + (if (old =? 1)%Z then 1 else 0))%nat
  = count_walls row.
Proof.
  revert i old. induction row as [|a row IH]; intros [|i] old Hi; simplify_eq/=.
  - apply Nat.add_comm.
  - rewrite <- (IH _ _ Hi). symmetry. apply Nat.add_assoc.
Qed.

Lemma wall_count_insert g (j : nat) row row' :
  g !! j = Some row →
  (wall_count (<[j := row']> g) + count_walls row)%nat
  = (wall_count g + count_walls row')%nat.
Proof.
  revert j. induction g as [|r g IH]; intros [|j] Hj; simplify_eq/=.
  - lia.
  - rewrite <- !Nat.add_assoc. f_equal. exact (IH _ Hj).
Qed.

Lemma at_insert_eq {A} (l : list A) (i : Z) (a b : A) :
  (if i <? 0 then None else l !! Z.to_nat i) = Some a →
  (if i <? 0 then None else <[Z.to_nat i := b]> l !! Z.to_nat i) = Some b.
Proof.
  destruct (Z.ltb_spec i 0); [done|].
  intros Hl%lookup_lt_Some. by apply list_lookup_insert_eq.
Qed.

Lemma at_insert_ne {A} (l : list A) (i i' : Z) (b : A) :
  0 ≤ i → i ≠ i' →
  (if i' <? 0 then None else <[Z.to_nat i := b]> l !! Z.to_nat i')
  = (if i' <? 0 then None else l !! Z.to_nat i').
Proof.
  intros Hi Hne. destruct (Z.ltb_spec i' 0); [done|].
  apply list_lookup_insert_ne. lia.
Qed.

(** What an in-range assignment [g[y][x] = 0] does. *)
Lemma write_in W H g x y :
  rect W H g → 0 ≤ x < W → 0 ≤ y < H →
  ∃ g' old,
    write g x y 0 = Done g' ∧ rect W H g' ∧
    cell g x y = Some old ∧ cell g' x y = Some 0 ∧
    (∀ x' y', (x', y') ≠ (x, y) → cell g' x' y' = cell g x' y') ∧
    (wall_count g' + (if (old =? 1)%Z then 1 else 0))%nat = wall_count g.
Proof.
  intros [Hlen Hrows] Hx Hy.
  destruct (row_at_in g y) as [row Hrow]; [lia|].
  pose proof (Hrows _ _ Hrow) as Hw.
  destruct (col_at_in row x) as [old Hold]; [lia|].
  exists (<[Z.to_nat y := <[Z.to_nat x := 0]> row]> g), old.
  assert (Hy' : g !! Z.to_nat y = Some row).
  { revert Hrow. unfold row_at. by destruct (Z.ltb_spec y 0); [lia|]. }
  assert (Hx' : row !! Z.to_nat x = Some old).
  { revert Hold. unfold col_at. by destruct (Z.ltb_spec x 0); [lia|]. }
  split_and!.
  - unfold write. rewrite Hrow.
    destruct (Z.leb_spec 0 x); [|lia].
    by destruct (Z.ltb_spec x (Z.of_nat (length row))); [|lia].
  - split; [by rewrite length_insert|].
    intros y' row'. destruct (decide (y = y')) as [<-|Hne].
    + unfold row_at. rewrite (at_insert_eq _ _ _ _ Hrow).
      intros [= <-]. by rewrite length_insert.
    + unfold row_at. rewrite at_insert_ne by lia. apply Hrows.
  - unfold cell. by rewrite Hrow.
  - unfold cell, row_at. rewrite (at_insert_eq _ _ _ _ Hrow). simpl.
    apply (at_insert_eq _ _ _ _ Hold).
  - intros x' y' Hne. unfold cell, row_at.
    destruct (decide (y = y')) as [<-|Hney].
    + rewrite (at_insert_eq _ _ _ _ Hrow).
      fold (row_at g y). rewrite Hrow. simpl.
      apply at_insert_ne; [lia|]. congruence.
    + by rewrite at_insert_ne by lia.
  - pose proof (wall_count_insert g _ _ (<[Z.to_nat x := 0]> row) Hy') as E1.
    pose proof (count_walls_insert _ _ _ Hx') as E2.
    rewrite <- E2 in E1. clear E2.
    revert E1. generalize (if (old =? 1)%Z then 1%nat else 0%nat).
    intros n E1. apply (Nat.add_cancel_r _ _ (count_walls (<[Z.to_nat x:=0]> row))).
    rewrite <- E1. rewrite <- !Nat.add_assoc. f_equal. apply Nat.add_comm.
Qed.

End GridFacts.

(** ** The generator's invariants *)

Section GeneratorFacts.

Import MazeGenerator.

Variables W H : Z.
Variable random : nat → Q.
Hypothesis W_ge_3 : 3 ≤ W.
Hypothesis H_ge_3 : 3 ≤ H.
Hypothesis random_range : unit_interval random.

Lemma carved_refl g : rect W H g → carved W H g g.
Proof. intros Hg. split; [done| by left | done]. Qed.

Lemma carved_trans g1 g2 g3 : carved W H g1 g2 → carved W H g2 g3 → carved W H g1 g3.
Proof.
  intros [_ C1 N1] [R2 C2 N2]. split; [done| |by etrans].
  intros x y. destruct (C2 x y) as [->|?]; [apply C1 | by right].
Qed.

Lemma carved_open g g' x y :
  carved W H g g' → cell g x y = Some 0 → cell g' x y = Some 0.
Proof. intros [_ C _] E. destruct (C x y) as [->|[_ ?]]; done. Qed.

Lemma carved_border g g' x y :
  carved W H g g' → ¬ interior W H x y → cell g' x y = cell g x y.
Proof. intros [_ C _] Hb. destruct (C x y) as [?|[? _]]; done. Qed.

Lemma isValidCell_spec x y : isValidCell W H x y = true ↔ interior W H x y.
Proof. unfold isValidCell, interior. lia. Qed.

Lemma read_in g x y :
  rect W H g → 0 ≤ y < H → read g x y = Done (cell g x y).
Proof.
  intros [Hlen _] Hy. unfold read, cell.
  destruct (row_at_in g y) as [row ->]; [lia | done].
Qed.

(** Opening an interior cell. *)
Lemma set_cell_interior s x y :
  rect W H (maze s) → interior W H x y →
  ∃ s', set_cell s x y 0 = Done s' ∧ calls s' = calls s ∧
        carved W H (maze s) (maze s') ∧ cell (maze s') x y = Some 0 ∧
        (∀ x' y', (x', y') ≠ (x, y) →
                  cell (maze s') x' y' = cell (maze s) x' y') ∧
        (cell (maze s) x y = Some 1 →
         S (wall_count (maze s')) = wall_count (maze s)).
Proof.
  intros Hg [Hx Hy].
  destruct (write_in W H (maze s) x y) as (g' & old & E & R & O & Z0 & F & N);
    [done | lia | lia |].
  exists (mk_state g' (calls s)). unfold set_cell. rewrite E. simpl.
  split_and!; [done | done | | done | done |].
  - split; [done | | ].
    + intros x' y'. destruct (decide ((x', y') = (x, y))) as [[= -> ->]|Hne].
      * by right.
      * left. by apply F.
    + rewrite <- N. apply Nat.le_add_r.
  - intros E1. rewrite E1 in O. injection O as <-. simpl in N.
    rewrite <- N. symmetry. apply Nat.add_1_r.
Qed.

(** The index drawn by the shuffle lies in the array. *)
Lemma floor_index (r : Q) (n : Z) :
  (0 <= r)%Q → (r < 1)%Q → 0 < n → 0 ≤ Qfloor (r * inject_Z n) < n.
Proof.
  intros Hr0 Hr1 Hn.
  assert (Hn' : (inject_Z 0 < inject_Z n)%Q) by (rewrite <- Zlt_Qlt; lia).
  split.
  - change 0 with (Qfloor 0). apply Qfloor_resp_le.
    apply Qmult_le_0_compat; [done | by apply Qlt_le_weak].
  - rewrite Zlt_Qlt. eapply Qle_lt_trans; [apply Qfloor_le|].
    rewrite <- (Qmult_1_l (inject_Z n)) at 2.
    by apply Qmult_lt_r.
Qed.

Lemma shuffle_in i (ds : list (Z * Z)) k :
  (i < length ds)%nat →
  ∃ ds', shuffle random i ds k = Done (ds', (k + i)%nat) ∧
         length ds' = length ds ∧ ∀ d, d ∈ ds' → d ∈ ds.
Proof.
  revert ds k. induction i as [|i IH]; intros ds k Hi.
  { exists ds. by rewrite Nat.add_0_r. }
  cbn [shuffle].
  destruct (random_range k) as [Hr0 Hr1].
  pose proof (floor_index (random k) (Z.of_nat (S i) + 1) Hr0 Hr1) as Hj.
  set (j := Qfloor (random k * inject_Z (Z.of_nat (S i) + 1))) in *.
  destruct Hj as [Hj0 Hj1]; [lia|].
  destruct (Z.ltb_spec j 0) as [?|_]; [lia|].
  destruct (lookup_lt_is_Some_2 ds (S i)) as [di Hdi]; [done|].
  destruct (lookup_lt_is_Some_2 ds (Z.to_nat j)) as [dj Hdj]; [lia|].
  rewrite Hdi, Hdj.
  destruct (IH (<[Z.to_nat j := di]> (<[S i := dj]> ds)) (S k))
    as (ds' & E & L & M).
  { rewrite !length_insert. lia. }
  exists ds'. split_and!.
  - rewrite E. do 2 f_equal. lia.
  - by rewrite L, !length_insert.
  - intros d Hd%M.
    apply list_elem_of_lookup in Hd as [n Hn].
    destruct (decide (n = Z.to_nat j)) as [->|Hnj].
    { rewrite list_lookup_insert_eq in Hn by (rewrite length_insert; lia).
      injection Hn as <-. by eapply list_elem_of_lookup_2. }
    rewrite list_lookup_insert_ne in Hn by done.
    destruct (decide (n = S i)) as [->|Hni].
    { rewrite list_lookup_insert_eq in Hn by done.
      injection Hn as <-. by eapply list_elem_of_lookup_2. }
    rewrite list_lookup_insert_ne in Hn by done.
    by eapply list_elem_of_lookup_2.
Qed.

(** The cell between a cell and its neighbour two steps away. *)
Lemma between_interior x y dx dy :
  (dx, dy) ∈ directions → interior W H x y → interior W H (x + dx) (y + dy) →
  interior W H (x + dx / 2) (y + dy / 2) ∧
  (x + dx, y + dy) ≠ (x + dx / 2, y + dy / 2).
Proof.
  unfold directions, interior. intros Hd [Hx Hy] [Hx' Hy'].
  decompose_list_elem_of; simplify_eq;
    change (-2 / 2) with (-1); change (2 / 2) with 1;
    change (0 / 2) with 0; (split; [lia | intros [=]; lia]).
Qed.

(** The direction loop, given that the recursive calls behave. *)
Lemma tryDirections_ok (carve : Z → Z → state → outcome state) (n : nat) :
  (∀ x y s, rect W H (maze s) → interior W H x y →
            cell (maze s) x y = Some 1 → (wall_count (maze s) ≤ n)%nat →
            ∃ s', carve x y s = Done s' ∧ carved W H (maze s) (maze s')) →
  ∀ x y ds s,
    (∀ d, d ∈ ds → d ∈ directions) →
    rect W H (maze s) → interior W H x y → (wall_count (maze s) ≤ n)%nat →
    ∃ s', tryDirections W H carve x y ds s = Done s' ∧
          carved W H (maze s) (maze s').
Proof.
  intros Hcarve x y ds. induction ds as [|[dx dy] ds IH]; intros s Hds Hg Hxy Hn.
  { exists s. split; [done | by apply carved_refl]. }
  assert (Hds' : ∀ d, d ∈ ds → d ∈ directions).
  { intros d Hd. apply Hds. by right. }
  cbn [tryDirections].
  destruct (isValidCell W H (x + dx) (y + dy)) eqn:Hv; [|by apply IH].
  apply isValidCell_spec in Hv.
  rewrite read_in by (done || destruct Hv; lia). cbn [mbind outcome_bind].
  destruct (is_num (cell (maze s) (x + dx) (y + dy)) 1) eqn:Hw; [|by apply IH].
  assert (Hwall : cell (maze s) (x + dx) (y + dy) = Some 1).
  { destruct (cell (maze s) (x + dx) (y + dy)) as [v|]; [|done].
    simpl in Hw. apply Z.eqb_eq in Hw. by subst. }
  destruct (between_interior x y dx dy) as [Hb Hne]; [apply Hds; by left|done..|].
  destruct (set_cell_interior s _ _ Hg Hb) as (s2 & -> & _ & C2 & _ & F2 & _).
  cbn [mbind outcome_bind].
  destruct (Hcarve (x + dx) (y + dy) s2) as (s3 & -> & C3).
  { apply C2. } { done. } { by rewrite F2. }
  { etrans; [apply C2 | done]. }
  cbn [mbind outcome_bind].
  destruct (IH s3) as (s' & -> & C'); [done | apply C3 | done | |].
  { etrans; [apply C3|]. etrans; [apply C2 | done]. }
  exists s'. split; [done|].
  eapply carved_trans; [|done]. by eapply carved_trans.
Qed.

(** [carvePath] returns whenever the fuel covers the walls left. *)
Lemma carvePath_ok fuel x y s :
  rect W H (maze s) → interior W H x y → cell (maze s) x y = Some 1 →
  (wall_count (maze s) ≤ fuel)%nat →
  ∃ s', carvePath W H random fuel x y s = Done s' ∧
        carved W H (maze s) (maze s') ∧ cell (maze s') x y = Some 0.
Proof.
  revert x y s. induction fuel as [|f IH]; intros x y s Hg Hxy Hwall Hn;
    destruct (set_cell_interior s x y Hg Hxy) as (s1 & E1 & K1 & C1 & O1 & _ & N1);
    specialize (N1 Hwall).
  { rewrite <- N1 in Hn. by apply Nat.nle_succ_0 in Hn. }
  cbn [carvePath]. rewrite E1. cbn [mbind outcome_bind].
  destruct (shuffle_in (length directions - 1) directions (calls s1))
    as (ds & -> & _ & Hds); [simpl; lia|].
  cbn [mbind outcome_bind].
  assert (Hf : (wall_count (maze s1) ≤ f)%nat).
  { apply Nat.succ_le_mono. by rewrite N1. }
  destruct (tryDirections_ok (carvePath W H random f) f) with
    (x := x) (y := y) (ds := ds)
    (s := mk_state (maze s1) (calls s1 + (length directions - 1)))
    as (s' & E' & C'); [| done | apply C1 | done | done |].
  { intros x' y' s' Hg' Hxy' Hw' Hn'.
    destruct (IH x' y' s') as (s'' & ? & ? & _); eauto. }
  exists s'. split_and!; [done | by eapply carved_trans |].
  by eapply carved_open.
Qed.

(** The staircase loop returns, and the cells it opens join its starting
    cell to the exit cell in every later grid whose exit cell is open. *)
Lemma exitLoop_ok fuel cx cy s :
  rect W H (maze s) → 1 ≤ cx ≤ W - 2 → 1 ≤ cy ≤ H - 2 →
  (W - 2 - cx) + (H - 2 - cy) < Z.of_nat fuel →
  ∃ s', exitLoop random fuel (W - 2) (H - 2) cx cy s = Done s' ∧
        carved W H (maze s) (maze s') ∧
        ∀ g, carved W H (maze s') g → cell g (W - 2) (H - 2) = Some 0 →
             path g (cx, cy) (W - 2, H - 2).
Proof.
  revert cx cy s. induction fuel as [|f IH]; intros cx cy s Hg Hcx Hcy Hf.
  { lia. }
  cbn [exitLoop].
  destruct ((cx <? W - 2) || (cy <? H - 2)) eqn:Hloop.
  2:{ exists s. split_and!; [done | by apply carved_refl |].
      intros g _ Hopen. assert (cx = W - 2 ∧ cy = H - 2) as [-> ->] by lia.
      by apply path_here. }
  destruct (set_cell_interior s cx cy Hg) as (s1 & -> & _ & C1 & O1 & _);
    [unfold interior; lia|].
  cbn [mbind outcome_bind].
  assert (Hnext : ∀ cx' cy' k,
    adjacent (cx, cy) (cx', cy') → 1 ≤ cx' ≤ W - 2 → 1 ≤ cy' ≤ H - 2 →
    (W - 2 - cx') + (H - 2 - cy') < Z.of_nat f →
    ∃ s', exitLoop random f (W - 2) (H - 2) cx' cy' (mk_state (maze s1) k)
          = Done s' ∧
          carved W H (maze s) (maze s') ∧
          ∀ g, carved W H (maze s') g → cell g (W - 2) (H - 2) = Some 0 →
               path g (cx, cy) (W - 2, H - 2)).
  { intros cx' cy' k Hadj Hcx' Hcy' Hf'.
    destruct (IH cx' cy' (mk_state (maze s1) k)) as (s' & -> & C' & P');
      [apply C1 | done..|].
    exists s'. split_and!; [done | by eapply carved_trans |].
    intros g Cg Hopen. eapply path_step; [|done|by apply P'].
    eapply carved_open; [done|]. by eapply carved_open. }
  destruct (Z.ltb_spec cx (W - 2)).
  - destruct (negb (Qle_bool (random (calls s1)) (3 # 10))).
    + apply Hnext; [unfold adjacent; simpl; lia | lia..].
    + destruct (Z.ltb_spec cy (H - 2)).
      * apply Hnext; [unfold adjacent; simpl; lia | lia..].
      * apply Hnext; [unfold adjacent; simpl; lia | lia..].
  - destruct (Z.ltb_spec cy (H - 2)); [|lia].
    destruct s1 as [g1 k1].
    apply Hnext; [unfold adjacent; simpl; lia | lia..].
Qed.

Lemma count_walls_replicate n : count_walls (replicate n 1) = n.
Proof. induction n as [|n IH]; simpl; [done | by rewrite IH]. Qed.

Lemma wall_count_replicate m row :
  wall_count (replicate m row) = (m * count_walls row)%nat.
Proof. induction m as [|m IH]; simpl; [done | by rewrite IH]. Qed.

Lemma walls_Done : walls W H = Done (all_walls W H).
Proof.
  unfold walls.
  destruct (Z.ltb_spec W 0); [lia|]. by destruct (Z.ltb_spec H 0); [lia|].
Qed.

Lemma all_walls_rect : rect W H (all_walls W H).
Proof.
  split.
  - unfold all_walls. rewrite length_replicate. lia.
  - intros y row. unfold row_at, all_walls.
    destruct (Z.ltb_spec y 0); [done|].
    intros [-> _]%lookup_replicate. rewrite length_replicate. lia.
Qed.

Lemma all_walls_cell x y :
  0 ≤ x < W → 0 ≤ y < H → cell (all_walls W H) x y = Some 1.
Proof.
  intros Hx Hy. unfold cell, row_at, col_at, all_walls.
  destruct (Z.ltb_spec y 0); [lia|].
  rewrite lookup_replicate_2 by lia. simpl.
  destruct (Z.ltb_spec x 0); [lia|].
  by rewrite lookup_replicate_2 by lia.
Qed.

Lemma all_walls_count : wall_count (all_walls W H) = Z.to_nat (W * H).
Proof.
  unfold all_walls.
  rewrite wall_count_replicate, count_walls_replicate. lia.
Qed.

(** What [generate] returns, for any fuel of at least one unit per cell. *)
Lemma generate_fuel_spec fuel :
  (Z.to_nat (W * H) ≤ fuel)%nat →
  ∃ g, generate_fuel W H random fuel = Done g ∧
       carved W H (all_walls W H) g ∧
       cell g 1 1 = Some 0 ∧ cell g (W - 2) (H - 2) = Some 0 ∧
       path g (1, 1) (W - 2, H - 2).
Proof.
  intros Hfuel. unfold generate_fuel. rewrite walls_Done.
  cbn [mbind outcome_bind].
  destruct (carvePath_ok fuel 1 1 (mk_state (all_walls W H) 0))
    as (s1 & -> & C1 & O1).
  { apply all_walls_rect. } { unfold interior; lia. }
  { apply all_walls_cell; lia. } { simpl. by rewrite all_walls_count. }
  cbn [mbind outcome_bind]. unfold ensureExitPath.
  destruct (exitLoop_ok fuel 1 1 s1) as (s2 & -> & C2 & P2);
    [apply C1 | lia | lia | nia |].
  cbn [mbind outcome_bind].
  destruct (set_cell_interior s2 (W - 2) (H - 2)) as (s3 & -> & _ & C3 & O3 & _);
    [apply C2 | unfold interior; lia |].
  cbn [mbind outcome_bind]. exists (maze s3).
  assert (C13 : carved W H (maze s1) (maze s3)) by by eapply carved_trans.
  split_and!; [done | by eapply carved_trans | | done | by apply P2].
  by eapply carved_open.
Qed.

End GeneratorFacts.

(** ** Fuel only bounds the recursion: more of it changes no result *)

Section FuelFacts.

Import MazeGenerator.

Variables W H : Z.
Variable random : nat → Q.

Lemma tryDirections_mono (carve carve' : Z → Z → state → outcome state) :
  (∀ x y s s', carve x y s = Done s' → carve' x y s = Done s') →
  ∀ x y ds s s',
    tryDirections W H carve x y ds s = Done s' →
    tryDirections W H carve' x y ds s = Done s'.
Proof.
  intros Hc x y ds. induction ds as [|[dx dy] ds IH]; intros s s';
    cbn [tryDirections]; [done|].
  destruct (isValidCell W H (x + dx) (y + dy)); [|apply IH].
  destruct (read (maze s) (x + dx) (y + dy)) as [v| |];
    cbn [mbind outcome_bind]; [|done..].
  destruct (is_num v 1); [|apply IH].
  destruct (set_cell s (x + dx / 2) (y + dy / 2) 0) as [s2| |];
    cbn [mbind outcome_bind]; [|done..].
  destruct (carve (x + dx) (y + dy) s2) as [s3| |] eqn:E;
    cbn [mbind outcome_bind]; [|done..].
  rewrite (Hc _ _ _ _ E). cbn [mbind outcome_bind]. apply IH.
Qed.

Lemma carvePath_mono f f' x y s s' :
  (f ≤ f')%nat →
  carvePath W H random f x y s = Done s' →
  carvePath W H random f' x y s = Done s'.
Proof.
  revert f' x y s s'. induction f as [|f IH]; intros f' x y s s' Hf; [done|].
  destruct f' as [|f']; [lia|]. cbn [carvePath].
  destruct (set_cell s x y 0) as [s1| |]; cbn [mbind outcome_bind]; [|done..].
  destruct (shuffle random _ _ _) as [[ds k]| |];
    cbn [mbind outcome_bind]; [|done..].
  apply tryDirections_mono. intros x' y' t t'. apply IH. lia.
Qed.

Lemma exitLoop_mono f f' ex ey cx cy s s' :
  (f ≤ f')%nat →
  exitLoop random f ex ey cx cy s = Done s' →
  exitLoop random f' ex ey cx cy s = Done s'.
Proof.
  revert f' cx cy s s'. induction f as [|f IH]; intros f' cx cy s s' Hf; [done|].
  destruct f' as [|f']; [lia|]. cbn [exitLoop].
  destruct ((cx <? ex) || (cy <? ey)); [|done].
  destruct (set_cell s cx cy 0) as [s1| |]; cbn [mbind outcome_bind]; [|done..].
  repeat case_match; apply IH; lia.
Qed.

Lemma generate_fuel_mono f f' g :
  (f ≤ f')%nat →
  generate_fuel W H random f = Done g →
  generate_fuel W H random f' = Done g.
Proof.
  intros Hf. unfold generate_fuel, ensureExitPath.
  destruct (walls W H) as [g0| |]; cbn [mbind outcome_bind]; [|done..].
  destruct (carvePath W H random f 1 1 _) as [s1| |] eqn:E1;
    cbn [mbind outcome_bind]; [|done..].
  rewrite (carvePath_mono _ _ _ _ _ _ Hf E1). cbn [mbind outcome_bind].
  destruct (exitLoop random f _ _ 1 1 s1) as [s2| |] eqn:E2;
    cbn [mbind outcome_bind]; [|done..].
  by rewrite (exitLoop_mono _ _ _ _ _ _ _ _ Hf E2).
Qed.

End FuelFacts.

(** ** Generated mazes *)

Section Generated.

Import MazeGenerator.

Variables W H : Z.
Variable random : nat → Q.
Hypothesis W_ge_3 : 3 ≤ W.
Hypothesis H_ge_3 : 3 ≤ H.
Hypothesis random_range : unit_interval random.

(** Everything the later sections need to know about [generate]. *)
Lemma generate_spec :
  ∃ g, generate W H random = Done g ∧
       (∀ fuel, (Z.to_nat (W * H) ≤ fuel)%nat →
                generate_fuel W H random fuel = Done g) ∧
       carved W H (all_walls W H) g ∧
       cell g 1 1 = Some 0 ∧ cell g (W - 2) (H - 2) = Some 0 ∧
       path g (1, 1) (W - 2, H - 2).
Proof.
  destruct (generate_fuel_spec W H random W_ge_3 H_ge_3 random_range
              (Z.to_nat (W * H))) as (g & E & C & O1 & O2 & P); [done|].
  exists g. split_and!; try done.
  intros fuel Hfuel. by eapply generate_fuel_mono.
Qed.

(** A generated grid holds only [0] and [1], exactly in its [W] by [H]
    cells. *)
Lemma carved_binary g x y :
  carved W H (all_walls W H) g →
  0 ≤ x < W → 0 ≤ y < H → cell g x y = Some 0 ∨ cell g x y = Some 1.
Proof.
  intros C Hx Hy. destruct (carved_cells _ _ _ _ C x y) as [->|[_ ->]].
  - right. by apply all_walls_cell.
  - by left.
Qed.

Lemma carved_border_wall g x y :
  carved W H (all_walls W H) g →
  0 ≤ x < W → 0 ≤ y < H →
  x = 0 ∨ x = W - 1 ∨ y = 0 ∨ y = H - 1 →
  cell g x y = Some 1.
Proof.
  intros C Hx Hy Hb. rewrite (carved_border W H _ _ x y C).
  - by apply all_walls_cell.
  - unfold interior. lia.
Qed.

End Generated.

Lemma read_cell (g : grid) (x y v : Z) :
  cell g x y = Some v → read g x y = Done (Some v).
Proof.
  unfold cell, read. destruct (row_at g y) as [row|]; [|done].
  simpl. by intros ->.
Qed.

(** The exit scan stops at the first cell it looks at when that cell is
    open. *)
Lemma findExit_corner (g : grid) :
  cell g (MAZE_SIZE - 2) (MAZE_SIZE - 2) = Some 0 →
  findExit g = Done (mk_pos (MAZE_SIZE - 2) (MAZE_SIZE - 2)).
Proof.
  change (MAZE_SIZE - 2) with 19. intros Hopen%read_cell.
  unfold findExit. change scan_range with [19; 18; 17].
  cbn [scanExit]. change scan_range with [19; 18; 17].
  cbn [scanColumn exitFound]. by rewrite Hopen.
Qed.


(** ** Paths and flood fill reach the same cells *)

Lemma is_open_spec (g : grid) (p : Z * Z) : is_open g p = true ↔ open_cell g p.
Proof.
  unfold is_open, open_cell. destruct (cell g p.1 p.2) as [v|]; simpl.
  - rewrite Z.eqb_eq. split; [by intros -> | by intros [= ->]].
  - done.
Qed.

Lemma neighbours_adjacent (p q : Z * Z) : q ∈ neighbours p ↔ adjacent p q.
Proof.
  destruct p as [px py], q as [qx qy]. unfold neighbours, adjacent. simpl.
  rewrite !elem_of_cons, elem_of_nil. split.
  - intros [[= -> ->]|[[= -> ->]|[[= -> ->]|[[= -> ->]|[]]]]]; lia.
  - intros Hadj.
    assert ((qx = px + 1 ∧ qy = py) ∨ (qx = px - 1 ∧ qy = py) ∨
            (qx = px ∧ qy = py + 1) ∨ (qx = px ∧ qy = py - 1))
      as [[-> ->]|[[-> ->]|[[-> ->]|[-> ->]]]] by lia; auto.
Qed.

Lemma path_start_open (g : grid) (p q : Z * Z) : path g p q → open_cell g p.
Proof. by destruct 1. Qed.

Lemma path_snoc (g : grid) (p q r : Z * Z) :
  path g p q → adjacent q r → open_cell g r → path g p r.
Proof.
  induction 1 as [p Hp|p q' q Hp Hadj _ IH]; intros Hqr Hr.
  - eapply path_step; [done | done | by apply path_here].
  - eapply path_step; [done | done | by apply IH].
Qed.

Lemma spread_mono (g : grid) (xs ys : list (Z * Z)) :
  xs ⊆ ys → spread g xs ⊆ spread g ys.
Proof.
  intros Hsub q. unfold spread.
  rewrite !elem_of_app, !list_elem_of_filter, !list_elem_of_bind.
  intros [Hq|[Hopen (q0 & Hn & Hq0)]]; [left; by apply Hsub|].
  right. split; [done|]. exists q0. split; [done | by apply Hsub].
Qed.

Lemma rounds_mono (g : grid) (n : nat) (xs ys : list (Z * Z)) :
  xs ⊆ ys → Nat.iter n (spread g) xs ⊆ Nat.iter n (spread g) ys.
Proof.
  intros Hsub. induction n as [|n IH]; [done|].
  cbn [Nat.iter nat_rect]. by apply spread_mono.
Qed.

Lemma path_rounds (g : grid) (p q : Z * Z) :
  path g p q → ∃ n, q ∈ Nat.iter n (spread g) [p].
Proof.
  induction 1 as [p Hp|p q' q Hp Hadj Hpath [n IH]].
  - exists 0%nat. apply list_elem_of_here.
  - exists (S n). rewrite Nat.iter_succ_r.
    eapply rounds_mono; [|exact IH].
    intros x ->%list_elem_of_singleton. unfold spread.
    rewrite elem_of_app, list_elem_of_filter, list_elem_of_bind. right.
    split; [by eapply is_open_spec, path_start_open|].
    exists p. split; [by apply neighbours_adjacent | apply list_elem_of_here].
Qed.

Lemma rounds_path (g : grid) (p q : Z * Z) (n : nat) :
  open_cell g p → q ∈ Nat.iter n (spread g) [p] → path g p q.
Proof.
  intros Hp. revert q. induction n as [|n IH]; intros q.
  - intros ->%list_elem_of_singleton. by apply path_here.
  - cbn [Nat.iter nat_rect]. unfold spread at 1.
    rewrite elem_of_app, list_elem_of_filter, list_elem_of_bind.
    intros [Hq|[Hopen (q0 & Hn & Hq0)]]; [by apply IH|].
    eapply path_snoc; [by apply IH | by apply neighbours_adjacent |].
    by apply is_open_spec.
Qed.

Lemma rounds_nil (g : grid) (n : nat) : Nat.iter n (spread g) [] = [].
Proof. induction n as [|n IH]; [done|]. by rewrite Nat.iter_succ, IH. Qed.

(** A cell is reached by the flood fill after some number of rounds exactly
    when a path leads to it. *)
Lemma flood_path (g : grid) (p q : Z * Z) :
  (∃ n, q ∈ flood g p n) ↔ path g p q.
Proof.
  unfold flood. split.
  - intros [n Hq]. destruct (is_open g p) eqn:Hp.
    + eapply rounds_path; [by apply is_open_spec | done].
    + rewrite rounds_nil in Hq. by apply elem_of_nil in Hq.
  - intros Hpath. destruct (path_rounds g p q Hpath) as [n Hn].
    exists n. pose proof (path_start_open g p q Hpath) as Hp.
    apply is_open_spec in Hp. by rewrite Hp.
Qed.

(** ** The generator's properties *)

Lemma half_unit_interval : unit_interval half.
Proof. intros k. by split. Qed.

(** C1: for every 21 by 21 grid that [generate] returns, whatever the random
    draws, a walk over open cells, moving between 4-adjacent cells only,
    leads from cell (1,1) to the exit cell that the level setup picks. *)
Theorem exit_reachable (random : nat → Q) :
  unit_interval random →
  ∃ g exit,
    MazeGenerator.generate MAZE_SIZE MAZE_SIZE random = Done g ∧
    findExit g = Done exit ∧
    path g (1, 1) (pos_x exit, pos_z exit).
Proof.
  intros Hr.
  destruct (generate_spec MAZE_SIZE MAZE_SIZE random) as (g & E & _ & _ & _ & O & P);
    [done..|].
  exists g, (mk_pos (MAZE_SIZE - 2) (MAZE_SIZE - 2)).
  split_and!; [done | by apply findExit_corner | done].
Qed.

Lemma exit_reachable_witness :
  unit_interval half ∧
  ∃ g exit,
    MazeGenerator.generate MAZE_SIZE MAZE_SIZE half = Done g ∧
    findExit g = Done exit ∧
    path g (1, 1) (pos_x exit, pos_z exit).
Proof.
  split; [intros k; split; [discriminate | reflexivity]|].
  apply (exit_reachable half). intros k; split; [discriminate | reflexivity].
Defined.




(** C7: in every grid that [generate] returns for a width and a height of
    at least 3, the cells of row 0, row H-1, column 0 and column W-1 are
    walls, and cell (1,1) is open. *)
Theorem border_is_wall (W H : Z) (random : nat → Q) :
  3 ≤ W → 3 ≤ H → unit_interval random →
  ∃ g, MazeGenerator.generate W H random = Done g ∧
       (∀ x y, 0 ≤ x < W → 0 ≤ y < H →
               x = 0 ∨ x = W - 1 ∨ y = 0 ∨ y = H - 1 →
               cell g x y = Some 1) ∧
       cell g 1 1 = Some 0.
Proof.
  intros HW HH Hr.
  destruct (generate_spec W H random HW HH Hr) as (g & E & _ & C & O & _).
  exists g. split_and!; [done | | done].
  intros x y Hx Hy Hb. by apply (carved_border_wall W H).
Qed.

Lemma border_is_wall_witness :
  3 ≤ 21 ∧ 3 ≤ 21 ∧ unit_interval half ∧
  ∃ g, MazeGenerator.generate 21 21 half = Done g ∧
       (∀ x y, 0 ≤ x < 21 → 0 ≤ y < 21 →
               x = 0 ∨ x = 21 - 1 ∨ y = 0 ∨ y = 21 - 1 →
               cell g x y = Some 1) ∧
       cell g 1 1 = Some 0.
Proof.
  split; [lia|]. split; [lia|].
  split; [intros k; split; [discriminate | reflexivity]|].
  apply (border_is_wall 21 21 half); [lia | lia |].
  intros k; split; [discriminate | reflexivity].
Defined.

(** Below 3 there is no interior: the 2 by 2 grid comes back with cell (0,0)
    opened by the last statement of [ensureExitPath]. *)
Example generate_2_2 :
  MazeGenerator.generate 2 2 half = Done [[0; 1]; [1; 0]].
Proof. reflexivity. Qed.

(** C10: the exit scan of the level setup always ends on cell (19,19), since
    [ensureExitPath] leaves that cell open and the scan reads it first. *)
Theorem exit_is_far_corner (random : nat → Q) :
  unit_interval random →
  ∃ g, MazeGenerator.generate MAZE_SIZE MAZE_SIZE random = Done g ∧
       findExit g = Done (mk_pos 19 19).
Proof.
  intros Hr.
  destruct (generate_spec MAZE_SIZE MAZE_SIZE random) as (g & E & _ & _ & _ & O & _);
    [done..|].
  exists g. split; [done | by apply findExit_corner].
Qed.

Lemma exit_is_far_corner_witness :
  unit_interval half ∧
  ∃ g, MazeGenerator.generate MAZE_SIZE MAZE_SIZE half = Done g ∧
       findExit g = Done (mk_pos 19 19).
Proof.
  split; [intros k; split; [discriminate | reflexivity]|].
  apply (exit_is_far_corner half). intros k; split; [discriminate | reflexivity].
Defined.

(** ** Distances

    [distance a b] is the straight-line grid distance that the component
    computes with [Math.sqrt]; its comparisons with a threshold are the
    comparisons of the squares made by [distance_lt]. *)

Lemma Qltb_lt (a b : Q) : Qltb a b = true ↔ (a < b)%Q.
Proof.
  unfold Qltb. rewrite negb_true_iff, <- not_true_iff_false, Qle_bool_iff.
  split; [apply Qnot_le_lt | apply Qlt_not_le].
Qed.

Lemma Qltb_ge (a b : Q) : Qltb a b = false ↔ (b <= a)%Q.
Proof. unfold Qltb. by rewrite negb_false_iff, Qle_bool_iff. Qed.

Lemma Q2R_inject_Z (n : Z) : Q2R (inject_Z n) = IZR n.
Proof. unfold Q2R, inject_Z. simpl. lra. Qed.

Lemma distance2_nonneg (a b : Position) : 0 ≤ distance2 a b.
Proof. unfold distance2. nia. Qed.

Lemma sqrt_lt_square (a t : R) :
  (0 <= a)%R → (0 <= t)%R → (sqrt a < t)%R ↔ (a < t * t)%R.
Proof.
  intros Ha Ht. split.
  - intros Hs. rewrite <- (sqrt_sqrt a Ha).
    pose proof (sqrt_pos a). nra.
  - intros Hs. rewrite <- (sqrt_square t Ht). by apply sqrt_lt_1_alt.
Qed.

Lemma distance_lt_sqrt (a b : Position) (t : Q) :
  (0 <= t)%Q → distance_lt a b t = true ↔ (distance a b < Q2R t)%R.
Proof.
  intros Ht. unfold distance_lt, distance. rewrite Qltb_lt.
  assert (Ht' : (0 <= Q2R t)%R).
  { replace 0%R with (Q2R 0) by (unfold Q2R; simpl; lra). by apply Qle_Rle. }
  rewrite sqrt_lt_square; [| apply IZR_le, distance2_nonneg | done].
  rewrite <- Q2R_inject_Z, <- Q2R_mult.
  split; [apply Qlt_Rlt | apply Rlt_Qlt].
Qed.

Lemma distance_ge_sqrt (a b : Position) (t : Q) :
  (0 <= t)%Q → distance_lt a b t = false ↔ (Q2R t <= distance a b)%R.
Proof.
  intros Ht. rewrite <- not_true_iff_false, distance_lt_sqrt by done.
  split; [apply Rnot_lt_le | apply Rle_not_lt].
Qed.

Lemma Q2R_4 : Q2R 4 = 4%R.
Proof. unfold Q2R. simpl. lra. Qed.

Lemma Q2R_8 : Q2R Enhanced.MIN_SPAWN_DISTANCE = 8%R.
Proof. unfold Q2R. simpl. lra. Qed.

Lemma Q2R_3_2 : Q2R (3 # 2) = (3 / 2)%R.
Proof. unfold Q2R. simpl. lra. Qed.

Example sample_maze_generated :
  MazeGenerator.generate MAZE_SIZE MAZE_SIZE half = Done sample_maze.
Proof. vm_compute. reflexivity. Qed.

(** ** Spawn validation *)

Lemma farFromAll_spec (x z : Z) (used : list Position) :
  Enhanced.farFromAll x z used = true ↔
  ∀ p, p ∈ used → (4 <= distance (mk_pos x z) p)%R.
Proof.
  induction used as [|q used IH]; simpl.
  - split; [|done]. intros _ p Hp. by apply elem_of_nil in Hp.
  - destruct (distance_lt (mk_pos x z) q 4) eqn:E.
    + split; [done|]. intros Hall. exfalso.
      apply distance_lt_sqrt in E; [|done]. rewrite Q2R_4 in E.
      specialize (Hall q (list_elem_of_here _ _)). lra.
    + apply distance_ge_sqrt in E; [|done]. rewrite Q2R_4 in E.
      rewrite IH. split.
      * intros Hall p [->|Hp]%elem_of_cons; [done | by apply Hall].
      * intros Hall p Hp. apply Hall. by right.
Qed.

(** C5, as amended: on a cell of the grid, [isValidSpawnLocation] returns
    true exactly when the cell is open, its straight-line distance from the
    player spawn (1,1) is at least 8, and its distance from every position
    already used is at least 4. *)
Theorem spawn_location_valid_iff (maze : grid) (x z : Z)
    (usedPositions : list Position) :
  cell maze x z = Some 0 ∨ cell maze x z = Some 1 →
  ∃ b, Enhanced.isValidSpawnLocation x z maze usedPositions = Done b ∧
       (b = true ↔
        open_cell maze (x, z) ∧
        (8 <= distance (mk_pos x z) (mk_pos 1 1))%R ∧
        ∀ p, p ∈ usedPositions → (4 <= distance (mk_pos x z) p)%R).
Proof.
  intros Hcell. unfold Enhanced.isValidSpawnLocation, open_cell. simpl.
  destruct Hcell as [Hc|Hc]; rewrite (read_cell _ _ _ _ Hc), Hc;
    cbn [mbind outcome_bind is_num].
  2:{ exists false. split; [done|]. split; [done | by intros [[=] _]]. }
  change (0 =? 1) with false. cbn match.
  destruct (distance_lt (mk_pos x z) (mk_pos 1 1) Enhanced.MIN_SPAWN_DISTANCE)
    eqn:E.
  - exists false. split; [done|]. split; [done|]. intros (_ & Hd & _).
    apply distance_lt_sqrt in E; [|done]. rewrite Q2R_8 in E. lra.
  - exists (Enhanced.farFromAll x z usedPositions). split; [done|].
    apply distance_ge_sqrt in E; [|done]. rewrite Q2R_8 in E.
    rewrite farFromAll_spec.
    split; [intros Hfar; by split_and! | by intros (_ & _ & Hfar)].
Qed.

Lemma spawn_location_valid_iff_witness :
  (cell sample_maze 9 1 = Some 0 ∨ cell sample_maze 9 1 = Some 1) ∧
  ∃ b, Enhanced.isValidSpawnLocation 9 1 sample_maze [mk_pos 19 19] = Done b ∧
       (b = true ↔
        open_cell sample_maze (9, 1) ∧
        (8 <= distance (mk_pos 9 1) (mk_pos 1 1))%R ∧
        ∀ p, p ∈ [mk_pos 19 19] → (4 <= distance (mk_pos 9 1) p)%R).
Proof.
  split; [left; reflexivity|].
  apply (spawn_location_valid_iff sample_maze 9 1 [mk_pos 19 19]).
  left; reflexivity.
Defined.

(** C5 as stated fails at the threshold: cell (9,1) lies at distance exactly
    8 from the spawn, which does not exceed 8, and it is accepted. *)
Lemma spawn_at_minimum_distance_accepted :
  Enhanced.isValidSpawnLocation 9 1 sample_maze [] = Done true ∧
  distance (mk_pos 9 1) (mk_pos 1 1) = 8%R.
Proof.
  split; [reflexivity|].
  unfold distance. change (distance2 (mk_pos 9 1) (mk_pos 1 1)) with 64.
  replace (IZR 64) with (8 * 8)%R by lra. apply sqrt_square. lra.
Qed.

(** ** Damage with one life left *)

(** The guard of [attackPlayer], on the values of its closure: when the
    closure read [lives = 1], the damage it deals sets [gameOver] and
    leaves zero lives, and it starts no respawn: the respawning flag, the
    pending timers and the timer ref stay as they were. The lives the
    session holds play no part in it. *)
Theorem last_life_is_game_over (v : Enhanced.React) (s : Enhanced.Session) :
  Enhanced.lives v = 1 →
  (Enhanced.isRespawning v = false →
   Enhanced.gameOver (Enhanced.react (Enhanced.attackPlayer v s)) = true ∧
   Enhanced.lives (Enhanced.react (Enhanced.attackPlayer v s)) = 0) ∧
  Enhanced.isRespawning (Enhanced.react (Enhanced.attackPlayer v s))
  = Enhanced.isRespawning (Enhanced.react s) ∧
  Enhanced.timeouts (Enhanced.attackPlayer v s) = Enhanced.timeouts s ∧
  Enhanced.respawnTimerRef (Enhanced.attackPlayer v s)
  = Enhanced.respawnTimerRef s.
Proof.
  intros Hl. unfold Enhanced.attackPlayer. rewrite Hl.
  destruct (Enhanced.isRespawning v); [by split|].
  change (1 - 1 <=? 0) with true. by cbn.
Qed.

Lemma last_life_is_game_over_witness :
  let v := Enhanced.mk_react false false 1 (mk_pos 1 1) false 0 in
  let s := Enhanced.setLives 1 (Enhanced.mounted (mk_pos 19 19)) in
  Enhanced.lives v = 1 ∧
  (Enhanced.isRespawning v = false →
   Enhanced.gameOver (Enhanced.react (Enhanced.attackPlayer v s)) = true ∧
   Enhanced.lives (Enhanced.react (Enhanced.attackPlayer v s)) = 0) ∧
  Enhanced.isRespawning (Enhanced.react (Enhanced.attackPlayer v s))
  = Enhanced.isRespawning (Enhanced.react s) ∧
  Enhanced.timeouts (Enhanced.attackPlayer v s) = Enhanced.timeouts s ∧
  Enhanced.respawnTimerRef (Enhanced.attackPlayer v s)
  = Enhanced.respawnTimerRef s.
Proof.
  split; [reflexivity|].
  apply (last_life_is_game_over
           (Enhanced.mk_react false false 1 (mk_pos 1 1) false 0)).
  reflexivity.
Defined.

(** ** The win test *)

(** The test of [checkWinCondition], on the values of its closure: it sets
    [gameWon] when the straight-line distance from the player's grid
    position to the exit is below 1.5 and the closure read
    [gameWon = false]; at a distance of 1.5 or more, or when the closure
    read [gameWon = true], it changes nothing. *)
Theorem win_threshold (v : Enhanced.React) (s : Enhanced.Session) :
  let d := distance (Enhanced.playerPositionRef s) (Enhanced.exitPositionRef s) in
  ((d < 3 / 2)%R ∧ Enhanced.gameWon v = false →
   Enhanced.gameWon (Enhanced.react (Enhanced.checkWinCondition v s)) = true) ∧
  ((3 / 2 <= d)%R ∨ Enhanced.gameWon v = true →
   Enhanced.checkWinCondition v s = s).
Proof.
  intros d. unfold Enhanced.checkWinCondition.
  destruct (distance_lt _ _ (3 # 2)) eqn:E.
  - apply distance_lt_sqrt in E; [|done]. rewrite Q2R_3_2 in E. fold d in E.
    split.
    + intros [_ ->]. done.
    + intros [Hd| ->]; [lra | done].
  - apply distance_ge_sqrt in E; [|done]. rewrite Q2R_3_2 in E. fold d in E.
    split; [|done]. intros [Hd _]. lra.
Qed.

(** ** The collision test of the enhanced component *)

Section CollisionFacts.

Variable maze : grid.

Lemma Qfloor_range (m : Q) (n : Z) :
  (0 <= m)%Q → (m < inject_Z n)%Q → 0 ≤ Qfloor m < n.
Proof.
  intros H0 Hn. split.
  - change 0 with (Qfloor 0). by apply Qfloor_resp_le.
  - rewrite Zlt_Qlt. eapply Qle_lt_trans; [apply Qfloor_le | done].
Qed.

(** Past the boundary test, the position's own cell is a cell of the
    grid. *)
Lemma inside_margin (m : Q) :
  Qltb m Enhanced.margin = false →
  Qle_bool (inject_Z MAZE_SIZE - Enhanced.margin) m = false →
  0 ≤ Qfloor m < MAZE_SIZE.
Proof.
  intros Hlo%Qltb_ge Hhi. apply Qfloor_range.
  - unfold Enhanced.margin in Hlo. Lqa.lra.
  - apply not_true_iff_false in Hhi. rewrite Qle_bool_iff in Hhi.
    apply Qnot_le_lt in Hhi. unfold Enhanced.margin, MAZE_SIZE in *.
    Lqa.lra.
Qed.

Lemma anyWall_open (ps : list (Q * Q)) :
  Forall (fun p => open_cell maze (Qfloor p.1, Qfloor p.2)) ps →
  Enhanced.anyWall maze ps = Done false.
Proof.
  induction 1 as [|[cx cz] ps Hp _ IH]; [done|].
  cbn [Enhanced.anyWall]. destruct (Enhanced.in_maze _ _); [|done].
  unfold open_cell in Hp. cbn [fst snd] in Hp.
  by rewrite (read_cell _ _ _ _ Hp).
Qed.

Lemma worldToMaze_mazeToWorld (c : Z) :
  (worldToMaze (mazeToWorld c) == inject_Z c)%Q.
Proof. unfold worldToMaze, mazeToWorld, MAZE_SIZE, WALL_SIZE. field. Qed.

Lemma checkCollision_wall (x z : Q) :
  cell maze (Qfloor (worldToMaze x)) (Qfloor (worldToMaze z)) = Some 1 →
  Enhanced.checkCollision maze x z = Done true.
Proof.
  intros Hwall. unfold Enhanced.checkCollision.
  destruct (Qltb (worldToMaze x) _) eqn:Ex0; [done|].
  destruct (Qle_bool _ (worldToMaze x)) eqn:Ex1; [done|].
  destruct (Qltb (worldToMaze z) _) eqn:Ez0; [done|].
  destruct (Qle_bool _ (worldToMaze z)) eqn:Ez1; [done|].
  cbn [orb Enhanced.checkPositions Enhanced.anyWall].
  pose proof (inside_margin _ Ex0 Ex1) as Hx.
  pose proof (inside_margin _ Ez0 Ez1) as Hz.
  replace (Enhanced.in_maze _ _) with true
    by (unfold Enhanced.in_maze; lia).
  by rewrite (read_cell _ _ _ _ Hwall).
Qed.

End CollisionFacts.

(** The enhanced collision test in terms of the cells it floors to: it
    rejects the world position of every wall cell and every position whose
    floored cell is a wall, and it accepts a position inside the boundary
    margin whose five sample points (the position and the four points one
    collision radius away along the axes) all floor to open cells. *)
Theorem collision_symmetry (maze : grid) (x z : Q) :
  let mazeX := worldToMaze x in
  let mazeZ := worldToMaze z in
  (∀ gx gz, cell maze gx gz = Some 1 →
            Enhanced.checkCollision maze (mazeToWorld gx) (mazeToWorld gz)
            = Done true) ∧
  (cell maze (Qfloor mazeX) (Qfloor mazeZ) = Some 1 →
   Enhanced.checkCollision maze x z = Done true) ∧
  ((Enhanced.margin <= mazeX)%Q ∧
   (mazeX < inject_Z MAZE_SIZE - Enhanced.margin)%Q ∧
   (Enhanced.margin <= mazeZ)%Q ∧
   (mazeZ < inject_Z MAZE_SIZE - Enhanced.margin)%Q →
   Forall (fun p => open_cell maze (Qfloor p.1, Qfloor p.2))
          (Enhanced.checkPositions mazeX mazeZ) →
   Enhanced.checkCollision maze x z = Done false).
Proof.
  intros mazeX mazeZ. split_and!.
  - intros gx gz Hwall. apply checkCollision_wall.
    by rewrite !worldToMaze_mazeToWorld, !Qfloor_Z.
  - apply checkCollision_wall.
  - intros (Hx0 & Hx1 & Hz0 & Hz1) Hopen. unfold Enhanced.checkCollision.
    fold mazeX mazeZ.
    apply Qltb_ge in Hx0 as ->. apply Qltb_ge in Hz0 as ->.
    apply Qlt_not_le in Hx1, Hz1.
    rewrite <- Qle_bool_iff in Hx1, Hz1.
    apply not_true_is_false in Hx1 as ->. apply not_true_is_false in Hz1 as ->.
    by apply anyWall_open.
Qed.

(** In the sample maze: the border wall cell (20,5) and a point well inside
    the open cell (19,5). *)
Lemma collision_symmetry_witness :
  Enhanced.checkCollision sample_maze (mazeToWorld 20) (mazeToWorld 5)
  = Done true ∧
  Enhanced.checkCollision sample_maze 18 (-10) = Done false.
Proof.
  destruct (collision_symmetry sample_maze 18 (-10)) as (Hcell & _ & Hopen).
  split.
  - apply Hcell. reflexivity.
  - apply Hopen.
    + repeat split; vm_compute; congruence.
    + repeat constructor.
Defined.

(** ** Movement *)

(** C2, as amended: in the enhanced component the two axes are resolved
    separately. When the key vector is not zero (a diagonal intent in
    particular), the X displacement alone collides and the Z displacement
    alone does not, the move keeps [x] and commits the new [z]; the grid
    position is recomputed from the result. *)
Theorem axis_slide (maze : grid) (normalize : Q * Q → Q * Q)
    (applyEuler : Q → Q * Q → Q * Q) (v : Enhanced.React) (keys : MoveState)
    (s : Enhanced.Session) (camera : Enhanced.Camera) :
  Enhanced.cameraRef s = Some camera →
  Enhanced.isRespawning v = false →
  Enhanced.nonzero (Enhanced.moveVector keys) = true →
  let n := normalize (Enhanced.moveVector keys) in
  let m := applyEuler (Enhanced.rot_y camera)
             (n.1 * Enhanced.MOVE_SPEED, n.2 * Enhanced.MOVE_SPEED)%Q in
  let x := Enhanced.cam_x camera in
  let z' := (Enhanced.cam_z camera + m.2)%Q in
  Enhanced.checkCollision maze (x + m.1) (Enhanced.cam_z camera) = Done true →
  Enhanced.checkCollision maze x z' = Done false →
  ∃ s', Enhanced.updateMovement maze normalize applyEuler v keys s = Done s' ∧
        Enhanced.cameraRef s'
        = Some (Enhanced.mk_camera x z' (Enhanced.rot_y camera)) ∧
        Enhanced.playerPositionRef s'
        = mk_pos (round (worldToMaze x)) (round (worldToMaze z')).
Proof.
  intros Hcam Hresp Hkeys n m x z' HX HZ.
  unfold Enhanced.updateMovement. rewrite Hcam, Hresp, Hkeys.
  fold n. fold m. fold x. rewrite HX. cbn [mbind outcome_bind].
  fold z'. rewrite HZ. cbn [mbind outcome_bind].
  eexists. split; [reflexivity|]. by split.
Qed.

Lemma axis_slide_witness :
  let camera := Enhanced.mk_camera (1848 # 100) (-10) 0 in
  let s := Enhanced.set_camera (Some camera)
             (Enhanced.mounted (mk_pos 19 19)) in
  let v := Enhanced.react s in
  let m := ((7071 # 10000) * Enhanced.MOVE_SPEED)%Q in
  Enhanced.checkCollision sample_maze ((1848 # 100) + 1 * m) (-10)
  = Done true ∧
  Enhanced.checkCollision sample_maze (1848 # 100) (-10 + 1 * m)
  = Done false ∧
  ∃ s', Enhanced.updateMovement sample_maze sample_normalize no_turn
          v diagonal_keys s = Done s' ∧
        Enhanced.cameraRef s'
        = Some (Enhanced.mk_camera (1848 # 100) (-10 + 1 * m) 0) ∧
        Enhanced.playerPositionRef s'
        = mk_pos (round (worldToMaze (1848 # 100)))
                 (round (worldToMaze (-10 + 1 * m))).
Proof.
  split; [reflexivity|]. split; [reflexivity|].
  apply (axis_slide sample_maze sample_normalize no_turn
           (Enhanced.react (Enhanced.mounted (mk_pos 19 19))) diagonal_keys
           (Enhanced.set_camera
              (Some (Enhanced.mk_camera (1848 # 100) (-10) 0))
              (Enhanced.mounted (mk_pos 19 19)))
           (Enhanced.mk_camera (1848 # 100) (-10) 0));
    reflexivity.
Defined.

(** The basic component tests the whole displacement once: a collision
    leaves the position as it was, whatever each axis would allow. *)
Lemma basic_all_or_nothing (maze : grid) (applyQuaternion : Q * Q → Q * Q)
    (keys : MoveState) (s s' : Basic.Session) :
  Basic.updateMovement maze applyQuaternion keys s = Done s' →
  s' = s ∨
  ∃ camera camera',
    Basic.cameraRef s = Some camera ∧ Basic.cameraRef s' = Some camera' ∧
    Basic.checkCollision maze (Basic.cam_x camera') (Basic.cam_z camera')
    = Done false.
Proof.
  unfold Basic.updateMovement. destruct (Basic.cameraRef s) as [camera|] eqn:E;
    [|intros [= <-]; by left].
  match goal with
  | |- context [Basic.checkCollision maze ?a ?b] =>
      destruct (Basic.checkCollision maze a b) as [[]| |] eqn:Hc
  end; cbn [mbind outcome_bind]; intros [= <-]; [by left|].
  right. eexists camera, _. by split_and!.
Qed.

(** C2 as stated fails in the basic component: in cell (19,5) of the sample
    maze, moving right and backward, the X step alone hits the east border
    and the Z step alone is free, yet nothing moves. *)
Lemma basic_movement_stops_dead :
  let s := Basic.mk_session (Some (Basic.mk_camera (1795 # 100) (-11)))
             (mk_pos 19 5) in
  let step := Basic.MOVE_SPEED in
  Basic.checkCollision sample_maze ((1795 # 100) + step) (-11) = Done true ∧
  Basic.checkCollision sample_maze (1795 # 100) (-11 + step) = Done false ∧
  Basic.updateMovement sample_maze (fun velocity => velocity)
    diagonal_keys s = Done s.
Proof. by vm_compute. Qed.

(** ** The respawn timer and the frame loop *)

Section SessionFacts.

Import Enhanced.

Variable maze : grid.
Variable normalize : Q * Q → Q * Q.
Variable applyEuler : Q → Q * Q → Q * Q.

Lemma same_schedule_inv s s' :
  same_schedule s s' → session_inv s → session_inv s'.
Proof.
  intros (Ht & Hr & Hf) [Hone Hframe]. split; [|congruence].
  unfold one_timer. by rewrite Ht, Hr.
Qed.

Lemma same_schedule_trans s1 s2 s3 :
  same_schedule s1 s2 → same_schedule s2 s3 → same_schedule s1 s3.
Proof.
  intros (Ht & Hr & Hf) (Ht' & Hr' & Hf'). unfold same_schedule.
  by rewrite Ht', Hr', Hf'.
Qed.

Lemma respawnPlayer_inv v s : session_inv s → session_inv (respawnPlayer v s).
Proof.
  intros [Hone Hframe]. unfold respawnPlayer.
  destruct (cameraRef s); [|done]. destruct (isRespawning v); [done|].
  split; [|by destruct (respawnTimerRef _)].
  right. cbn [respawnTimerRef setIsRespawning with_react].
  destruct Hone as [Hnone|(id & captured & Hsome & Href)].
  - destruct (respawnTimerRef s) as [t|];
      cbn; rewrite Hnone; by eexists _, _.
  - rewrite Href. cbn. rewrite Hsome. cbn.
    rewrite decide_False by (intros Hne; by apply Hne). cbn.
    by eexists _, _.
Qed.

Lemma attackPlayer_inv v s : session_inv s → session_inv (attackPlayer v s).
Proof.
  intros Hinv. unfold attackPlayer. destruct (isRespawning v); [done|].
  destruct (lives v - 1 <=? 0).
  - by eapply same_schedule_inv; [|done].
  - apply respawnPlayer_inv. by eapply same_schedule_inv; [|done].
Qed.

Lemma attacks_inv v n s :
  session_inv s → session_inv (Nat.iter n (attackPlayer v) s).
Proof.
  intros Hinv. induction n as [|n IH]; [done|].
  cbn [Nat.iter nat_rect]. by apply attackPlayer_inv.
Qed.

Lemma fireTimeout_inv id r1 r2 s :
  session_inv s → session_inv (fireTimeout id r1 r2 s).
Proof.
  intros [Hone Hframe]. unfold fireTimeout.
  destruct (list_find _ (timeouts s)) as [[i [id' captured]]|] eqn:Hfind;
    [|done].
  assert (Hclear : timeouts (clearTimeout id s) = []).
  { destruct Hone as [Hnone|(id0 & c0 & Hsome & _)]; cbn.
    - by rewrite Hnone.
    - rewrite Hsome in *. cbn in *.
      destruct (decide (id0 = id)) as [->|Hne]; [|done].
      by rewrite decide_False by (intros Hne; by apply Hne). }
  unfold respawnCallback. cbn [cameraRef clearTimeout set_timeouts].
  destruct (cameraRef s); (split; [by left | done]).
Qed.

Lemma checkCheckpoints_schedule reached s :
  same_schedule s (checkCheckpoints reached s).
Proof.
  unfold checkCheckpoints. revert s.
  induction reached as [|p reached IH]; intros s; [done|].
  eapply same_schedule_trans; [|apply IH]. done.
Qed.

Lemma checkWinCondition_schedule v s :
  same_schedule s (checkWinCondition v s).
Proof. unfold checkWinCondition. by destruct (_ && _). Qed.

Lemma resetGame_schedule s : same_schedule s (resetGame s).
Proof. unfold resetGame. cbn. by destruct (cameraRef s). Qed.

Lemma updateMovement_schedule v keys s s' :
  updateMovement maze normalize applyEuler v keys s = Done s' →
  same_schedule s s'.
Proof.
  unfold updateMovement. destruct (cameraRef s) as [camera|];
    [|by intros [= <-]].
  destruct (isRespawning v); [by intros [= <-]|].
  destruct (nonzero _); [|by intros [= <-]].
  destruct (checkCollision maze (cam_x camera + _) (cam_z camera))
    as [hitX| |]; cbn [mbind outcome_bind]; [|intros ?; discriminate..].
  destruct (checkCollision maze (cam_x camera) _) as [hitZ| |];
    cbn [mbind outcome_bind]; [|intros ?; discriminate..].
  by intros [= <-].
Qed.

Lemma animate_inv v isLocked keys attacks reached s s' :
  animate maze normalize applyEuler v isLocked keys attacks reached s
  = Done s' →
  one_timer s → session_inv s'.
Proof.
  unfold animate. intros Hrun Hone.
  assert (Hreq : session_inv (requestAnimationFrame s)) by by split.
  destruct (_ && _); [|by injection Hrun as <-].
  destruct (updateMovement _ _ _ _ _ _) as [s1| |] eqn:Hmove;
    cbn [mbind outcome_bind] in Hrun; [|done..].
  injection Hrun as <-.
  eapply same_schedule_inv; [apply checkWinCondition_schedule|].
  eapply same_schedule_inv; [apply checkCheckpoints_schedule|].
  apply attacks_inv.
  eapply same_schedule_inv; [by eapply updateMovement_schedule | done].
Qed.

Lemma handle_inv e s s' :
  handle maze normalize applyEuler e s = Done s' →
  session_inv s → session_inv s'.
Proof.
  destruct e as [v isLocked keys attacks reached|id r1 r2| |]; cbn [handle].
  - intros Hrun [Hone Hframe]. rewrite Hframe in Hrun.
    by eapply animate_inv.
  - intros [= <-]. apply fireTimeout_inv.
  - intros [= <-]. apply same_schedule_inv, resetGame_schedule.
  - intros [= <-]. by apply same_schedule_inv.
Qed.

Lemma run_inv es s s' :
  run maze normalize applyEuler es s = Done s' →
  session_inv s → session_inv s'.
Proof.
  revert s. induction es as [|e es IH]; intros s; cbn [run].
  { by intros [= <-]. }
  destruct (handle _ _ _ e s) as [s1| |] eqn:He;
    cbn [mbind outcome_bind]; [|done..].
  intros Hrun Hinv. eapply IH; [done|]. by eapply handle_inv.
Qed.

End SessionFacts.

(** C4, as amended: whatever frames, timer expiries, resets and teardowns a
    mounted session goes through, at most one respawn timer is pending at
    any moment; a teardown removes the listeners and disposes the renderer,
    and the frame loop stays scheduled through it. *)
Theorem one_respawn_timer (maze : grid) (normalize : Q * Q → Q * Q)
    (applyEuler : Q → Q * Q → Q * Q) (exit : Position)
    (es : list Enhanced.event) (s : Enhanced.Session) :
  Enhanced.run maze normalize applyEuler es (Enhanced.mounted exit) = Done s →
  (length (Enhanced.timeouts s) ≤ 1)%nat ∧
  Enhanced.frameRequested s = true ∧
  Enhanced.listening (Enhanced.cleanup s) = false ∧
  Enhanced.rendererDisposed (Enhanced.cleanup s) = true ∧
  Enhanced.frameRequested (Enhanced.cleanup s) = true.
Proof.
  intros Hrun.
  destruct (run_inv maze normalize applyEuler es _ _ Hrun) as [Hone Hframe].
  { split; [by left | done]. }
  split_and!; [|done..].
  destruct Hone as [->|(id & captured & -> & _)]; simpl; lia.
Qed.

Lemma one_respawn_timer_witness :
  Enhanced.run sample_maze sample_normalize no_turn sample_events
    (Enhanced.mounted (mk_pos 19 19)) = Done sample_final ∧
  (length (Enhanced.timeouts sample_final) ≤ 1)%nat ∧
  Enhanced.frameRequested sample_final = true ∧
  Enhanced.listening (Enhanced.cleanup sample_final) = false ∧
  Enhanced.rendererDisposed (Enhanced.cleanup sample_final) = true ∧
  Enhanced.frameRequested (Enhanced.cleanup sample_final) = true.
Proof.
  split; [vm_compute; reflexivity|].
  apply (one_respawn_timer sample_maze sample_normalize no_turn (mk_pos 19 19)
           sample_events sample_final).
  vm_compute; reflexivity.
Defined.

(** C4 as stated fails: after an attack and a teardown the respawn timer is
    still pending and a frame is still requested; when the timer then runs
    out, its callback moves the camera and clears the respawning flag of the
    torn-down session. *)
Lemma teardown_cancels_nothing :
  Enhanced.run sample_maze sample_normalize no_turn
    [Enhanced.Frame (Enhanced.mk_react false false 3 (mk_pos 1 1) false 0)
       true (mk_keys false false false false) 1 [];
     Enhanced.Unmount]
    (Enhanced.mounted (mk_pos 19 19)) = Done torn_down ∧
  Enhanced.rendererDisposed torn_down = true ∧
  Enhanced.timeouts torn_down = [(1%positive, mk_pos 1 1)] ∧
  Enhanced.frameRequested torn_down = true ∧
  Enhanced.isRespawning (Enhanced.react torn_down) = true ∧
  Enhanced.isRespawning
    (Enhanced.react (Enhanced.fireTimeout 1 (1 # 2) (1 # 2) torn_down))
  = false ∧
  Enhanced.cameraRef (Enhanced.fireTimeout 1 (1 # 2) (1 # 2) torn_down)
  ≠ Enhanced.cameraRef torn_down.
Proof.
  split; [vm_compute; reflexivity|].
  split_and!; [reflexivity.. |].
  vm_compute. discriminate.
Qed.

(** ** Every open cell of a generated maze is reachable *)

Lemma path_mono (g g' : grid) (a b : Z * Z) :
  (∀ p, open_cell g p → open_cell g' p) → path g a b → path g' a b.
Proof.
  intros Hsub. induction 1 as [p Hp|p q r Hp Hadj _ IH].
  - apply path_here. by apply Hsub.
  - eapply path_step; [by apply Hsub | done | done].
Qed.

(** Opening an attachable cell keeps the maze connected. *)
Lemma open_attachable (g g' : grid) (q : Z * Z) :
  connected g → attachable g q →
  cell g' q.1 q.2 = Some 0 →
  (∀ x y, (x, y) ≠ q → cell g' x y = cell g x y) →
  connected g'.
Proof.
  intros Hconn Hatt Hq Hother.
  assert (Hsub : ∀ p, open_cell g p → open_cell g' p).
  { intros [x y] Hp. destruct (decide ((x, y) = q)) as [<-|Hne]; [done|].
    unfold open_cell. simpl. by rewrite Hother. }
  intros [x y] Hp. destruct (decide ((x, y) = q)) as [Heq|Hne].
  - rewrite Heq. clear Hp Heq x y.
    destruct Hatt as [->|[Hopen|(r & Hadj & Hr)]].
    + by apply path_here.
    + eapply path_mono; [done | by apply Hconn].
    + eapply path_snoc; [|done|done].
      eapply path_mono; [done | by apply Hconn].
  - eapply path_mono; [done|]. apply Hconn.
    unfold open_cell in *. simpl in *. by rewrite <- Hother.
Qed.

(** The shuffle only swaps entries: what it returns is a rearrangement of
    its input, and it has made one draw for every step of its loop. *)
Lemma shuffle_permutation (random : nat → Q) (i : nat) (ds ds' : list (Z * Z))
    (k k' : nat) :
  MazeGenerator.shuffle random i ds k = Done (ds', k') →
  ds' ≡ₚ ds ∧ k' = (k + i)%nat.
Proof.
  revert ds k. induction i as [|i IH]; intros ds k; cbn [MazeGenerator.shuffle].
  { intros [= -> ->]. split; [done | lia]. }
  destruct (ds !! S i) as [di|] eqn:Hi; [|done].
  destruct (Qfloor _ <? 0); [done|].
  destruct (ds !! Z.to_nat _) as [dj|] eqn:Hj; [|done].
  intros [Hperm ->]%IH. split; [|lia].
  rewrite Hperm. by apply Permutation_insert_swap.
Qed.

Section Connectivity.

Import MazeGenerator.

Variables W H : Z.
Variable random : nat → Q.

(** What a call that opens cells leaves behind. *)
Definition keeps_connected (s s' : state) : Prop :=
  carved W H (maze s) (maze s') ∧ connected (maze s').

Lemma set_cell_connected (s : state) (x y : Z) :
  rect W H (maze s) → interior W H x y →
  connected (maze s) → attachable (maze s) (x, y) →
  ∃ s', set_cell s x y 0 = Done s' ∧ keeps_connected s s' ∧
        open_cell (maze s') (x, y).
Proof.
  intros Hg Hxy Hconn Hatt.
  destruct (set_cell_interior W H s x y Hg Hxy) as (s' & E & _ & C & O & F & _).
  exists s'. split_and!; [done | | done]. split; [done|].
  by eapply open_attachable.
Qed.

Lemma tryDirections_connected (carve : Z → Z → state → outcome state) :
  (∀ x y s s', carve x y s = Done s' →
               rect W H (maze s) → interior W H x y →
               connected (maze s) → attachable (maze s) (x, y) →
               keeps_connected s s') →
  ∀ x y ds s s',
    tryDirections W H carve x y ds s = Done s' →
    (∀ d, d ∈ ds → d ∈ directions) →
    rect W H (maze s) → interior W H x y →
    connected (maze s) → open_cell (maze s) (x, y) →
    keeps_connected s s'.
Proof.
  intros Hcarve x y ds.
  induction ds as [|[dx dy] ds IH]; intros s s' Hrun Hds Hg Hxy Hconn Hopen.
  { injection Hrun as <-. split; [by apply carved_refl | done]. }
  assert (Hds' : ∀ d, d ∈ ds → d ∈ directions).
  { intros d Hd. apply Hds. by right. }
  cbn [tryDirections] in Hrun.
  destruct (isValidCell W H (x + dx) (y + dy)) eqn:Hv; [|by apply IH].
  apply isValidCell_spec in Hv.
  rewrite (read_in W H) in Hrun by (done || destruct Hv; lia).
  cbn [mbind outcome_bind] in Hrun.
  destruct (is_num (cell (maze s) (x + dx) (y + dy)) 1); [|by apply IH].
  destruct (between_interior W H x y dx dy) as [Hb Hne];
    [apply Hds; by left | done | done |].
  destruct (set_cell_connected s (x + dx / 2) (y + dy / 2))
    as (s2 & E2 & [C2 N2] & O2); [done | done | done | |].
  { right. right. exists (x, y). split; [|done].
    assert (Hd : (dx, dy) ∈ directions) by (apply Hds; by left).
    unfold directions in Hd. unfold adjacent. simpl.
    decompose_list_elem_of; simplify_eq;
      change (-2 / 2) with (-1); change (2 / 2) with 1;
      change (0 / 2) with 0; lia. }
  rewrite E2 in Hrun. cbn [mbind outcome_bind] in Hrun.
  destruct (carve (x + dx) (y + dy) s2) as [s3| |] eqn:E3;
    cbn [mbind outcome_bind] in Hrun; [|done..].
  destruct (Hcarve _ _ _ _ E3) as [C3 N3]; [apply C2 | done | done | |].
  { right. right. exists (x + dx / 2, y + dy / 2). split; [|done].
    assert (Hd : (dx, dy) ∈ directions) by (apply Hds; by left).
    unfold directions in Hd. unfold adjacent. simpl.
    decompose_list_elem_of; simplify_eq;
      change (-2 / 2) with (-1); change (2 / 2) with 1;
      change (0 / 2) with 0; lia. }
  destruct (IH s3 s') as [C' N']; [done | done | apply C3 | done | done | |].
  { unfold open_cell. simpl.
    eapply carved_open; [done|]. by eapply carved_open. }
  split; [|done]. eapply carved_trans; [|done]. by eapply carved_trans.
Qed.

Lemma carvePath_connected (fuel : nat) (x y : Z) (s s' : state) :
  carvePath W H random fuel x y s = Done s' →
  rect W H (maze s) → interior W H x y →
  connected (maze s) → attachable (maze s) (x, y) →
  keeps_connected s s'.
Proof.
  revert x y s s'. induction fuel as [|f IH]; intros x y s s' Hrun; [done|].
  intros Hg Hxy Hconn Hatt. cbn [carvePath] in Hrun.
  destruct (set_cell_connected s x y) as (s1 & E1 & [C1 N1] & O1); [done..|].
  rewrite E1 in Hrun. cbn [mbind outcome_bind] in Hrun.
  destruct (shuffle random _ directions (calls s1)) as [[ds k]| |] eqn:Es;
    cbn [mbind outcome_bind] in Hrun; [|done..].
  assert (Hds : ∀ d, d ∈ ds → d ∈ directions).
  { apply shuffle_permutation in Es as [Hperm _]. intros d. by rewrite Hperm. }
  destruct (tryDirections_connected (carvePath W H random f) IH
              x y ds (mk_state (maze s1) k) s') as [C' N'];
    [done | done | apply C1 | done | done | done |].
  split; [by eapply carved_trans | done].
Qed.

Lemma exitLoop_connected (fuel : nat) (cx cy : Z) (s s' : state) :
  exitLoop random fuel (W - 2) (H - 2) cx cy s = Done s' →
  rect W H (maze s) → 1 ≤ cx ≤ W - 2 → 1 ≤ cy ≤ H - 2 →
  connected (maze s) → attachable (maze s) (cx, cy) →
  keeps_connected s s' ∧ attachable (maze s') (W - 2, H - 2).
Proof.
  revert cx cy s. induction fuel as [|f IH]; intros cx cy s Hrun; [done|].
  intros Hg Hcx Hcy Hconn Hatt. cbn [exitLoop] in Hrun.
  destruct ((cx <? W - 2) || (cy <? H - 2)) eqn:Hloop.
  2:{ injection Hrun as <-.
      assert (cx = W - 2 ∧ cy = H - 2) as [-> ->] by lia.
      split; [|done]. split; [by apply carved_refl | done]. }
  destruct (set_cell_connected s cx cy) as (s1 & E1 & [C1 N1] & O1);
    [done | unfold interior; lia | done | done |].
  rewrite E1 in Hrun. cbn [mbind outcome_bind] in Hrun.
  assert (Hnext : ∀ cx' cy' k,
    exitLoop random f (W - 2) (H - 2) cx' cy' (mk_state (maze s1) k) = Done s' →
    (cx', cy') = (cx, cy) ∨ adjacent (cx, cy) (cx', cy') →
    1 ≤ cx' ≤ W - 2 → 1 ≤ cy' ≤ H - 2 →
    keeps_connected s s' ∧ attachable (maze s') (W - 2, H - 2)).
  { intros cx' cy' k Hrun' Hstep Hcx' Hcy'.
    destruct (IH cx' cy' _ Hrun') as [[C' N'] A']; [apply C1 | done..| |].
    - destruct Hstep as [[= -> ->]|Hadj]; [by right; left|].
      right. right. by exists (cx, cy).
    - split; [|done]. split; [by eapply carved_trans | done]. }
  destruct (Z.ltb_spec cx (W - 2)).
  - destruct (negb (Qle_bool (random (calls s1)) (3 # 10))).
    + eapply Hnext; [done | right; unfold adjacent; simpl; lia | lia..].
    + destruct (Z.ltb_spec cy (H - 2)).
      * eapply Hnext; [done | right; unfold adjacent; simpl; lia | lia..].
      * eapply Hnext; [done | right; unfold adjacent; simpl; lia | lia..].
  - destruct (Z.ltb_spec cy (H - 2)); [|lia].
    destruct s1 as [g1 k1].
    eapply Hnext; [done | right; unfold adjacent; simpl; lia | lia..].
Qed.

Hypothesis W_ge_3 : 3 ≤ W.
Hypothesis H_ge_3 : 3 ≤ H.

Lemma generate_connected (fuel : nat) (g : grid) :
  generate_fuel W H random fuel = Done g → connected g.
Proof.
  unfold generate_fuel, ensureExitPath. rewrite walls_Done by done.
  cbn [mbind outcome_bind].
  destruct (carvePath W H random fuel 1 1 _) as [s1| |] eqn:E1;
    cbn [mbind outcome_bind]; [|done..].
  destruct (carvePath_connected _ _ _ _ _ E1) as [C1 N1].
  { by apply all_walls_rect. } { unfold interior. lia. }
  { intros [x y] Hp. unfold open_cell in Hp. simpl in Hp.
    destruct (decide (0 ≤ x < W ∧ 0 ≤ y < H)) as [[Hx Hy]|Hout].
    - by rewrite all_walls_cell in Hp.
    - exfalso. destruct (all_walls_rect W H W_ge_3 H_ge_3) as [Hlen Hrows].
      unfold cell in Hp.
      destruct (row_at (all_walls W H) y) as [row|] eqn:Hrow; [|done].
      simpl in Hp. pose proof (row_at_Some _ _ _ Hrow) as Hy.
      pose proof (Hrows _ _ Hrow) as Hw. unfold col_at in Hp.
      destruct (Z.ltb_spec x 0); [done|].
      apply lookup_lt_Some in Hp. lia. }
  { by left. }
  destruct (exitLoop random fuel _ _ 1 1 s1) as [s2| |] eqn:E2;
    cbn [mbind outcome_bind]; [|done..].
  destruct (exitLoop_connected _ _ _ _ _ E2) as [[C2 N2] A2];
    [apply C1 | lia | lia | done | by left |].
  destruct (set_cell_connected s2 (W - 2) (H - 2)) as (s3 & -> & [C3 N3] & _);
    [apply C2 | unfold interior; lia | done | done |].
  cbn [mbind outcome_bind]. by intros [= <-].
Qed.

End Connectivity.

(** For a width and a height of at least 3 and any draws, every open cell of
    the grid that [generate] returns can be reached from the spawn cell
    (1,1) by a walk over open cells, and so a flood fill from (1,1) covers
    all the open cells: no open cell is cut off. *)
Theorem all_open_cells_reachable (W H : Z) (random : nat → Q) :
  3 ≤ W → 3 ≤ H → unit_interval random →
  ∃ g, MazeGenerator.generate W H random = Done g ∧
       ∀ p, open_cell g p →
            path g (1, 1) p ∧ ∃ rounds, p ∈ flood g (1, 1) rounds.
Proof.
  intros HW HH Hr.
  destruct (generate_spec W H random HW HH Hr) as (g & E & _).
  exists g. split; [done|]. intros p Hp.
  assert (Hpath : path g (1, 1) p).
  { by apply (generate_connected W H random HW HH _ g E). }
  split; [done | by apply flood_path].
Qed.

Lemma all_open_cells_reachable_witness :
  3 ≤ 21 ∧ 3 ≤ 21 ∧ unit_interval half ∧
  ∃ g, MazeGenerator.generate 21 21 half = Done g ∧
       ∀ p, open_cell g p →
            path g (1, 1) p ∧ ∃ rounds, p ∈ flood g (1, 1) rounds.
Proof.
  split; [lia|]. split; [lia|].
  split; [intros k; split; [discriminate | reflexivity]|].
  apply (all_open_cells_reachable 21 21 half); [lia | lia |].
  intros k; split; [discriminate | reflexivity].
Defined.

(** ** The shuffle of [carvePath] *)

(** With draws in [0,1) the Fisher-Yates loop of [carvePath] never leaves the
    array: it returns the four directions in some order, none lost and none
    repeated, after exactly three draws. *)
Theorem shuffle_rearranges (random : nat → Q) (k : nat) :
  unit_interval random →
  ∃ ds, MazeGenerator.shuffle random 3 MazeGenerator.directions k
        = Done (ds, (k + 3)%nat) ∧
        ds ≡ₚ MazeGenerator.directions.
Proof.
  intros Hr.
  destruct (shuffle_in random Hr 3 MazeGenerator.directions k)
    as (ds & E & _); [simpl; lia|].
  exists ds. split; [done|].
  by apply shuffle_permutation in E as [Hperm _].
Qed.

Lemma shuffle_rearranges_witness :
  unit_interval half ∧
  ∃ ds, MazeGenerator.shuffle half 3 MazeGenerator.directions 5
        = Done (ds, (5 + 3)%nat) ∧
        ds ≡ₚ MazeGenerator.directions.
Proof.
  split; [intros k; split; [discriminate | reflexivity]|].
  apply (shuffle_rearranges half 5).
  intros k; split; [discriminate | reflexivity].
Defined.

(** A draw of 1 or more, which [Math.random()] never returns, would index
    past the end of the array. *)
Example shuffle_out_of_range :
  MazeGenerator.shuffle (fun _ => 1%Q) 3 MazeGenerator.directions 0
  = Throws TypeError.
Proof. reflexivity. Qed.

(** ** What the collision test accepts *)

Lemma anyWall_spec (maze : grid) (ps : list (Q * Q)) :
  rect MAZE_SIZE MAZE_SIZE maze →
  ∃ b, Enhanced.anyWall maze ps = Done b ∧
       (b = false ↔
        Forall (fun p => Enhanced.in_maze (Qfloor p.1) (Qfloor p.2) = true →
                         cell maze (Qfloor p.1) (Qfloor p.2) ≠ Some 1) ps).
Proof.
  intros Hrect. induction ps as [|[cx cz] ps (b & IH & Hb)].
  { exists false. split; [done|]. split; [by constructor | done]. }
  cbn [Enhanced.anyWall].
  destruct (Enhanced.in_maze (Qfloor cx) (Qfloor cz)) eqn:Hin.
  - rewrite (read_in MAZE_SIZE MAZE_SIZE) by (done || unfold Enhanced.in_maze in Hin; lia).
    cbn [mbind outcome_bind].
    destruct (cell maze (Qfloor cx) (Qfloor cz)) as [v|] eqn:Hc; cbn [is_num].
    + destruct (Z.eqb_spec v 1) as [->|Hv].
      * exists true. split; [done|]. split; [done|].
        intros Hall. apply Forall_cons in Hall as [Hhd _].
        cbn [fst snd] in Hhd. by destruct (Hhd Hin).
      * exists b. split; [done|]. rewrite Hb, Forall_cons. cbn [fst snd].
        rewrite Hc. split; [|by intros [_ ?]].
        intros Hall. split; [|done]. intros _ [= ?]. done.
    + exists b. split; [done|]. rewrite Hb, Forall_cons. cbn [fst snd].
      rewrite Hc. split; [|by intros [_ ?]]. by intros Hall.
  - exists b. split; [done|]. rewrite Hb, Forall_cons. cbn [fst snd].
    rewrite Hin. split; [|by intros [_ ?]]. by intros Hall.
Qed.

(** On a 21 by 21 grid the enhanced collision test always answers, and it
    accepts a position exactly when the position lies inside the boundary
    margin and none of its five sample points falls in a wall cell of the
    grid. *)
Theorem collision_accepts_iff (maze : grid) (x z : Q) :
  rect MAZE_SIZE MAZE_SIZE maze →
  let mazeX := worldToMaze x in
  let mazeZ := worldToMaze z in
  ∃ b, Enhanced.checkCollision maze x z = Done b ∧
       (b = false ↔
        ((Enhanced.margin <= mazeX)%Q ∧
         (mazeX < inject_Z MAZE_SIZE - Enhanced.margin)%Q ∧
         (Enhanced.margin <= mazeZ)%Q ∧
         (mazeZ < inject_Z MAZE_SIZE - Enhanced.margin)%Q) ∧
        Forall (fun p => Enhanced.in_maze (Qfloor p.1) (Qfloor p.2) = true →
                         cell maze (Qfloor p.1) (Qfloor p.2) ≠ Some 1)
               (Enhanced.checkPositions mazeX mazeZ)).
Proof.
  intros Hrect mazeX mazeZ. unfold Enhanced.checkCollision. fold mazeX mazeZ.
  destruct (Qltb mazeX Enhanced.margin) eqn:Ex0.
  { exists true. split; [done|]. split; [done|].
    apply Qltb_lt in Ex0. intros [(H0 & _) _]. by apply Qlt_not_le in Ex0. }
  destruct (Qle_bool (inject_Z MAZE_SIZE - Enhanced.margin) mazeX) eqn:Ex1.
  { exists true. split; [done|]. split; [done|].
    apply Qle_bool_iff in Ex1. intros [(_ & H1 & _) _].
    by apply Qlt_not_le in H1. }
  destruct (Qltb mazeZ Enhanced.margin) eqn:Ez0.
  { exists true. split; [done|]. split; [done|].
    apply Qltb_lt in Ez0. intros [(_ & _ & H0 & _) _].
    by apply Qlt_not_le in Ez0. }
  destruct (Qle_bool (inject_Z MAZE_SIZE - Enhanced.margin) mazeZ) eqn:Ez1.
  { exists true. split; [done|]. split; [done|].
    apply Qle_bool_iff in Ez1. intros [(_ & _ & _ & H1) _].
    by apply Qlt_not_le in H1. }
  cbn [orb].
  destruct (anyWall_spec maze (Enhanced.checkPositions mazeX mazeZ) Hrect)
    as (b & -> & Hb).
  exists b. split; [done|]. rewrite Hb.
  apply Qltb_ge in Ex0, Ez0.
  apply not_true_iff_false in Ex1, Ez1. rewrite Qle_bool_iff in Ex1, Ez1.
  apply Qnot_le_lt in Ex1, Ez1.
  split; [by intros Hall | by intros [_ Hall]].
Qed.

Lemma sample_maze_rect : rect MAZE_SIZE MAZE_SIZE sample_maze.
Proof.
  destruct (generate_spec MAZE_SIZE MAZE_SIZE half) as (g & E & _ & C & _);
    [done | done | apply half_unit_interval |].
  rewrite sample_maze_generated in E. injection E as <-. apply C.
Qed.

Lemma collision_accepts_iff_witness :
  rect MAZE_SIZE MAZE_SIZE sample_maze ∧
  ∃ b, Enhanced.checkCollision sample_maze 18 (-10) = Done b ∧
       (b = false ↔
        ((Enhanced.margin <= worldToMaze 18)%Q ∧
         (worldToMaze 18 < inject_Z MAZE_SIZE - Enhanced.margin)%Q ∧
         (Enhanced.margin <= worldToMaze (-10))%Q ∧
         (worldToMaze (-10) < inject_Z MAZE_SIZE - Enhanced.margin)%Q) ∧
        Forall (fun p => Enhanced.in_maze (Qfloor p.1) (Qfloor p.2) = true →
                         cell sample_maze (Qfloor p.1) (Qfloor p.2) ≠ Some 1)
               (Enhanced.checkPositions (worldToMaze 18) (worldToMaze (-10)))).
Proof.
  split; [apply sample_maze_rect|].
  apply (collision_accepts_iff sample_maze 18 (-10)), sample_maze_rect.
Defined.

(** ** Damage, respawn and the cell the player comes back to *)

Lemma Qfloor_unique (x : Q) (n : Z) :
  (inject_Z n <= x)%Q → (x < inject_Z n + 1)%Q → Qfloor x = n.
Proof.
  intros Hlo Hhi.
  pose proof (Qfloor_le x) as H1. pose proof (Qlt_floor x) as H2.
  rewrite inject_Z_plus in H2.
  assert (Qfloor x < n + 1).
  { rewrite Zlt_Qlt, inject_Z_plus. eapply Qle_lt_trans; done. }
  assert (n < Qfloor x + 1).
  { rewrite Zlt_Qlt, inject_Z_plus. eapply Qle_lt_trans; done. }
  lia.
Qed.

Lemma respawn_coordinate (c : Z) (r : Q) :
  (worldToMaze (mazeToWorld c + (r - (1 # 2)) * (1 # 2))
   == inject_Z c + (r - (1 # 2)) * (1 # 4))%Q.
Proof. unfold worldToMaze, mazeToWorld, MAZE_SIZE, WALL_SIZE. field. Qed.

Lemma respawn_round (c : Z) (r : Q) :
  (0 <= r)%Q → (r < 1)%Q →
  round (worldToMaze (mazeToWorld c + (r - (1 # 2)) * (1 # 2))) = c.
Proof.
  intros H0 H1. unfold round. pose proof (respawn_coordinate c r) as E.
  apply Qfloor_unique; Lqa.lra.
Qed.

(** X4: an attack read with two lives or more and no respawn under way
    takes one life and arms exactly one respawn timer, which holds the
    checkpoint the closure read; game over is not touched and the camera
    and the grid position stay where they are until the timer fires. *)
Theorem attack_arms_one_respawn (v : Enhanced.React) (s : Enhanced.Session) :
  Enhanced.isRespawning v = false →
  1 < Enhanced.lives v →
  is_Some (Enhanced.cameraRef s) →
  one_timer s →
  let s' := Enhanced.attackPlayer v s in
  Enhanced.lives (Enhanced.react s') = Enhanced.lives v - 1 ∧
  Enhanced.gameOver (Enhanced.react s') = Enhanced.gameOver (Enhanced.react s) ∧
  Enhanced.isRespawning (Enhanced.react s') = true ∧
  Enhanced.timeouts s' =
    [(Enhanced.nextTimeout s, Enhanced.currentCheckpoint v)] ∧
  Enhanced.respawnTimerRef s' = Some (Enhanced.nextTimeout s) ∧
  Enhanced.cameraRef s' = Enhanced.cameraRef s ∧
  Enhanced.playerPositionRef s' = Enhanced.playerPositionRef s.
Proof.
  intros Hresp Hlives [camera Hcam] Htimer s'. subst s'.
  unfold Enhanced.attackPlayer. rewrite Hresp.
  destruct (Z.leb_spec (Enhanced.lives v - 1) 0) as [?|_]; [lia|].
  unfold Enhanced.respawnPlayer.
  destruct s as [r cam pp ep tref ts next fr li rd].
  unfold one_timer in Htimer. cbn in *. rewrite Hcam, Hresp.
  destruct Htimer as [->|(id & captured & -> & ->)]; cbn.
  - by destruct tref.
  - rewrite decide_False by (by intros ?). cbn. done.
Qed.

Lemma attack_arms_one_respawn_witness :
  let v := Enhanced.mk_react false false 3 (mk_pos 1 1) false 0 in
  let s := Enhanced.mounted (mk_pos 19 19) in
  let s' := Enhanced.attackPlayer v s in
  Enhanced.lives (Enhanced.react s') = Enhanced.lives v - 1 ∧
  Enhanced.gameOver (Enhanced.react s') = Enhanced.gameOver (Enhanced.react s) ∧
  Enhanced.isRespawning (Enhanced.react s') = true ∧
  Enhanced.timeouts s' =
    [(Enhanced.nextTimeout s, Enhanced.currentCheckpoint v)] ∧
  Enhanced.respawnTimerRef s' = Some (Enhanced.nextTimeout s) ∧
  Enhanced.cameraRef s' = Enhanced.cameraRef s ∧
  Enhanced.playerPositionRef s' = Enhanced.playerPositionRef s.
Proof.
  apply (attack_arms_one_respawn
           (Enhanced.mk_react false false 3 (mk_pos 1 1) false 0)
           (Enhanced.mounted (mk_pos 19 19))).
  - reflexivity.
  - reflexivity.
  - by eexists.
  - by left.
Defined.

(** X5: when the one pending respawn timer fires, with both random draws
    in [0,1), no timer is left, the respawning flag is cleared, lives are
    untouched, the grid position is the checkpoint the timer captured and
    the camera is put where [Math.round] of its grid coordinates gives that
    checkpoint again; the view direction is kept. *)
Theorem respawn_lands_on_checkpoint (id : positive) (captured : Position)
  (r1 r2 : Q) (s : Enhanced.Session) (camera : Enhanced.Camera) :
  Enhanced.timeouts s = [(id, captured)] →
  Enhanced.cameraRef s = Some camera →
  (0 <= r1)%Q → (r1 < 1)%Q → (0 <= r2)%Q → (r2 < 1)%Q →
  let s' := Enhanced.fireTimeout id r1 r2 s in
  Enhanced.timeouts s' = [] ∧
  Enhanced.respawnTimerRef s' = None ∧
  Enhanced.isRespawning (Enhanced.react s') = false ∧
  Enhanced.lives (Enhanced.react s') = Enhanced.lives (Enhanced.react s) ∧
  Enhanced.playerPositionRef s' = captured ∧
  ∃ c', Enhanced.cameraRef s' = Some c' ∧
        round (worldToMaze (Enhanced.cam_x c')) = pos_x captured ∧
        round (worldToMaze (Enhanced.cam_z c')) = pos_z captured ∧
        Enhanced.rot_y c' = Enhanced.rot_y camera.
Proof.
  intros Hts Hcam ? ? ? ? s'. subst s'.
  destruct s as [r cam pp ep tref ts next fr li rd]. cbn in *. subst.
  unfold Enhanced.fireTimeout. cbn.
  rewrite decide_True by done. cbn.
  unfold Enhanced.respawnCallback. cbn.
  rewrite decide_False by (by intros ?). cbn.
  split_and!; try done.
  eexists. split; [done|]. cbn.
  split_and!; [by apply respawn_round | by apply respawn_round | done].
Qed.

Lemma respawn_lands_on_checkpoint_witness :
  let s := Enhanced.attackPlayer
             (Enhanced.mk_react false false 3 (mk_pos 1 1) false 0)
             (Enhanced.mounted (mk_pos 19 19)) in
  let s' := Enhanced.fireTimeout 1 (1 # 4) (3 # 4) s in
  Enhanced.timeouts s' = [] ∧
  Enhanced.respawnTimerRef s' = None ∧
  Enhanced.isRespawning (Enhanced.react s') = false ∧
  Enhanced.lives (Enhanced.react s') = Enhanced.lives (Enhanced.react s) ∧
  Enhanced.playerPositionRef s' = mk_pos 1 1 ∧
  ∃ c', Enhanced.cameraRef s' = Some c' ∧
        round (worldToMaze (Enhanced.cam_x c')) = 1 ∧
        round (worldToMaze (Enhanced.cam_z c')) = 1 ∧
        Enhanced.rot_y c' = 0%Q.
Proof.
  apply (respawn_lands_on_checkpoint 1 (mk_pos 1 1) (1 # 4) (3 # 4)
           (Enhanced.attackPlayer
              (Enhanced.mk_react false false 3 (mk_pos 1 1) false 0)
              (Enhanced.mounted (mk_pos 19 19)))
           (Enhanced.mk_camera (inject_Z WALL_SIZE) (inject_Z WALL_SIZE) 0));
    done.
Defined.

(** ** Positions the collision test never lets go *)

Section Trapped.

Import Enhanced.

Variable maze : grid.
Variable normalize : Q * Q → Q * Q.
Variable applyEuler : Q → Q * Q → Q * Q.
Hypothesis maze_rect : rect MAZE_SIZE MAZE_SIZE maze.
Hypothesis row0 : ∀ i, 0 ≤ i < MAZE_SIZE → cell maze i 0 = Some 1.
Hypothesis column0 : ∀ i, 0 ≤ i < MAZE_SIZE → cell maze 0 i = Some 1.

Lemma in_maze_spec x z :
  in_maze x z = true ↔ 0 ≤ x < MAZE_SIZE ∧ 0 ≤ z < MAZE_SIZE.
Proof. unfold in_maze. lia. Qed.

Lemma collision_by_row0 (x z : Q) :
  (worldToMaze z < 5 # 4)%Q → checkCollision maze x z = Done true.
Proof.
  intros Hz. unfold checkCollision.
  destruct (Qltb (worldToMaze x) _) eqn:Ex0; [done|].
  destruct (Qle_bool _ (worldToMaze x)) eqn:Ex1; [done|].
  destruct (Qltb (worldToMaze z) _) eqn:Ez0; [done|].
  destruct (Qle_bool _ (worldToMaze z)) eqn:Ez1; [done|].
  cbn [orb].
  pose proof (inside_margin _ Ex0 Ex1) as Hx.
  apply Qltb_ge in Ez0. unfold margin in Ez0.
  destruct (anyWall_spec maze (checkPositions (worldToMaze x) (worldToMaze z))
              maze_rect) as ([] & -> & Hb); [done|].
  exfalso. destruct Hb as [Hb _]. specialize (Hb eq_refl).
  unfold checkPositions in Hb.
  apply Forall_cons in Hb as [H1 Hb].
  do 3 apply Forall_cons in Hb as [_ Hb].
  apply Forall_cons in Hb as [H5 _]. cbn [fst snd] in H1, H5.
  destruct (Qlt_le_dec (worldToMaze z) 1) as [Hlt|Hge].
  - assert (E : Qfloor (worldToMaze z) = 0)
      by (apply Qfloor_unique; change (inject_Z 0) with 0%Q; Lqa.lra).
    rewrite E in H1. apply H1; [apply in_maze_spec; unfold MAZE_SIZE in *; lia|].
    by apply row0.
  - assert (E : Qfloor (worldToMaze z - COLLISION_RADIUS) = 0)
      by (apply Qfloor_unique; unfold COLLISION_RADIUS; change (inject_Z 0) with 0%Q; Lqa.lra).
    rewrite E in H5. apply H5; [apply in_maze_spec; unfold MAZE_SIZE in *; lia|].
    by apply row0.
Qed.

Lemma collision_by_column0 (x z : Q) :
  (worldToMaze x < 5 # 4)%Q → checkCollision maze x z = Done true.
Proof.
  intros Hx. unfold checkCollision.
  destruct (Qltb (worldToMaze x) _) eqn:Ex0; [done|].
  destruct (Qle_bool _ (worldToMaze x)) eqn:Ex1; [done|].
  destruct (Qltb (worldToMaze z) _) eqn:Ez0; [done|].
  destruct (Qle_bool _ (worldToMaze z)) eqn:Ez1; [done|].
  cbn [orb].
  pose proof (inside_margin _ Ez0 Ez1) as Hz.
  apply Qltb_ge in Ex0. unfold margin in Ex0.
  destruct (anyWall_spec maze (checkPositions (worldToMaze x) (worldToMaze z))
              maze_rect) as ([] & -> & Hb); [done|].
  exfalso. destruct Hb as [Hb _]. specialize (Hb eq_refl).
  unfold checkPositions in Hb.
  apply Forall_cons in Hb as [H1 Hb].
  apply Forall_cons in Hb as [_ Hb].
  apply Forall_cons in Hb as [H3 _]. cbn [fst snd] in H1, H3.
  destruct (Qlt_le_dec (worldToMaze x) 1) as [Hlt|Hge].
  - assert (E : Qfloor (worldToMaze x) = 0)
      by (apply Qfloor_unique; change (inject_Z 0) with 0%Q; Lqa.lra).
    rewrite E in H1. apply H1; [apply in_maze_spec; unfold MAZE_SIZE in *; lia|].
    by apply column0.
  - assert (E : Qfloor (worldToMaze x - COLLISION_RADIUS) = 0)
      by (apply Qfloor_unique; unfold COLLISION_RADIUS; change (inject_Z 0) with 0%Q; Lqa.lra).
    rewrite E in H3. apply H3; [apply in_maze_spec; unfold MAZE_SIZE in *; lia|].
    by apply column0.
Qed.

Lemma updateMovement_near_corner v keys s c :
  cameraRef s = Some c → near_corner c →
  ∃ s', updateMovement maze normalize applyEuler v keys s = Done s' ∧
        cameraRef s' = Some c.
Proof.
  intros Hcam [Hx Hz]. unfold updateMovement. rewrite Hcam.
  destruct (isRespawning v); [by exists s|].
  destruct (nonzero _); [|by exists s].
  cbv zeta.
  rewrite (collision_by_row0 _ _ Hz). cbn [mbind outcome_bind].
  rewrite (collision_by_column0 _ _ Hx). cbn [mbind outcome_bind].
  eexists. split; [reflexivity|]. by destruct c.
Qed.

Lemma attackPlayer_camera v s : cameraRef (attackPlayer v s) = cameraRef s.
Proof.
  unfold attackPlayer. destruct (isRespawning v) eqn:Hresp; [done|].
  cbv zeta. destruct (lives v - 1 <=? 0); [reflexivity|].
  unfold respawnPlayer. rewrite Hresp.
  destruct s as [r [cam|] pp ep [t|] ts next fr li rd]; reflexivity.
Qed.

Lemma attacks_camera v n s :
  cameraRef (Nat.iter n (attackPlayer v) s) = cameraRef s.
Proof.
  induction n as [|n IH]; [done|]. cbn [Nat.iter nat_rect].
  by rewrite attackPlayer_camera.
Qed.

Lemma checkCheckpoints_camera reached s :
  cameraRef (checkCheckpoints reached s) = cameraRef s.
Proof.
  unfold checkCheckpoints. revert s.
  induction reached as [|p reached IH]; intros s; [done|].
  cbn [foldl]. by rewrite IH.
Qed.

Lemma checkWinCondition_camera v s :
  cameraRef (checkWinCondition v s) = cameraRef s.
Proof. unfold checkWinCondition. by destruct (_ && _). Qed.

Lemma frames_near_corner es s c :
  Forall is_frame es → cameraRef s = Some c → near_corner c →
  ∃ s', run maze normalize applyEuler es s = Done s' ∧ cameraRef s' = Some c.
Proof.
  intros Hes. revert s. induction Hes as [|e es He _ IH]; intros s Hcam Hc.
  { by exists s. }
  destruct e as [v isLocked keys attacks reached| | |]; try done.
  cbn [run handle].
  assert (∃ s1, (if frameRequested s
                 then animate maze normalize applyEuler v isLocked keys
                        attacks reached s
                 else Done s) = Done s1 ∧ cameraRef s1 = Some c)
    as (s1 & -> & Hcam1).
  { destruct (frameRequested s); [|by exists s].
    unfold animate. destruct (_ && _); [|by eexists].
    destruct (updateMovement_near_corner v keys (requestAnimationFrame s) c)
      as (s1 & -> & Hcam1); [done..|].
    cbn [mbind outcome_bind]. eexists. split; [done|].
    by rewrite checkWinCondition_camera, checkCheckpoints_camera,
      attacks_camera. }
  cbn [mbind outcome_bind]. by apply IH.
Qed.

End Trapped.

(** X6: in every generated level, a player respawned at the first
    checkpoint (1,1) cannot move any more: the callback puts the camera at
    grid coordinates below 1.25, where every candidate position of either
    axis has a sample point in row 0 or column 0 of the grid, which are
    walls; whatever the keys, the view direction and the number of frames,
    the camera stays where the respawn put it. *)
Theorem respawn_at_start_traps_player (random : nat → Q) (maze : grid)
  (normalize : Q * Q → Q * Q) (applyEuler : Q → Q * Q → Q * Q)
  (id : positive) (r1 r2 : Q) (s : Enhanced.Session)
  (camera : Enhanced.Camera) (es : list Enhanced.event) :
  unit_interval random →
  MazeGenerator.generate MAZE_SIZE MAZE_SIZE random = Done maze →
  Enhanced.timeouts s = [(id, mk_pos 1 1)] →
  Enhanced.cameraRef s = Some camera →
  (0 <= r1)%Q → (r1 < 1)%Q → (0 <= r2)%Q → (r2 < 1)%Q →
  Forall is_frame es →
  let s1 := Enhanced.fireTimeout id r1 r2 s in
  ∃ s2, Enhanced.run maze normalize applyEuler es s1 = Done s2 ∧
        Enhanced.cameraRef s2 = Enhanced.cameraRef s1 ∧
        Enhanced.cameraRef s1 =
          Some (Enhanced.mk_camera
                  (mazeToWorld 1 + (r1 - (1 # 2)) * (1 # 2))
                  (mazeToWorld 1 + (r2 - (1 # 2)) * (1 # 2))
                  (Enhanced.rot_y camera)).
Proof.
  intros Hr Hgen Hts Hcam ? ? ? ? Hes s1.
  destruct (generate_spec MAZE_SIZE MAZE_SIZE random) as (g & E & _ & C & _);
    [done..|].
  rewrite Hgen in E. injection E as <-.
  assert (Hcam1 : Enhanced.cameraRef s1 =
          Some (Enhanced.mk_camera
                  (mazeToWorld 1 + (r1 - (1 # 2)) * (1 # 2))
                  (mazeToWorld 1 + (r2 - (1 # 2)) * (1 # 2))
                  (Enhanced.rot_y camera))).
  { subst s1. destruct s as [r cam pp ep tref ts next fr li rd].
    cbn in *. subst. unfold Enhanced.fireTimeout. cbn.
    rewrite decide_True by done. cbn. done. }
  destruct (frames_near_corner maze normalize applyEuler (carved_rect _ _ _ _ C))
    with (es := es) (s := s1) (c := Enhanced.mk_camera
                  (mazeToWorld 1 + (r1 - (1 # 2)) * (1 # 2))
                  (mazeToWorld 1 + (r2 - (1 # 2)) * (1 # 2))
                  (Enhanced.rot_y camera)) as (s2 & Hrun & Hcam2); try done.
  - intros i Hi. apply (carved_border_wall MAZE_SIZE MAZE_SIZE); try done. lia.
  - intros i Hi. apply (carved_border_wall MAZE_SIZE MAZE_SIZE); try done. lia.
  - split; cbn [Enhanced.cam_x Enhanced.cam_z].
    + pose proof (respawn_coordinate 1 r1) as E.
      change (inject_Z 1) with 1%Q in E. Lqa.lra.
    + pose proof (respawn_coordinate 1 r2) as E.
      change (inject_Z 1) with 1%Q in E. Lqa.lra.
  - exists s2. by rewrite Hcam1.
Qed.

Lemma respawn_at_start_traps_player_witness :
  let v := Enhanced.mk_react false false 3 (mk_pos 1 1) false 0 in
  let s := Enhanced.attackPlayer v (Enhanced.mounted (mk_pos 19 19)) in
  let es := [Enhanced.Frame v true diagonal_keys 0 [];
             Enhanced.Frame v true (mk_keys true false false false) 0 []] in
  let s1 := Enhanced.fireTimeout 1 (1 # 4) (3 # 4) s in
  ∃ s2, Enhanced.run sample_maze sample_normalize no_turn es s1 = Done s2 ∧
        Enhanced.cameraRef s2 = Enhanced.cameraRef s1 ∧
        Enhanced.cameraRef s1 =
          Some (Enhanced.mk_camera
                  (mazeToWorld 1 + ((1 # 4) - (1 # 2)) * (1 # 2))
                  (mazeToWorld 1 + ((3 # 4) - (1 # 2)) * (1 # 2))
                  0).
Proof.
  apply (respawn_at_start_traps_player half sample_maze sample_normalize
           no_turn 1 (1 # 4) (3 # 4)
           (Enhanced.attackPlayer
              (Enhanced.mk_react false false 3 (mk_pos 1 1) false 0)
              (Enhanced.mounted (mk_pos 19 19)))
           (Enhanced.mk_camera (inject_Z WALL_SIZE) (inject_Z WALL_SIZE) 0)).
  - apply half_unit_interval.
  - apply sample_maze_generated.
  - reflexivity.
  - reflexivity.
  - done.
  - done.
  - done.
  - done.
  - by repeat constructor.
Defined.

(** ** A reset while a respawn is pending *)

Lemma fireTimeout_single (id : positive) (captured : Position) (r1 r2 : Q)
  (s : Enhanced.Session) (camera : Enhanced.Camera) :
  Enhanced.timeouts s = [(id, captured)] →
  Enhanced.cameraRef s = Some camera →
  Enhanced.fireTimeout id r1 r2 s
  = Enhanced.mk_session
      (Enhanced.mk_react
         (Enhanced.gameWon (Enhanced.react s))
         (Enhanced.gameOver (Enhanced.react s))
         (Enhanced.lives (Enhanced.react s))
         (Enhanced.currentCheckpoint (Enhanced.react s))
         false
         (Enhanced.score (Enhanced.react s)))
      (Some (Enhanced.mk_camera
               (mazeToWorld (pos_x captured) + (r1 - (1 # 2)) * (1 # 2))
               (mazeToWorld (pos_z captured) + (r2 - (1 # 2)) * (1 # 2))
               (Enhanced.rot_y camera)))
      captured (Enhanced.exitPositionRef s) None [] (Enhanced.nextTimeout s)
      (Enhanced.frameRequested s) (Enhanced.listening s)
      (Enhanced.rendererDisposed s).
Proof.
  intros Hts Hcam.
  destruct s as [r cam pp ep tref ts next fr li rd]. cbn in *. subst.
  unfold Enhanced.fireTimeout. cbn.
  destruct (decide (id = id)) as [_|?]; [|done].
  unfold Enhanced.clearTimeout. cbn.
  destruct (decide (id ≠ id)) as [?|_]; [done|]. reflexivity.
Qed.

(** X7: resetting the game while a respawn timer is pending does not
    cancel the timer.  The reset restores the start values and puts the
    player back at (1,1); when the timer fires afterwards it moves the
    camera and the grid position to the checkpoint it captured before the
    reset, while the state keeps the reset values, with (1,1) as the
    current checkpoint. *)
Theorem reset_does_not_cancel_respawn (id : positive) (captured : Position)
  (r1 r2 : Q) (s : Enhanced.Session) (camera : Enhanced.Camera) :
  Enhanced.timeouts s = [(id, captured)] →
  Enhanced.cameraRef s = Some camera →
  (0 <= r1)%Q → (r1 < 1)%Q → (0 <= r2)%Q → (r2 < 1)%Q →
  let s1 := Enhanced.resetGame s in
  let s2 := Enhanced.fireTimeout id r1 r2 s1 in
  Enhanced.react s1 = Enhanced.mk_react false false 3 (mk_pos 1 1) false 0 ∧
  Enhanced.playerPositionRef s1 = mk_pos 1 1 ∧
  Enhanced.cameraRef s1
  = Some (Enhanced.mk_camera (inject_Z WALL_SIZE) (inject_Z WALL_SIZE)
            (Enhanced.rot_y camera)) ∧
  Enhanced.timeouts s1 = [(id, captured)] ∧
  Enhanced.react s2 = Enhanced.react s1 ∧
  Enhanced.playerPositionRef s2 = captured ∧
  ∃ c', Enhanced.cameraRef s2 = Some c' ∧
        round (worldToMaze (Enhanced.cam_x c')) = pos_x captured ∧
        round (worldToMaze (Enhanced.cam_z c')) = pos_z captured.
Proof.
  intros Hts Hcam ? ? ? ? s1 s2.
  assert (Hts1 : Enhanced.timeouts s1 = [(id, captured)]).
  { subst s1. unfold Enhanced.resetGame. cbn. by rewrite Hcam. }
  assert (Hcam1 : Enhanced.cameraRef s1
                  = Some (Enhanced.mk_camera (inject_Z WALL_SIZE)
                            (inject_Z WALL_SIZE) (Enhanced.rot_y camera))).
  { subst s1. unfold Enhanced.resetGame. cbn. by rewrite Hcam. }
  assert (Hreact1 : Enhanced.react s1
                    = Enhanced.mk_react false false 3 (mk_pos 1 1) false 0).
  { subst s1. unfold Enhanced.resetGame. cbn. by rewrite Hcam. }
  assert (Hpos1 : Enhanced.playerPositionRef s1 = mk_pos 1 1).
  { subst s1. unfold Enhanced.resetGame. cbn. by rewrite Hcam. }
  subst s2. rewrite (fireTimeout_single _ _ _ _ _ _ Hts1 Hcam1).
  cbn [Enhanced.react Enhanced.playerPositionRef Enhanced.cameraRef].
  rewrite Hreact1. split_and!; try done.
  eexists. split; [done|].
  cbn [Enhanced.cam_x Enhanced.cam_z]. split; by apply respawn_round.
Qed.

Lemma reset_does_not_cancel_respawn_witness :
  let v := Enhanced.mk_react false false 3 (mk_pos 5 9) false 0 in
  let s0 := Enhanced.attackPlayer v (Enhanced.mounted (mk_pos 19 19)) in
  let s1 := Enhanced.resetGame s0 in
  let s2 := Enhanced.fireTimeout 1 (1 # 4) (3 # 4) s1 in
  Enhanced.react s1 = Enhanced.mk_react false false 3 (mk_pos 1 1) false 0 ∧
  Enhanced.playerPositionRef s1 = mk_pos 1 1 ∧
  Enhanced.cameraRef s1
  = Some (Enhanced.mk_camera (inject_Z WALL_SIZE) (inject_Z WALL_SIZE) 0) ∧
  Enhanced.timeouts s1 = [(1%positive, mk_pos 5 9)] ∧
  Enhanced.react s2 = Enhanced.react s1 ∧
  Enhanced.playerPositionRef s2 = mk_pos 5 9 ∧
  ∃ c', Enhanced.cameraRef s2 = Some c' ∧
        round (worldToMaze (Enhanced.cam_x c')) = 5 ∧
        round (worldToMaze (Enhanced.cam_z c')) = 9.
Proof.
  apply (reset_does_not_cancel_respawn 1 (mk_pos 5 9) (1 # 4) (3 # 4)
           (Enhanced.attackPlayer
              (Enhanced.mk_react false false 3 (mk_pos 5 9) false 0)
              (Enhanced.mounted (mk_pos 19 19)))
           (Enhanced.mk_camera (inject_Z WALL_SIZE) (inject_Z WALL_SIZE) 0));
    done.
Defined.

(** ** The basic component never walks into a wall *)

(** X8: on a 21 by 21 grid the basic component's [updateMovement] always
    returns (its collision test reads inside the grid only), and it either
    leaves the session as it was or moves the camera to a position whose
    rounded grid cell lies inside the grid and is not a wall, and records
    that cell as the player's grid position. *)
Theorem basic_move_lands_on_free_cell (maze : grid)
  (applyQuaternion : Q * Q → Q * Q) (keys : MoveState) (s : Basic.Session) :
  rect MAZE_SIZE MAZE_SIZE maze →
  ∃ s', Basic.updateMovement maze applyQuaternion keys s = Done s' ∧
        (s' = s ∨
         ∃ c', Basic.cameraRef s' = Some c' ∧
               let mazeX := round (worldToMaze (Basic.cam_x c')) in
               let mazeZ := round (worldToMaze (Basic.cam_z c')) in
               0 ≤ mazeX < MAZE_SIZE ∧ 0 ≤ mazeZ < MAZE_SIZE ∧
               cell maze mazeX mazeZ ≠ Some 1 ∧
               Basic.playerPositionRef s' = mk_pos mazeX mazeZ).
Proof.
  intros Hrect. unfold Basic.updateMovement.
  destruct (Basic.cameraRef s) as [camera|]; [|exists s; by split; [|left]].
  cbv zeta.
  set (newX := (Basic.cam_x camera + _)%Q).
  set (newZ := (Basic.cam_z camera + _)%Q).
  unfold Basic.checkCollision. cbv zeta.
  destruct (Z.ltb_spec (round (worldToMaze newX)) 0);
    [exists s; by split; [|left]|].
  destruct (Z.geb_spec (round (worldToMaze newX)) MAZE_SIZE);
    [exists s; by split; [|left]|].
  destruct (Z.ltb_spec (round (worldToMaze newZ)) 0);
    [exists s; by split; [|left]|].
  destruct (Z.geb_spec (round (worldToMaze newZ)) MAZE_SIZE);
    [exists s; by split; [|left]|].
  cbn [orb]. rewrite (read_in MAZE_SIZE MAZE_SIZE) by (done || lia).
  cbn [mbind outcome_bind].
  destruct (is_num _ 1) eqn:Hnum; [exists s; by split; [|left]|].
  eexists. split; [reflexivity|]. right. eexists. split; [reflexivity|].
  cbn [Basic.cam_x Basic.cam_z Basic.playerPositionRef].
  split_and!; try lia; try done.
  intros Hwall. by rewrite Hwall in Hnum.
Qed.

Lemma basic_move_lands_on_free_cell_witness :
  ∃ s', Basic.updateMovement sample_maze (fun m : Q * Q => m) diagonal_keys
          (Basic.mk_session (Some (Basic.mk_camera (-19) (-19))) (mk_pos 1 1))
        = Done s' ∧
        (s' = Basic.mk_session (Some (Basic.mk_camera (-19) (-19))) (mk_pos 1 1) ∨
         ∃ c', Basic.cameraRef s' = Some c' ∧
               let mazeX := round (worldToMaze (Basic.cam_x c')) in
               let mazeZ := round (worldToMaze (Basic.cam_z c')) in
               0 ≤ mazeX < MAZE_SIZE ∧ 0 ≤ mazeZ < MAZE_SIZE ∧
               cell sample_maze mazeX mazeZ ≠ Some 1 ∧
               Basic.playerPositionRef s' = mk_pos mazeX mazeZ).
Proof.
  apply (basic_move_lands_on_free_cell sample_maze (fun m : Q * Q => m) diagonal_keys
           (Basic.mk_session (Some (Basic.mk_camera (-19) (-19))) (mk_pos 1 1))).
  apply sample_maze_rect.
Defined.

(** ** The exit scan on any grid *)

Lemma scan_cases (c : Z) :
  in_scan_range c → c = MAZE_SIZE - 2 ∨ c = MAZE_SIZE - 3 ∨ c = MAZE_SIZE - 4.
Proof. unfold in_scan_range. lia. Qed.

(** X9: on any 21 by 21 grid the exit scan of the mount effect returns
    the first open cell of the 3 by 3 block of columns and rows 17 to 19,
    in its own order (both coordinates counted down from 19, the column in
    the outer loop); when the block has no open cell, the exit stays at
    its initial value (0,0). *)
Theorem findExit_first_open (maze : grid) :
  rect MAZE_SIZE MAZE_SIZE maze →
  ∃ p, findExit maze = Done p ∧
       ((in_scan_range (pos_x p) ∧ in_scan_range (pos_z p) ∧
         cell maze (pos_x p) (pos_z p) = Some 0 ∧
         ∀ x z, in_scan_range x → in_scan_range z → scanned_before x z p →
                cell maze x z ≠ Some 0) ∨
        (p = mk_pos 0 0 ∧
         ∀ x z, in_scan_range x → in_scan_range z → cell maze x z ≠ Some 0)).
Proof.
  intros Hrect. unfold findExit, scanExit, scan_range, scanColumn.
  cbn [exitFound].
  repeat match goal with
  | |- context [read maze ?x ?z] =>
      rewrite (read_in MAZE_SIZE MAZE_SIZE maze x z Hrect) by done;
      cbn [mbind outcome_bind];
      let E := fresh "E" in
      destruct (is_num (cell maze x z) 0) eqn:E; cbn [exitFound mbind outcome_bind]
  end.
  all: eexists; (split; [reflexivity|]); cbn [exitPosition].
  all: repeat match goal with
       | E : is_num (cell ?g ?x ?z) 0 = true |- _ =>
           assert (cell g x z = Some 0)
             by (destruct (cell g x z); cbn in E; [f_equal; lia | done]);
           clear E
       | E : is_num (cell ?g ?x ?z) 0 = false |- _ =>
           assert (cell g x z ≠ Some 0)
             by (intros Hc; rewrite Hc in E; done);
           clear E
       end.
  all: first
    [ left; split_and!; [unfold in_scan_range, MAZE_SIZE; cbn; lia
                        | unfold in_scan_range, MAZE_SIZE; cbn; lia
                        | done |];
      intros x z [->|[->| ->]]%scan_cases [->|[->| ->]]%scan_cases [Hb|[Hb1 Hb2]];
      cbn in *; first [done | lia]
    | right; split; [done|];
      intros x z [->|[->| ->]]%scan_cases [->|[->| ->]]%scan_cases; done ].
Qed.

Lemma findExit_first_open_witness :
  ∃ p, findExit sample_maze = Done p ∧
       ((in_scan_range (pos_x p) ∧ in_scan_range (pos_z p) ∧
         cell sample_maze (pos_x p) (pos_z p) = Some 0 ∧
         ∀ x z, in_scan_range x → in_scan_range z → scanned_before x z p →
                cell sample_maze x z ≠ Some 0) ∨
        (p = mk_pos 0 0 ∧
         ∀ x z, in_scan_range x → in_scan_range z →
                cell sample_maze x z ≠ Some 0)).
Proof. apply (findExit_first_open sample_maze), sample_maze_rect. Defined.

(** ** Several hits in one frame, and the lives a closure can take *)

Lemma attackPlayer_arms (v : Enhanced.React) (s : Enhanced.Session) :
  Enhanced.isRespawning v = false →
  1 < Enhanced.lives v →
  is_Some (Enhanced.cameraRef s) →
  one_timer s →
  Enhanced.attackPlayer v s
  = Enhanced.mk_session
      (Enhanced.mk_react
         (Enhanced.gameWon (Enhanced.react s))
         (Enhanced.gameOver (Enhanced.react s))
         (Enhanced.lives v - 1)
         (Enhanced.currentCheckpoint (Enhanced.react s))
         true
         (Enhanced.score (Enhanced.react s)))
      (Enhanced.cameraRef s) (Enhanced.playerPositionRef s)
      (Enhanced.exitPositionRef s) (Some (Enhanced.nextTimeout s))
      [(Enhanced.nextTimeout s, Enhanced.currentCheckpoint v)]
      (Pos.succ (Enhanced.nextTimeout s))
      (Enhanced.frameRequested s) (Enhanced.listening s)
      (Enhanced.rendererDisposed s).
Proof.
  intros Hresp Hlives [camera Hcam] Htimer.
  unfold Enhanced.attackPlayer. rewrite Hresp.
  destruct (Z.leb_spec (Enhanced.lives v - 1) 0) as [?|_]; [lia|].
  unfold Enhanced.respawnPlayer.
  destruct s as [r cam pp ep tref ts next fr li rd].
  unfold one_timer in Htimer. cbn in *. rewrite Hcam, Hresp.
  destruct Htimer as [->|(id & captured & -> & ->)]; cbn.
  - by destruct tref.
  - destruct (decide (id ≠ id)) as [?|_]; [done|]. reflexivity.
Qed.

(** X10: however many attacks complete in one frame, they all read the
    same closure: with two lives or more and no respawn under way read by
    it, one or more attacks leave [lives v - 1] lives, not fewer, and one
    pending respawn timer for the checkpoint the closure read. *)
Theorem hits_in_one_frame_cost_one_life (v : Enhanced.React)
  (s : Enhanced.Session) (n : nat) :
  Enhanced.isRespawning v = false →
  1 < Enhanced.lives v →
  is_Some (Enhanced.cameraRef s) →
  one_timer s →
  let s' := Nat.iter (S n) (Enhanced.attackPlayer v) s in
  Enhanced.lives (Enhanced.react s') = Enhanced.lives v - 1 ∧
  Enhanced.gameOver (Enhanced.react s') = Enhanced.gameOver (Enhanced.react s) ∧
  Enhanced.isRespawning (Enhanced.react s') = true ∧
  ∃ id, Enhanced.timeouts s' = [(id, Enhanced.currentCheckpoint v)] ∧
        Enhanced.respawnTimerRef s' = Some id.
Proof.
  intros Hresp Hlives Hcam Htimer.
  induction n as [|n IH].
  - cbn [Nat.iter nat_rect]. rewrite attackPlayer_arms by done. cbn.
    split_and!; try done. by eexists.
  - cbv zeta in *. destruct IH as (Hl & Hg & Hr & id & Hts & Href).
    change (Nat.iter (S (S n)) (Enhanced.attackPlayer v) s)
      with (Enhanced.attackPlayer v
              (Nat.iter (S n) (Enhanced.attackPlayer v) s)).
    rewrite attackPlayer_arms; try done.
    + cbn. split_and!; try done. by eexists.
    + rewrite attacks_camera. done.
    + right. by eexists _, _.
Qed.

Lemma hits_in_one_frame_cost_one_life_witness :
  let v := Enhanced.mk_react false false 3 (mk_pos 1 1) false 0 in
  let s := Enhanced.mounted (mk_pos 19 19) in
  let s' := Nat.iter 3 (Enhanced.attackPlayer v) s in
  Enhanced.lives (Enhanced.react s') = Enhanced.lives v - 1 ∧
  Enhanced.gameOver (Enhanced.react s') = Enhanced.gameOver (Enhanced.react s) ∧
  Enhanced.isRespawning (Enhanced.react s') = true ∧
  ∃ id, Enhanced.timeouts s' = [(id, Enhanced.currentCheckpoint v)] ∧
        Enhanced.respawnTimerRef s' = Some id.
Proof.
  apply (hits_in_one_frame_cost_one_life
           (Enhanced.mk_react false false 3 (mk_pos 1 1) false 0)
           (Enhanced.mounted (mk_pos 19 19)) 2).
  - reflexivity.
  - reflexivity.
  - by eexists.
  - by left.
Defined.

(** ** A closure that cannot end the game *)

Section Alive.

Import Enhanced.

Variable maze : grid.
Variable normalize : Q * Q → Q * Q.
Variable applyEuler : Q → Q * Q → Q * Q.
Hypothesis maze_rect : rect MAZE_SIZE MAZE_SIZE maze.

Lemma checkCollision_total (x z : Q) :
  ∃ b, checkCollision maze x z = Done b.
Proof.
  unfold checkCollision. destruct (_ || _); [by eexists|].
  destruct (anyWall_spec maze (checkPositions (worldToMaze x) (worldToMaze z))
              maze_rect) as (b & -> & _).
  by exists b.
Qed.

Lemma updateMovement_total v keys s :
  ∃ s', updateMovement maze normalize applyEuler v keys s = Done s' ∧
        react s' = react s.
Proof.
  unfold updateMovement. destruct (cameraRef s) as [camera|]; [|by exists s].
  destruct (isRespawning v); [by exists s|].
  destruct (nonzero _); [|by exists s]. cbv zeta.
  match goal with
  | |- context [checkCollision maze ?a (cam_z camera)] =>
      destruct (checkCollision_total a (cam_z camera)) as [hitX ->]
  end.
  cbn [mbind outcome_bind].
  match goal with
  | |- context [checkCollision maze (cam_x camera) ?b] =>
      destruct (checkCollision_total (cam_x camera) b) as [hitZ ->]
  end.
  cbn [mbind outcome_bind]. eexists. split; reflexivity.
Qed.

Lemma attackPlayer_alive v s :
  1 < lives v → alive s → alive (attackPlayer v s).
Proof.
  intros Hv [Hover Hlives]. unfold attackPlayer.
  destruct (isRespawning v) eqn:Hresp; [done|]. cbv zeta.
  destruct (Z.leb_spec (lives v - 1) 0) as [?|_]; [lia|].
  unfold respawnPlayer. rewrite Hresp.
  destruct s as [r [cam|] pp ep [t|] ts next fr li rd];
    unfold alive; cbn in *; split; (done || lia).
Qed.

Lemma attacks_alive v n s :
  1 < lives v → alive s → alive (Nat.iter n (attackPlayer v) s).
Proof.
  intros Hv Hs. induction n as [|n IH]; [done|].
  cbn [Nat.iter nat_rect]. by apply attackPlayer_alive.
Qed.

Lemma checkCheckpoints_alive reached s :
  alive s → alive (checkCheckpoints reached s).
Proof.
  unfold checkCheckpoints. revert s.
  induction reached as [|p reached IH]; intros s Hs; [done|].
  cbn [foldl]. apply IH. done.
Qed.

Lemma checkWinCondition_alive v s : alive s → alive (checkWinCondition v s).
Proof. unfold checkWinCondition. by destruct (_ && _). Qed.

Lemma fireTimeout_alive id r1 r2 s : alive s → alive (fireTimeout id r1 r2 s).
Proof.
  intros Hs. unfold fireTimeout.
  destruct (list_find _ _) as [[i [id' captured]]|]; [|done].
  unfold respawnCallback. cbn [cameraRef clearTimeout set_timeouts].
  by destruct (cameraRef s).
Qed.

Lemma resetGame_alive s : alive (resetGame s).
Proof. unfold resetGame. cbn. by destruct (cameraRef s). Qed.

Lemma handle_alive v e s :
  1 < lives v → frames_read v e → alive s →
  ∃ s', handle maze normalize applyEuler e s = Done s' ∧ alive s'.
Proof.
  intros Hv He Hs.
  destruct e as [v' isLocked keys attacks reached|id r1 r2| |]; cbn [handle].
  - cbn in He. subst v'. destruct (frameRequested s); [|by exists s].
    unfold animate. destruct (_ && _); [|by eexists].
    destruct (updateMovement_total v keys (requestAnimationFrame s))
      as (s1 & -> & Hreact).
    cbn [mbind outcome_bind]. eexists. split; [done|].
    apply checkWinCondition_alive, checkCheckpoints_alive, attacks_alive;
      [done|].
    unfold alive. by rewrite Hreact.
  - eexists. split; [done|]. by apply fireTimeout_alive.
  - eexists. split; [done|]. apply resetGame_alive.
  - eexists. split; [done|]. done.
Qed.

End Alive.

(** X11: the frame loop runs the closure of the render that mounted it.
    While the frames read a closure with two lives or more, no sequence of
    frames, timer expiries, resets and unmounts ends the game: the run
    always returns, [gameOver] stays false and at least one life is
    left. *)
Theorem closure_with_lives_never_ends_game (maze : grid)
  (normalize : Q * Q → Q * Q) (applyEuler : Q → Q * Q → Q * Q)
  (v : Enhanced.React) (es : list Enhanced.event) (s : Enhanced.Session) :
  rect MAZE_SIZE MAZE_SIZE maze →
  1 < Enhanced.lives v →
  Forall (frames_read v) es →
  Enhanced.gameOver (Enhanced.react s) = false →
  0 < Enhanced.lives (Enhanced.react s) →
  ∃ s', Enhanced.run maze normalize applyEuler es s = Done s' ∧
        Enhanced.gameOver (Enhanced.react s') = false ∧
        0 < Enhanced.lives (Enhanced.react s').
Proof.
  intros Hrect Hv Hes Hover Hlives.
  assert (Hs : alive s) by done. clear Hover Hlives.
  revert s Hs. induction Hes as [|e es He _ IH]; intros s Hs.
  { by exists s. }
  cbn [Enhanced.run].
  destruct (handle_alive maze normalize applyEuler Hrect v e s)
    as (s1 & -> & Hs1); [done..|].
  cbn [mbind outcome_bind]. by apply IH.
Qed.

Lemma closure_with_lives_never_ends_game_witness :
  let v := Enhanced.mk_react false false 3 (mk_pos 1 1) false 0 in
  ∃ s', Enhanced.run sample_maze sample_normalize no_turn
          [Enhanced.Frame v true diagonal_keys 1 [];
           Enhanced.Timeout 1 (1 # 2) (1 # 2);
           Enhanced.Frame v true diagonal_keys 2 [];
           Enhanced.Timeout 3 (1 # 2) (1 # 2);
           Enhanced.Frame v true diagonal_keys 1 []]
          (Enhanced.mounted (mk_pos 19 19)) = Done s' ∧
        Enhanced.gameOver (Enhanced.react s') = false ∧
        0 < Enhanced.lives (Enhanced.react s').
Proof.
  apply (closure_with_lives_never_ends_game sample_maze sample_normalize
           no_turn (Enhanced.mk_react false false 3 (mk_pos 1 1) false 0)).
  - apply sample_maze_rect.
  - reflexivity.
  - by repeat constructor.
  - reflexivity.
  - reflexivity.
Defined.

(** ** The depth-first search visits every room *)

Section Coverage.

Import MazeGenerator.

Variables W H : Z.
Variable random : nat → Q.
Hypothesis W_ge_3 : 3 ≤ W.
Hypothesis H_ge_3 : 3 ≤ H.

Lemma saturated_mono (g g' : grid) (x y : Z) :
  carved W H g g' → saturated W H g x y → saturated W H g' x y.
Proof.
  intros C Hs d Hd Hv. eapply carved_open; [done|]. by apply Hs.
Qed.

Lemma covers_trans (g1 g2 g3 : grid) :
  carved W H g2 g3 → covers W H g1 g2 → covers W H g2 g3 → covers W H g1 g3.
Proof.
  intros C23 H12 H23 x y Hroom Hopen Hclosed.
  destruct (decide (cell g2 x y = Some 0)) as [Hmid|Hmid].
  - eapply saturated_mono; [done|]. by apply H12.
  - by apply H23.
Qed.

Lemma between_not_room (x y dx dy : Z) :
  (dx, dy) ∈ directions → room x y → ¬ room (x + dx / 2) (y + dy / 2).
Proof.
  unfold directions, room. intros Hd [Hx Hy].
  decompose_list_elem_of; simplify_eq;
    change (-2 / 2) with (-1); change (2 / 2) with 1; change (0 / 2) with 0;
    intros [Hx' Hy'];
    rewrite ?Z.odd_add, ?Hx, ?Hy in *; done.
Qed.

Lemma step_room (x y dx dy : Z) :
  (dx, dy) ∈ directions → room x y → room (x + dx) (y + dy).
Proof.
  unfold directions, room. intros Hd [Hx Hy].
  decompose_list_elem_of; simplify_eq; rewrite ?Z.odd_add, ?Hx, ?Hy; done.
Qed.

Lemma tryDirections_covers (carve : Z → Z → state → outcome state) :
  (∀ x y s s', carve x y s = Done s' →
               carved W H (all_walls W H) (maze s) → interior W H x y →
               room x y → cell (maze s) x y = Some 1 →
               carved W H (maze s) (maze s') ∧
               cell (maze s') x y = Some 0 ∧
               covers W H (maze s) (maze s')) →
  ∀ x y ds s s',
    tryDirections W H carve x y ds s = Done s' →
    (∀ d, d ∈ ds → d ∈ directions) →
    carved W H (all_walls W H) (maze s) → interior W H x y → room x y →
    carved W H (maze s) (maze s') ∧
    covers W H (maze s) (maze s') ∧
    ∀ d, d ∈ ds → isValidCell W H (x + d.1) (y + d.2) = true →
         cell (maze s') (x + d.1) (y + d.2) = Some 0.
Proof.
  intros Hcarve x y ds.
  induction ds as [|[dx dy] ds IH]; intros s s' Hrun Hds Hg Hxy Hroom.
  { injection Hrun as <-. split_and!.
    - apply carved_refl, Hg.
    - intros a b _ Ho Hc. done.
    - intros d Hd. by apply elem_of_nil in Hd. }
  assert (Hds' : ∀ d, d ∈ ds → d ∈ directions).
  { intros d Hd. apply Hds. by right. }
  assert (Hd0 : (dx, dy) ∈ directions) by (apply Hds; by left).
  cbn [tryDirections] in Hrun.
  destruct (isValidCell W H (x + dx) (y + dy)) eqn:Hv.
  2:{ destruct (IH s s') as (C & Cov & Hopen); [done..|].
      split_and!; [done..|].
      intros d [->|Hd]%elem_of_cons; [cbn; congruence | by apply Hopen]. }
  pose proof Hv as Hv'. apply isValidCell_spec in Hv'.
  rewrite (read_in W H) in Hrun by (apply Hg || destruct Hv'; lia).
  cbn [mbind outcome_bind] in Hrun.
  destruct (is_num (cell (maze s) (x + dx) (y + dy)) 1) eqn:Hw.
  2:{ destruct (IH s s') as (C & Cov & Hopen); [done..|].
      split_and!; [done..|].
      intros d [->|Hd]%elem_of_cons; [|by apply Hopen]. intros _. cbn.
      eapply carved_open; [done|].
      destruct (carved_binary W H W_ge_3 H_ge_3 (maze s) (x + dx) (y + dy))
        as [E|E]; [done | destruct Hv'; lia | destruct Hv'; lia | done |].
      by rewrite E in Hw. }
  assert (Hwall : cell (maze s) (x + dx) (y + dy) = Some 1).
  { destruct (cell (maze s) (x + dx) (y + dy)) as [v|]; [|done].
    simpl in Hw. apply Z.eqb_eq in Hw. by subst. }
  destruct (between_interior W H x y dx dy) as [Hb Hne]; [done..|].
  destruct (set_cell_interior W H s _ _ (carved_rect _ _ _ _ Hg) Hb)
    as (s2 & E2 & _ & C2 & _ & F2 & _).
  rewrite E2 in Hrun. cbn [mbind outcome_bind] in Hrun.
  destruct (carve (x + dx) (y + dy) s2) as [s3| |] eqn:E3;
    cbn [mbind outcome_bind] in Hrun; [|done..].
  destruct (Hcarve _ _ _ _ E3) as (C3 & O3 & Cov3).
  { by eapply carved_trans. } { done. } { by apply step_room. }
  { by rewrite F2. }
  destruct (IH s3 s') as (C' & Cov' & Hopen'); [done | done | | done | done |].
  { eapply carved_trans; [|done]. by eapply carved_trans. }
  split_and!.
  - eapply carved_trans; [|done]. by eapply carved_trans.
  - apply (covers_trans _ (maze s3)); [done | | done].
    apply (covers_trans _ (maze s2)); [done | | done].
    intros a b Hab Ho Hc. exfalso.
    destruct (decide ((a, b) = (x + dx / 2, y + dy / 2))) as [[= -> ->]|Hnb].
    + exact (between_not_room x y dx dy Hd0 Hroom Hab).
    + rewrite F2 in Ho by done. done.
  - intros d [->|Hd]%elem_of_cons; [|by apply Hopen'].
    intros _. cbn [fst snd]. by apply (carved_open W H (maze s3)).
Qed.

Lemma carvePath_covers (fuel : nat) (x y : Z) (s s' : state) :
  carvePath W H random fuel x y s = Done s' →
  carved W H (all_walls W H) (maze s) → interior W H x y →
  room x y → cell (maze s) x y = Some 1 →
  carved W H (maze s) (maze s') ∧
  cell (maze s') x y = Some 0 ∧
  covers W H (maze s) (maze s').
Proof.
  revert x y s s'. induction fuel as [|f IH]; intros x y s s' Hrun; [done|].
  intros Hg Hxy Hroom Hwall. cbn [carvePath] in Hrun.
  destruct (set_cell_interior W H s x y (carved_rect _ _ _ _ Hg) Hxy)
    as (s1 & E1 & _ & C1 & O1 & F1 & _).
  rewrite E1 in Hrun. cbn [mbind outcome_bind] in Hrun.
  destruct (shuffle random _ directions (calls s1)) as [[ds k]| |] eqn:Es;
    cbn [mbind outcome_bind] in Hrun; [|done..].
  apply shuffle_permutation in Es as [Hperm _].
  destruct (tryDirections_covers (carvePath W H random f) IH
              x y ds (mk_state (maze s1) k) s') as (C' & Cov' & Hopen');
    [done | by intros d; rewrite Hperm | by eapply carved_trans | done | done |].
  cbn [maze] in *.
  split_and!.
  - by eapply carved_trans.
  - by eapply carved_open.
  - intros a b Hab Ho Hc.
    destruct (decide ((a, b) = (x, y))) as [[= -> ->]|Hne].
    + intros d Hd. apply Hopen'. by rewrite Hperm.
    + apply Cov'; [done..|]. by rewrite F1.
Qed.

(** Saturated rooms spread from (1,1) over the whole lattice. *)
Lemma rooms_open (g : grid) :
  cell g 1 1 = Some 0 →
  (∀ x y, room x y → cell g x y = Some 0 → saturated W H g x y) →
  ∀ i j : nat, 1 + 2 * Z.of_nat i < W - 1 → 1 + 2 * Z.of_nat j < H - 1 →
               cell g (1 + 2 * Z.of_nat i) (1 + 2 * Z.of_nat j) = Some 0.
Proof.
  intros Hstart Hsat.
  assert (Hroom : ∀ i j : nat, room (1 + 2 * Z.of_nat i) (1 + 2 * Z.of_nat j)).
  { intros i j. unfold room.
    rewrite !Z.odd_add, !Z.odd_mul. done. }
  induction i as [|i IHi].
  - induction j as [|j IHj]; intros Hi Hj; [done|].
    pose proof (Hsat _ _ (Hroom 0%nat j) (IHj Hi ltac:(lia)) (0, 2)) as Hstep.
    cbn [fst snd] in Hstep.
    replace (1 + 2 * Z.of_nat (S j)) with (1 + 2 * Z.of_nat j + 2) by lia.
    replace (1 + 2 * Z.of_nat 0%nat) with (1 + 2 * Z.of_nat 0%nat + 0) by lia.
    apply Hstep.
    + unfold directions. repeat constructor.
    + apply isValidCell_spec. unfold interior. lia.
  - intros j Hi Hj.
    pose proof (Hsat _ _ (Hroom i j) (IHi j ltac:(lia) Hj) (2, 0)) as Hstep.
    cbn [fst snd] in Hstep.
    replace (1 + 2 * Z.of_nat (S i)) with (1 + 2 * Z.of_nat i + 2) by lia.
    replace (1 + 2 * Z.of_nat j) with (1 + 2 * Z.of_nat j + 0) by lia.
    apply Hstep.
    + unfold directions. repeat constructor.
    + apply isValidCell_spec. unfold interior. lia.
Qed.

Lemma generate_rooms (fuel : nat) (g : grid) (x y : Z) :
  (Z.to_nat (W * H) ≤ fuel)%nat →
  generate_fuel W H random fuel = Done g →
  room x y → interior W H x y → cell g x y = Some 0.
Proof.
  intros Hfuel. unfold generate_fuel, ensureExitPath.
  rewrite walls_Done by done. cbn [mbind outcome_bind].
  destruct (carvePath W H random fuel 1 1 _) as [s1| |] eqn:E1;
    cbn [mbind outcome_bind]; [|done..].
  destruct (carvePath_covers _ _ _ _ _ E1) as (C1 & O1 & Cov1).
  { apply carved_refl. by apply all_walls_rect. }
  { unfold interior. lia. } { done. } { apply all_walls_cell; lia. }
  cbn [maze] in *.
  destruct (exitLoop_ok W H random fuel 1 1 s1) as (s2 & -> & C2 & _);
    [apply C1 | lia | lia | nia |].
  cbn [mbind outcome_bind].
  destruct (set_cell_interior W H s2 (W - 2) (H - 2))
    as (s3 & -> & _ & C3 & _); [apply C2 | unfold interior; lia |].
  cbn [mbind outcome_bind].
  intros [= <-] Hroom [Hx Hy].
  apply (carved_open W H (maze s2)); [done|].
  apply (carved_open W H (maze s1)); [done|].
  pose proof (rooms_open (maze s1) O1) as Hall.
  assert (Hx' : Z.odd x = true) by apply Hroom.
  assert (Hy' : Z.odd y = true) by apply Hroom.
  apply Z.odd_spec in Hx' as [a ->]. apply Z.odd_spec in Hy' as [b ->].
  replace (2 * a + 1) with (1 + 2 * Z.of_nat (Z.to_nat a)) in * by lia.
  replace (2 * b + 1) with (1 + 2 * Z.of_nat (Z.to_nat b)) in * by lia.
  apply Hall; [|lia..].
  intros x' y' Hr Ho. apply Cov1; [done..|].
  intros Hc.
  destruct (decide (0 ≤ x' < W ∧ 0 ≤ y' < H)) as [[? ?]|Hout].
  - by rewrite all_walls_cell in Hc.
  - destruct (all_walls_rect W H W_ge_3 H_ge_3) as [Hlen Hrows].
    unfold cell in Hc.
    destruct (row_at (all_walls W H) y') as [row|] eqn:Hrow; [|done].
    simpl in Hc. pose proof (row_at_Some _ _ _ Hrow) as Hy''.
    pose proof (Hrows _ _ Hrow) as Hw. unfold col_at in Hc.
    destruct (Z.ltb_spec x' 0); [done|].
    apply lookup_lt_Some in Hc. lia.
Qed.

End Coverage.

(** X12: for a width and a height of at least 3 and any random draws,
    every interior cell with two odd coordinates is open in the generated
    grid: the depth-first search reaches every room of the lattice it
    carves, whatever the order the shuffles give. *)
Theorem every_room_is_open (W H : Z) (random : nat → Q) :
  3 ≤ W → 3 ≤ H → unit_interval random →
  ∃ g, MazeGenerator.generate W H random = Done g ∧
       ∀ x y, Z.odd x = true → Z.odd y = true →
              0 < x < W - 1 → 0 < y < H - 1 →
              cell g x y = Some 0.
Proof.
  intros HW HH Hr.
  destruct (generate_spec W H random HW HH Hr) as (g & E & _).
  exists g. split; [done|]. intros x y Hx Hy Hxi Hyi.
  by apply (generate_rooms W H random HW HH (Z.to_nat (W * H)) g).
Qed.

Lemma every_room_is_open_witness :
  ∃ g, MazeGenerator.generate 21 21 half = Done g ∧
       ∀ x y, Z.odd x = true → Z.odd y = true →
              0 < x < 21 - 1 → 0 < y < 21 - 1 →
              cell g x y = Some 0.
Proof.
  apply (every_room_is_open 21 21 half); [done | done |].
  apply half_unit_interval.
Defined.

(** ** The start position *)

(** X13: in every generated level the position the camera is created at,
    and put back to by [resetGame], world (WALL_SIZE, WALL_SIZE), passes
    the collision test: its five sample points all fall in cell (11,11),
    a room of the maze. *)
Theorem start_position_is_free (random : nat → Q) (maze : grid) :
  unit_interval random →
  MazeGenerator.generate MAZE_SIZE MAZE_SIZE random = Done maze →
  Enhanced.checkCollision maze (inject_Z WALL_SIZE) (inject_Z WALL_SIZE)
  = Done false.
Proof.
  intros Hr Hgen.
  destruct (generate_spec MAZE_SIZE MAZE_SIZE random) as (g & E & _ & C & _);
    [done..|].
  pose proof E as E'. rewrite Hgen in E'. injection E' as <-.
  assert (Hopen : cell maze 11 11 = Some 0).
  { apply (generate_rooms MAZE_SIZE MAZE_SIZE random ltac:(done) ltac:(done)
             (Z.to_nat (MAZE_SIZE * MAZE_SIZE)) maze); [done | done | done |].
    unfold interior, MAZE_SIZE. lia. }
  unfold Enhanced.checkCollision.
  change (worldToMaze (inject_Z WALL_SIZE)) with (worldToMaze 2).
  assert (Hm : (worldToMaze 2 == 23 # 2)%Q) by reflexivity.
  replace (Qltb (worldToMaze 2) Enhanced.margin) with false by reflexivity.
  replace (Qle_bool (inject_Z MAZE_SIZE - Enhanced.margin) (worldToMaze 2))
    with false by reflexivity.
  cbn [orb]. apply anyWall_open.
  unfold Enhanced.checkPositions.
  repeat apply Forall_cons_2; [..|apply Forall_nil_2];
    unfold open_cell; cbn [fst snd];
    by replace (Qfloor _) with 11 by reflexivity.
Qed.

Lemma start_position_is_free_witness :
  Enhanced.checkCollision sample_maze (inject_Z WALL_SIZE) (inject_Z WALL_SIZE)
  = Done false.
Proof.
  apply (start_position_is_free half sample_maze).
  - apply half_unit_interval.
  - apply sample_maze_generated.
Defined.

(** ** Where enemies are put *)

Lemma isValidSpawnLocation_true (maze : grid) (x z : Z) (used : list Position) :
  Enhanced.isValidSpawnLocation x z maze used = Done true →
  cell maze x z ≠ Some 1 ∧
  (8 <= distance (mk_pos x z) (mk_pos 1 1))%R ∧
  ∀ q, q ∈ used → (4 <= distance (mk_pos x z) q)%R.
Proof.
  unfold Enhanced.isValidSpawnLocation, read.
  destruct (row_at maze z) as [row|] eqn:Hrow; [|done].
  cbn [mbind outcome_bind].
  assert (Hcell : cell maze x z = col_at row x).
  { unfold cell. by rewrite Hrow. }
  rewrite <- Hcell.
  destruct (is_num (cell maze x z) 1) eqn:Hw; [done|].
  destruct (distance_lt _ _ Enhanced.MIN_SPAWN_DISTANCE) eqn:E; [done|].
  intros [= Hfar]. split_and!.
  - intros Hc. by rewrite Hc in Hw.
  - apply distance_ge_sqrt in E; [|done]. by rewrite Q2R_8 in E.
  - by apply farFromAll_spec.
Qed.

Section CreateEnemies.

Import Enemies.

Variable maze : grid.
Variable random : nat → Q.
Hypothesis maze_rect : rect MAZE_SIZE MAZE_SIZE maze.
Hypothesis random_range : unit_interval random.

Lemma randomInt_range (k : nat) (n : Z) :
  0 < n → 0 ≤ randomInt random k n < n.
Proof.
  intros Hn. destruct (random_range k). by apply floor_index.
Qed.

Lemma isValidSpawnLocation_total (x z : Z) (used : list Position) :
  0 ≤ z < MAZE_SIZE →
  ∃ b, Enhanced.isValidSpawnLocation x z maze used = Done b.
Proof.
  intros Hz. unfold Enhanced.isValidSpawnLocation.
  rewrite (read_in MAZE_SIZE MAZE_SIZE) by done. cbn [mbind outcome_bind].
  destruct (is_num _ 1); [by eexists|].
  destruct (distance_lt _ _ _); by eexists.
Qed.

Lemma patrolPoints_ok (n : nat) (x z : Z) (k : nat) (path : list Position) :
  ∃ extra k',
    patrolPoints maze random n x z k path = Done (path ++ extra, k') ∧
    (length extra ≤ n)%nat ∧
    Forall (fun p => cell maze (pos_x p) (pos_z p) = Some 0 ∧
                     1 ≤ pos_x p ≤ MAZE_SIZE - 2 ∧
                     1 ≤ pos_z p ≤ MAZE_SIZE - 2) extra.
Proof.
  revert k path. induction n as [|n IH]; intros k path.
  { exists [], k. rewrite app_nil_r. by split_and!. }
  cbn [patrolPoints].
  pose proof (randomInt_range k (Z.of_nat (length directions)) eq_refl) as Hi.
  destruct (Z.ltb_spec (randomInt random k (Z.of_nat (length directions))) 0);
    [lia|].
  destruct (directions !! Z.to_nat _) as [direction|] eqn:Hd.
  2:{ apply lookup_ge_None in Hd. lia. }
  set (newX := Z.max 1 (Z.min (MAZE_SIZE - 2) _)).
  set (newZ := Z.max 1 (Z.min (MAZE_SIZE - 2) _)).
  assert (1 ≤ newX ≤ MAZE_SIZE - 2) by (unfold MAZE_SIZE in *; lia).
  assert (1 ≤ newZ ≤ MAZE_SIZE - 2) by (unfold MAZE_SIZE in *; lia).
  rewrite (read_in MAZE_SIZE MAZE_SIZE) by (done || lia).
  cbn [mbind outcome_bind].
  destruct (is_num (cell maze newX newZ) 0) eqn:Hopen.
  - destruct (IH (S (S k)) (path ++ [mk_pos newX newZ]))
      as (extra & k' & -> & Hlen & Hall).
    exists (mk_pos newX newZ :: extra), k'.
    rewrite <- app_assoc. split_and!; [done | cbn; lia |].
    constructor; [|done]. cbn [pos_x pos_z]. split; [|done].
    destruct (cell maze newX newZ) as [v|]; [|done].
    cbn in Hopen. f_equal. lia.
  - destruct (IH (S (S k)) path) as (extra & k' & -> & Hlen & Hall).
    exists extra, k'. split_and!; [done | lia | done].
Qed.

(** The loop invariant of [createEnemies]. *)
Lemma spawnLoop_ok (left : nat) (st : spawning) :
  enemies_ok maze (enemies st) →
  usedPositions st = position <$> enemies st →
  enemiesCreated st = length (enemies st) →
  (length (enemies st) ≤ ENEMY_COUNT)%nat →
  ∃ st', spawnLoop maze random left st = Done st' ∧
         enemies_ok maze (enemies st') ∧
         (length (enemies st') ≤ ENEMY_COUNT)%nat.
Proof.
  revert st. induction left as [|left IH]; intros st Hok Hused Hcount Hlen.
  { by exists st. }
  cbn [spawnLoop].
  destruct (Nat.ltb_spec (enemiesCreated st) ENEMY_COUNT) as [Hlt|_];
    [|by exists st].
  set (x := randomInt random (calls st) MAZE_SIZE).
  set (z := randomInt random (S (calls st)) MAZE_SIZE).
  assert (Hx : 0 ≤ x < MAZE_SIZE) by by apply randomInt_range.
  assert (Hz : 0 ≤ z < MAZE_SIZE) by by apply randomInt_range.
  destruct (isValidSpawnLocation_total x z (usedPositions st) Hz) as [b Hb].
  rewrite Hb. cbn [mbind outcome_bind].
  destruct b; cbn [negb].
  2:{ apply IH; done. }
  destruct (patrolPoints_ok 3 x z (S (S (calls st))) [mk_pos x z])
    as (extra & k' & -> & Hextra & Hall).
  cbn [mbind outcome_bind].
  apply IH; cbn [enemies usedPositions enemiesCreated].
  - intros i e Hi.
    destruct (decide (i < length (enemies st))%nat) as [Hold|Hnew].
    + rewrite lookup_app_l in Hi by done.
      rewrite take_app_le by lia. by apply Hok.
    + rewrite lookup_app_r in Hi by lia.
      apply list_lookup_singleton_Some in Hi as [Hi <-].
      assert (i = length (enemies st)) as -> by lia.
      rewrite take_app_length.
      apply isValidSpawnLocation_true in Hb as (Hwall & Hfar & Hsep).
      split_and!.
      * done.
      * split_and!; cbn [position pos_x pos_z]; try done; try lia.
        by rewrite <- Hused.
      * exists extra. by split_and!.
      * unfold fresh_enemy. cbn. split_and!; try done.
        -- destruct (random_range k') as [H0 H1]. unfold ENEMY_SPEED.
           Lqa.lra.
        -- destruct (random_range k') as [H0 H1]. unfold ENEMY_SPEED.
           Lqa.lra.
  - by rewrite fmap_app, Hused.
  - rewrite length_app. cbn. lia.
  - rewrite length_app. cbn. unfold ENEMY_COUNT in *. lia.
Qed.

End CreateEnemies.



(** ** Enemy attacks *)

Section UpdateEnemies.

Import Enemies.

Variable sqrt : Q → Q.

Lemma patrol_ok_index (e : Enemy) :
  patrol_index_ok e →
  ∃ e', patrol sqrt e = Done e' ∧ patrol_index_ok e' ∧
        lastAttack e' = lastAttack e ∧ isAttacking e' = isAttacking e ∧
        attackStartTime e' = attackStartTime e.
Proof.
  intros Hidx. unfold patrol.
  destruct (Nat.ltb_spec 0 (length (patrolPath e))) as [Hlen|Hlen];
    [|by exists e].
  destruct Hidx as [Hnil|Hidx]; [rewrite Hnil in Hlen; cbn in Hlen; lia|].
  destruct (lookup_lt_is_Some_2 _ _ Hidx) as [target ->]. cbv zeta.
  destruct (Qltb _ _).
  - eexists. split; [done|]. split_and!; try done.
    right. cbn. apply Nat.mod_upper_bound. lia.
  - eexists. split; [done|]. split_and!; try done. by right.
Qed.

Lemma engage_attack (v : Enhanced.React) (t : Z) (p : Position) (e : Enemy) :
  attack_ok e →
  attack_ok (engage v t p e).1 ∧
  patrolPath (engage v t p e).1 = patrolPath e ∧
  currentPathIndex (engage v t p e).1 = currentPathIndex e ∧
  if (engage v t p e).2
  then lastAttack (engage v t p e).1 = t ∧ 4000 < t - lastAttack e
  else lastAttack (engage v t p e).1 = lastAttack e.
Proof.
  intros Hok. unfold engage, attack_ok in *.
  unfold ENEMY_ATTACK_DURATION, ENEMY_ATTACK_COOLDOWN in *.
  destruct (Enhanced.isRespawning v); [done|].
  destruct (distance_lt _ _ _); destruct (isAttacking e) eqn:Hatt;
    cbn [negb andb]; rewrite ?Hatt; cbn [negb andb].
  - destruct (Z.leb_spec 1000 (t - attackStartTime e)); cbn.
    + specialize (Hok eq_refl). split_and!; (done || lia).
    + by rewrite Hatt.
  - destruct (Z.ltb_spec 3000 (t - lastAttack e)).
    + cbn [isAttacking set_attack attackStartTime andb].
      destruct (Z.leb_spec 1000 (t - t)); [lia|].
      cbn. split_and!; (done || (intros _; lia)).
    + rewrite Hatt. cbn. by rewrite Hatt.
  - cbn. done.
  - cbn. by rewrite Hatt.
Qed.

Lemma enemyFrames_spaced (frames : list (Enhanced.React * Z * Position))
  (e : Enemy) :
  patrol_index_ok e → attack_ok e →
  ∃ e' hits, enemyFrames sqrt frames e = Done (e', hits) ∧
             spaced (lastAttack e) hits ∧
             patrol_index_ok e' ∧ attack_ok e'.
Proof.
  revert e. induction frames as [|[[v t] p] frames IH]; intros e Hidx Hatt.
  { by exists e, []. }
  cbn [enemyFrames].
  destruct (patrol_ok_index e Hidx) as (e1 & -> & Hidx1 & Hl1 & Ha1 & Hs1).
  cbn [mbind outcome_bind].
  assert (Hatt1 : attack_ok e1).
  { unfold attack_ok. by rewrite Hl1, Ha1, Hs1. }
  destruct (engage_attack v t p e1 Hatt1) as (Hatt2 & Hpath & Hindex & Hhit).
  destruct (IH (engage v t p e1).1) as (e' & hits & -> & Hsp & Hidx' & Hatt');
    [|done|].
  { unfold patrol_index_ok. by rewrite Hpath, Hindex. }
  cbn [mbind outcome_bind fst snd].
  eexists _, _. split; [done|]. split_and!; [|done..].
  destruct (engage v t p e1).2.
  - destruct Hhit as [Hlast Hgap]. rewrite Hlast in Hsp. rewrite <- Hl1.
    by split.
  - by rewrite Hhit, Hl1 in Hsp.
Qed.

End UpdateEnemies.

(** X15: whatever the frames bring (closure values, clock readings,
    player positions), an enemy whose patrol index is inside its path never
    makes [updateEnemies] fail, and two hits by the same enemy are more
    than 4000 ms apart: an attack starts only more than
    [ENEMY_ATTACK_COOLDOWN] after the last hit and lands no sooner than
    [ENEMY_ATTACK_DURATION] after its start. *)
Theorem enemy_hits_are_spaced (sqrt : Q → Q)
  (frames : list (Enhanced.React * Z * Position)) (e : Enemies.Enemy) :
  patrol_index_ok e → attack_ok e →
  ∃ e' hits, Enemies.enemyFrames sqrt frames e = Done (e', hits) ∧
             spaced (Enemies.lastAttack e) hits.
Proof.
  intros Hidx Hatt.
  destruct (enemyFrames_spaced sqrt frames e Hidx Hatt)
    as (e' & hits & E & Hsp & _).
  by exists e', hits.
Qed.

Lemma enemy_hits_are_spaced_witness :
  let e := Enemies.mk_enemy 0 (mazeToWorld 9) (mazeToWorld 1) (mk_pos 9 1)
             100 0 [mk_pos 9 1; mk_pos 9 5] 0 (2 # 100) false 0 in
  let v := Enhanced.mk_react false false 3 (mk_pos 1 1) false 0 in
  ∃ e' hits,
    Enemies.enemyFrames (fun q => q)
      [(v, 5000, mk_pos 9 2); (v, 5500, mk_pos 9 2); (v, 6000, mk_pos 9 2);
       (v, 6100, mk_pos 9 2); (v, 9200, mk_pos 9 2); (v, 10200, mk_pos 9 2)]
      e = Done (e', hits) ∧
    spaced (Enemies.lastAttack e) hits.
Proof.
  apply (enemy_hits_are_spaced (fun q => q)).
  - right. cbn. lia.
  - intros [=].
Defined.

(** ** What [updateEnemies] does to the session *)

Lemma forEach_attacks (sqrt : Q → Q) (v : Enhanced.React) (t : Z)
  (p : Position) (es : list Enemies.Enemy) (s : Enhanced.Session) :
  Forall patrol_index_ok es →
  ∃ es' n,
    Enemies.forEach sqrt v t p es s
    = Done (es', Nat.iter n (Enhanced.attackPlayer v) s) ∧
    (n ≤ length es)%nat ∧ length es' = length es ∧
    Forall patrol_index_ok es' ∧
    (Enhanced.isRespawning v = true → n = 0%nat).
Proof.
  intros Hes. revert s. induction Hes as [|e es He _ IH]; intros s.
  { exists [], 0%nat. split_and!; [done | done | done | constructor | done]. }
  cbn [Enemies.forEach]. unfold Enemies.updateEnemy.
  destruct (patrol_ok_index sqrt e He) as (e1 & -> & Hidx1 & _).
  cbn [mbind outcome_bind].
  destruct (Enemies.engage v t p e1) as [e2 hit] eqn:Heng.
  cbn [mbind outcome_bind fst snd].
  assert (Hidx2 : patrol_index_ok e2).
  { unfold Enemies.engage in Heng. unfold patrol_index_ok in *.
    repeat match type of Heng with
           | context [if ?b then _ else _] => destruct b
           end; injection Heng as <- <-; done. }
  assert (Hresp : Enhanced.isRespawning v = true → hit = false).
  { intros Hr. unfold Enemies.engage in Heng. rewrite Hr in Heng.
    by injection Heng as <- <-. }
  destruct (IH (if hit then Enhanced.attackPlayer v s else s))
    as (es' & n & -> & Hn & Hlen & Hidx' & Hr).
  cbn [mbind outcome_bind fst snd].
  destruct hit.
  - exists (e2 :: es'), (S n). rewrite Nat.iter_succ_r.
    split_and!; [done | cbn; lia | cbn; lia | by constructor |].
    intros Hv. by specialize (Hresp Hv).
  - exists (e2 :: es'), n.
    split_and!; [done | cbn; lia | cbn; lia | by constructor | done].
Qed.

(** X16: [updateEnemies] changes the session through calls of
    [attackPlayer] only, at most one for each enemy, all with the values of
    the same closure; it makes none when that closure read [isRespawning],
    and it leaves the enemies alone when there is no camera. *)
Theorem updateEnemies_only_attacks (sqrt : Q → Q) (v : Enhanced.React)
  (currentTime : Z) (es : list Enemies.Enemy) (s : Enhanced.Session) :
  Forall patrol_index_ok es →
  ∃ es' n,
    Enemies.updateEnemies sqrt v currentTime es s
    = Done (es', Nat.iter n (Enhanced.attackPlayer v) s) ∧
    (n ≤ length es)%nat ∧ length es' = length es ∧
    (Enhanced.isRespawning v = true → n = 0%nat) ∧
    (Enhanced.cameraRef s = None → n = 0%nat ∧ es' = es).
Proof.
  intros Hes. unfold Enemies.updateEnemies.
  destruct (Enhanced.cameraRef s) as [camera|].
  - destruct (forEach_attacks sqrt v currentTime
                (Enhanced.playerPositionRef s) es s Hes)
      as (es' & n & -> & Hn & Hlen & _ & Hr).
    exists es', n. by split_and!.
  - exists es, 0%nat. split_and!; (done || lia).
Qed.

Lemma updateEnemies_only_attacks_witness :
  let e := Enemies.mk_enemy 0 (mazeToWorld 9) (mazeToWorld 1) (mk_pos 9 1)
             100 0 [mk_pos 9 1; mk_pos 9 5] 0 (2 # 100) true 4000 in
  let v := Enhanced.mk_react false false 3 (mk_pos 1 1) false 0 in
  let s := Enhanced.set_playerPosition (mk_pos 9 2)
             (Enhanced.mounted (mk_pos 19 19)) in
  ∃ es' n,
    Enemies.updateEnemies (fun q => q) v 5000 [e; e] s
    = Done (es', Nat.iter n (Enhanced.attackPlayer v) s) ∧
    (n ≤ length [e; e])%nat ∧ length es' = length [e; e] ∧
    (Enhanced.isRespawning v = true → n = 0%nat) ∧
    (Enhanced.cameraRef s = None → n = 0%nat ∧ es' = [e; e]).
Proof.
  apply (updateEnemies_only_attacks (fun q => q)).
  repeat constructor; right; cbn; lia.
Defined.

(** ** Where checkpoints are put *)

Section CreateCheckpoints.

Import Checkpoints.

Variable maze : grid.
Variable random : nat → Q.
Hypothesis maze_rect : rect MAZE_SIZE MAZE_SIZE maze.
Hypothesis random_range : unit_interval random.

Lemma pick_ok (fuel attempts k : nat) (used : list Position) :
  (100 ≤ attempts + fuel)%nat → (0 < fuel)%nat →
  ∃ x z attempts' k',
    pick maze random fuel attempts k used = Done (x, z, attempts', k') ∧
    ((100 ≤ attempts')%nat ∨ well_placed maze used (mk_pos x z)).
Proof.
  revert attempts k. induction fuel as [|fuel IH]; intros attempts k Hf H0;
    [lia|].
  cbn [pick].
  set (x := Qfloor (random k * inject_Z MAZE_SIZE)).
  set (z := Qfloor (random (S k) * inject_Z MAZE_SIZE)).
  assert (Hx : 0 ≤ x < MAZE_SIZE).
  { destruct (random_range k). by apply floor_index. }
  assert (Hz : 0 ≤ z < MAZE_SIZE).
  { destruct (random_range (S k)). by apply floor_index. }
  rewrite (read_in MAZE_SIZE MAZE_SIZE) by done. cbn [mbind outcome_bind].
  assert (∃ bad : bool,
    (if is_num (cell maze x z) 1 then Done true
     else valid ← Enhanced.isValidSpawnLocation x z maze used;
          Done (negb valid)) = Done bad ∧
    (bad = false → well_placed maze used (mk_pos x z)))
    as (bad & -> & Hbad).
  { destruct (is_num (cell maze x z) 1); [by exists true|].
    destruct (isValidSpawnLocation_total maze maze_rect x z used Hz)
      as [valid Hvalid].
    rewrite Hvalid. cbn [mbind outcome_bind]. exists (negb valid).
    split; [done|]. intros Hv. destruct valid; [|done].
    apply isValidSpawnLocation_true in Hvalid as (Hwall & Hfar & Hsep).
    unfold well_placed. cbn [pos_x pos_z]. split_and!; (done || lia). }
  cbn [mbind outcome_bind].
  destruct (Nat.ltb_spec (S attempts) 100) as [Hlt|Hge].
  - destruct bad; cbn [andb].
    + apply IH; lia.
    + eexists _, _, _, _. split; [done|]. right. by apply Hbad.
  - rewrite andb_false_r. eexists _, _, _, _. split; [done|]. by left.
Qed.

Lemma place_ok (n : nat) (cps : list Checkpoint) (used : list Position)
  (k : nat) :
  checkpoints_ok maze cps →
  used = mk_pos 1 1 :: (position <$> cps) →
  ∃ cps' k', place maze random n cps used k = Done (cps', k') ∧
             checkpoints_ok maze cps' ∧
             (length cps' ≤ length cps + n)%nat.
Proof.
  revert cps used k. induction n as [|n IH]; intros cps used k Hok Hused.
  { exists cps, k. split_and!; [done | done | lia]. }
  cbn [place].
  destruct (pick_ok 100 0 k used) as (x & z & attempts & k' & -> & Hpick);
    [lia | lia |].
  cbn [mbind outcome_bind].
  destruct (Nat.leb_spec 100 attempts) as [Hge|Hlt].
  - destruct (IH cps used k' Hok Hused) as (cps' & k'' & -> & Hok' & Hlen).
    exists cps', k''. split_and!; [done | done | lia].
  - destruct Hpick as [?|Hplaced]; [lia|].
    destruct (IH (cps ++ [mk_checkpoint (mk_pos x z) false])
                (used ++ [mk_pos x z]) k') as (cps' & k'' & -> & Hok' & Hlen).
    + intros i c Hi.
      destruct (decide (i < length cps)%nat) as [Hold|Hnew].
      * rewrite lookup_app_l in Hi by done.
        rewrite take_app_le by lia. by apply Hok.
      * rewrite lookup_app_r in Hi by lia.
        apply list_lookup_singleton_Some in Hi as [Hi <-].
        assert (i = length cps) as -> by lia.
        rewrite take_app_length. cbn [position activated].
        split; [|done]. by rewrite <- Hused.
    + rewrite Hused, fmap_app. done.
    + exists cps', k''. split_and!; [done | done |].
      rewrite length_app in Hlen. cbn in Hlen. lia.
Qed.

End CreateCheckpoints.



(** ** What checkpoints pay *)

Section CheckCheckpoints.

Import Checkpoints.

Lemma forEach_spec (p : Position) (cps : list Checkpoint)
  (s : Enhanced.Session) :
  (forEach p cps s).1
  = (fun c => if reaches p c then mk_checkpoint (position c) true else c)
      <$> cps ∧
  (forEach p cps s).2
  = Enhanced.checkCheckpoints
      (position <$> filter (fun c => reaches p c = true) cps) s.
Proof.
  revert s. induction cps as [|c cps IH]; intros s; [done|].
  cbn [forEach fst snd]. rewrite filter_cons.
  destruct (reaches p c) eqn:Hr; cbn [fst snd].
  - rewrite decide_True by done. cbn [fmap list_fmap].
    destruct (IH (Enhanced.setScore
                    (Enhanced.score (Enhanced.react s) + 100)
                    (Enhanced.setCurrentCheckpoint (position c) s)))
      as [-> ->].
    rewrite Hr. done.
  - rewrite decide_False by done.
    destruct (IH s) as [-> ->]. cbn [fmap list_fmap]. by rewrite Hr.
Qed.

Lemma forEach_player (p : Position) (cps : list Checkpoint)
  (s : Enhanced.Session) :
  Enhanced.playerPositionRef (forEach p cps s).2
  = Enhanced.playerPositionRef s.
Proof.
  revert s. induction cps as [|c cps IH]; intros s; [done|].
  cbn [forEach fst snd]. rewrite IH. by destruct (reaches p c).
Qed.

Lemma forEach_again (p : Position) (cps : list Checkpoint)
  (s s' : Enhanced.Session) :
  forEach p (forEach p cps s).1 s' = ((forEach p cps s).1, s').
Proof.
  revert s s'. induction cps as [|c cps IH]; intros s s'; [done|].
  cbn [forEach fst snd].
  assert (Hoff : reaches p (if reaches p c
                            then mk_checkpoint (position c) true
                            else c, s).1 = false).
  { destruct (reaches p c) eqn:Hr; [done|]. done. }
  destruct (reaches p c) eqn:Hr; cbn [fst snd] in *.
  - rewrite Hoff. cbn [fst snd]. by rewrite IH.
  - rewrite Hr. cbn [fst snd]. by rewrite IH.
Qed.

Lemma forEach_score (p : Position) (cps : list Checkpoint)
  (s : Enhanced.Session) :
  Enhanced.score (Enhanced.react (forEach p cps s).2)
  = Enhanced.score (Enhanced.react s)
    + 100 * (activated_count (forEach p cps s).1 - activated_count cps) ∧
  position <$> (forEach p cps s).1 = position <$> cps ∧
  Forall2 (fun c c' => activated c = true → activated c' = true)
    cps (forEach p cps s).1.
Proof.
  revert s. induction cps as [|c cps IH]; intros s.
  { cbn. split_and!; [lia | done | constructor]. }
  cbn [forEach fst snd]. unfold activated_count in *.
  destruct (reaches p c) eqn:Hr; cbn [fst snd].
  - destruct (IH (Enhanced.setScore
                    (Enhanced.score (Enhanced.react s) + 100)
                    (Enhanced.setCurrentCheckpoint (position c) s)))
      as (Hs & Hp & Ha).
    rewrite Hs. cbn [fmap list_fmap]. rewrite Hp.
    rewrite !filter_cons. cbn [activated].
    rewrite decide_True by done.
    assert (Hc : activated c = false).
    { unfold reaches in Hr. by destruct (activated c). }
    rewrite decide_False by (by rewrite Hc).
    split_and!; [cbn; lia | done | by constructor].
  - destruct (IH s) as (Hs & Hp & Ha).
    rewrite Hs. cbn [fmap list_fmap]. rewrite Hp.
    rewrite !filter_cons.
    split_and!; [|done|by constructor].
    destruct (decide (activated c = true)); cbn; lia.
Qed.

Lemma activated_count_le (cps : list Checkpoint) :
  0 ≤ activated_count cps ≤ Z.of_nat (length cps).
Proof.
  unfold activated_count. pose proof (length_filter
    (fun c => activated c = true) cps). lia.
Qed.

Lemma visit_score (visits : list Position) (cps : list Checkpoint)
  (s : Enhanced.Session) :
  Enhanced.score (Enhanced.react (visit visits cps s).2)
  = Enhanced.score (Enhanced.react s)
    + 100 * (activated_count (visit visits cps s).1 - activated_count cps) ∧
  position <$> (visit visits cps s).1 = position <$> cps ∧
  Forall2 (fun c c' => activated c = true → activated c' = true)
    cps (visit visits cps s).1.
Proof.
  revert cps s. induction visits as [|p visits IH]; intros cps s.
  { cbn. split_and!; [lia | done |].
    induction cps; by constructor. }
  cbn [visit]. unfold checkCheckpoints.
  cbn [Enhanced.playerPositionRef Enhanced.set_playerPosition].
  destruct (forEach_score p cps (Enhanced.set_playerPosition p s))
    as (Hs1 & Hp1 & Ha1).
  destruct (IH (forEach p cps (Enhanced.set_playerPosition p s)).1
               (forEach p cps (Enhanced.set_playerPosition p s)).2)
    as (Hs2 & Hp2 & Ha2).
  split_and!.
  - rewrite Hs2, Hs1. cbn. lia.
  - by rewrite Hp2.
  - eapply Forall2_trans; [|done..]. cbn. intros c1 c2 c3 ? ? ?. auto.
Qed.

End CheckCheckpoints.

(** X18: one run of [checkCheckpoints] activates exactly the checkpoints
    that are not activated yet and lie at a distance below 2 from the
    player's grid position; for each of them, in list order, it makes the
    checkpoint current and adds 100 to the score. A second run on the
    result changes nothing. *)
Theorem checkCheckpoints_awards_once (cps : list Checkpoints.Checkpoint)
  (s : Enhanced.Session) :
  let p := Enhanced.playerPositionRef s in
  let r := Checkpoints.checkCheckpoints cps s in
  r.1 = (fun c => if Checkpoints.reaches p c
                  then Checkpoints.mk_checkpoint (Checkpoints.position c) true
                  else c) <$> cps ∧
  r.2 = Enhanced.checkCheckpoints
          (Checkpoints.position
             <$> filter (fun c => Checkpoints.reaches p c = true) cps) s ∧
  Checkpoints.checkCheckpoints r.1 r.2 = r.
Proof.
  intros p r. subst p r. unfold Checkpoints.checkCheckpoints.
  destruct (forEach_spec (Enhanced.playerPositionRef s) cps s) as [H1 H2].
  split_and!; [done | done |].
  rewrite forEach_player, forEach_again. by destruct (Checkpoints.forEach _ _ _).
Qed.

(** X19: however the player moves from frame to frame, the score gained
    from checkpoints is 100 for each checkpoint that went from not
    activated to activated, so at most 100 for each checkpoint of the
    list; checkpoints keep their positions and an activated checkpoint
    stays activated. *)
Theorem checkpoints_pay_once (visits : list Position)
  (cps : list Checkpoints.Checkpoint) (s : Enhanced.Session) :
  let r := Checkpoints.visit visits cps s in
  Enhanced.score (Enhanced.react r.2)
  = Enhanced.score (Enhanced.react s)
    + 100 * (activated_count r.1 - activated_count cps) ∧
  Enhanced.score (Enhanced.react r.2)
  ≤ Enhanced.score (Enhanced.react s) + 100 * Z.of_nat (length cps) ∧
  Checkpoints.position <$> r.1 = Checkpoints.position <$> cps ∧
  Forall2 (fun c c' => Checkpoints.activated c = true →
                       Checkpoints.activated c' = true) cps r.1.
Proof.
  intros r. subst r.
  destruct (visit_score visits cps s) as (Hs & Hp & Ha).
  split_and!; [done | | done | done].
  rewrite Hs.
  pose proof (activated_count_le (Checkpoints.visit visits cps s).1) as H1.
  pose proof (activated_count_le cps) as H2.
  assert (length (Checkpoints.visit visits cps s).1 = length cps) as Hlen.
  { by rewrite <- (length_fmap Checkpoints.position), Hp, length_fmap. }
  lia.
Qed.

(** ** Collision and the walls that are drawn *)

Lemma wallsOfRow_spec (z x0 : Z) (row : list Z) (w : Q * Q) :
  w ∈ wallsOfRow z x0 row ↔
  ∃ i : nat, row !! i = Some 1 ∧
             w = (mazeToWorld (x0 + Z.of_nat i), mazeToWorld z).
Proof.
  revert x0. induction row as [|v row IH]; intros x0; cbn [wallsOfRow].
  { split; [by intros ?%elem_of_nil | by intros (i & ? & _)]. }
  rewrite elem_of_app, IH. split.
  - intros [Hhd|(i & Hi & ->)].
    + destruct (Z.eqb_spec v 1) as [->|]; [|by apply elem_of_nil in Hhd].
      apply list_elem_of_singleton in Hhd as ->.
      exists 0%nat. split; [done|]. by rewrite Z.add_0_r.
    + exists (S i). split; [done|]. do 2 f_equal. lia.
  - intros ([|i] & Hi & ->).
    + left. injection Hi as ->. cbn. rewrite Z.add_0_r. by left.
    + right. exists i. split; [done|]. do 2 f_equal. lia.
Qed.

Lemma wallsFrom_spec (z0 : Z) (maze : grid) (w : Q * Q) :
  w ∈ wallsFrom z0 maze ↔
  ∃ (j i : nat) row, maze !! j = Some row ∧ row !! i = Some 1 ∧
                     w = (mazeToWorld (Z.of_nat i),
                          mazeToWorld (z0 + Z.of_nat j)).
Proof.
  revert z0. induction maze as [|row maze IH]; intros z0; cbn [wallsFrom].
  { split; [by intros ?%elem_of_nil | by intros (j & i & r & ? & _)]. }
  rewrite elem_of_app, IH, wallsOfRow_spec. split.
  - intros [(i & Hi & ->)|(j & i & r & Hj & Hi & ->)].
    + exists 0%nat, i, row. split_and!; [done..|]. by rewrite Z.add_0_r.
    + exists (S j), i, r. split_and!; [done..|]. do 2 f_equal. lia.
  - intros ([|j] & i & r & Hj & Hi & ->).
    + left. injection Hj as ->. exists i. split; [done|].
      by rewrite Z.add_0_r.
    + right. exists j, i, r. split_and!; [done..|]. do 2 f_equal. lia.
Qed.

(** A wall mesh stands at the world position of each wall cell, and
    nowhere else. *)
Lemma createMaze_spec (maze : grid) (w : Q * Q) :
  w ∈ createMaze maze ↔
  ∃ x z, cell maze x z = Some 1 ∧ w = (mazeToWorld x, mazeToWorld z).
Proof.
  unfold createMaze. rewrite wallsFrom_spec. split.
  - intros (j & i & row & Hj & Hi & ->).
    exists (Z.of_nat i), (Z.of_nat j). split; [|done].
    unfold cell, row_at, col_at.
    destruct (Z.ltb_spec (Z.of_nat j) 0); [lia|].
    rewrite !Nat2Z.id, Hj. cbn.
    destruct (Z.ltb_spec (Z.of_nat i) 0); [lia|]. done.
  - intros (x & z & Hcell & ->). unfold cell, row_at, col_at in Hcell.
    destruct (Z.ltb_spec z 0); [done|].
    destruct (maze !! Z.to_nat z) as [row|] eqn:Hrow; [|done]. cbn in Hcell.
    destruct (Z.ltb_spec x 0); [done|].
    exists (Z.to_nat z), (Z.to_nat x), row. split_and!; [done..|].
    rewrite !Z2Nat.id by lia. done.
Qed.

Lemma worldToMaze_linear (w : Q) :
  (worldToMaze w == w * (1 # 2) + (21 # 2))%Q.
Proof. unfold worldToMaze, MAZE_SIZE, WALL_SIZE. field. Qed.

Lemma mazeToWorld_linear (c : Z) :
  (mazeToWorld c == inject_Z c * 2 - 21)%Q.
Proof. unfold mazeToWorld, MAZE_SIZE, WALL_SIZE. field. Qed.

(** [Math.round] of a grid coordinate picks the cell whose drawn box the
    world coordinate is in. *)
Lemma round_cell (w : Q) (c : Z) :
  round (worldToMaze w) = c ↔
  (mazeToWorld c - inject_Z WALL_SIZE / 2 <= w)%Q ∧
  (w < mazeToWorld c + inject_Z WALL_SIZE / 2)%Q.
Proof.
  unfold round.
  pose proof (worldToMaze_linear w) as Ew.
  assert (Eh : (inject_Z WALL_SIZE / 2 == 1)%Q) by reflexivity.
  revert Eh. generalize (inject_Z WALL_SIZE / 2)%Q. intros h Eh.
  split.
  - intros <-.
    pose proof (Qfloor_le (worldToMaze w + (1 # 2))) as Hlo.
    pose proof (Qlt_floor (worldToMaze w + (1 # 2))) as Hhi.
    rewrite inject_Z_plus in Hhi.
    pose proof (mazeToWorld_linear (Qfloor (worldToMaze w + (1 # 2)))) as Ec.
    change (inject_Z 1) with 1%Q in *.
    split; Lqa.lra.
  - intros [Hlo Hhi]. pose proof (mazeToWorld_linear c) as Ec.
    apply Qfloor_unique; Lqa.lra.
Qed.

Lemma cell_Some_in (W H : Z) (g : grid) (x y v : Z) :
  rect W H g → cell g x y = Some v → 0 ≤ x < W ∧ 0 ≤ y < H.
Proof.
  intros [Hlen Hrows] Hc. unfold cell in Hc.
  destruct (row_at g y) as [row|] eqn:Hrow; [|done]. cbn in Hc.
  pose proof (row_at_Some _ _ _ Hrow) as Hy.
  pose proof (Hrows _ _ Hrow) as Hw. unfold col_at in Hc.
  destruct (Z.ltb_spec x 0); [done|]. apply lookup_lt_Some in Hc. lia.
Qed.

(** X20: in the basic component collision is what is drawn. On a 21 by
    21 grid [checkCollision] always answers, and it rejects a position
    exactly when its rounded cell is outside the grid or the position lies
    in the footprint of one of the wall meshes [createMaze] puts in the
    scene. *)
Theorem basic_collision_is_what_is_drawn (maze : grid) (x z : Q) :
  rect MAZE_SIZE MAZE_SIZE maze →
  ∃ b, Basic.checkCollision maze x z = Done b ∧
       (b = true ↔
        ¬ (0 ≤ round (worldToMaze x) < MAZE_SIZE ∧
           0 ≤ round (worldToMaze z) < MAZE_SIZE) ∨
        ∃ w, w ∈ createMaze maze ∧ in_wall_box w (x, z)).
Proof.
  intros Hrect. unfold Basic.checkCollision. cbv zeta.
  destruct (Z.ltb_spec (round (worldToMaze x)) 0);
    [exists true; split; [done|]; split; [left; lia | done]|].
  destruct (Z.geb_spec (round (worldToMaze x)) MAZE_SIZE);
    [exists true; split; [done|]; split; [left; lia | done]|].
  destruct (Z.ltb_spec (round (worldToMaze z)) 0);
    [exists true; split; [done|]; split; [left; lia | done]|].
  destruct (Z.geb_spec (round (worldToMaze z)) MAZE_SIZE);
    [exists true; split; [done|]; split; [left; lia | done]|].
  cbn [orb]. rewrite (read_in MAZE_SIZE MAZE_SIZE) by (done || lia).
  cbn [mbind outcome_bind]. eexists. split; [done|]. split.
  - intros Hnum. right.
    exists (mazeToWorld (round (worldToMaze x)),
            mazeToWorld (round (worldToMaze z))).
    split.
    + apply createMaze_spec. eexists _, _. split; [|done].
      destruct (cell maze _ _) as [v|]; [|done]. cbn in Hnum.
      f_equal. lia.
    + unfold in_wall_box. cbn [fst snd].
      destruct (proj1 (round_cell x _) eq_refl).
      destruct (proj1 (round_cell z _) eq_refl). by split_and!.
  - intros [Hout|(w & Hw & Hbox)]; [lia|].
    apply createMaze_spec in Hw as (cx & cz & Hcell & ->).
    destruct Hbox as (Hx1 & Hx2 & Hz1 & Hz2). cbn [fst snd] in *.
    rewrite (proj2 (round_cell x cx)) by done.
    rewrite (proj2 (round_cell z cz)) by done.
    by rewrite Hcell.
Qed.

Lemma basic_collision_is_what_is_drawn_witness :
  ∃ b, Basic.checkCollision sample_maze 18 (-10) = Done b ∧
       (b = true ↔
        ¬ (0 ≤ round (worldToMaze 18) < MAZE_SIZE ∧
           0 ≤ round (worldToMaze (-10)) < MAZE_SIZE) ∨
        ∃ w, w ∈ createMaze sample_maze ∧ in_wall_box w (18%Q, (-10)%Q)).
Proof.
  apply (basic_collision_is_what_is_drawn sample_maze 18 (-10)).
  apply sample_maze_rect.
Defined.

(** X21: in the enhanced component collision is not what is drawn: it
    floors where the meshes are centred on whole cells. For every wall cell
    whose neighbours to the west, to the north and to the north-west are
    open, the point half a world unit inside the wall's mesh from its
    centre, towards lower [x] and [z], is accepted by [checkCollision]. *)
Theorem enhanced_accepts_inside_drawn_wall (maze : grid) (x z : Z) :
  rect MAZE_SIZE MAZE_SIZE maze →
  cell maze x z = Some 1 →
  cell maze (x - 1) (z - 1) = Some 0 →
  cell maze (x - 1) z = Some 0 →
  cell maze x (z - 1) = Some 0 →
  let w := (mazeToWorld x, mazeToWorld z) in
  let p := (mazeToWorld x - (1 # 2), mazeToWorld z - (1 # 2))%Q in
  w ∈ createMaze maze ∧ in_wall_box w p ∧
  Enhanced.checkCollision maze p.1 p.2 = Done false.
Proof.
  intros Hrect Hwall H11 H10 H01 w p. subst w p. cbn [fst snd].
  destruct (cell_Some_in _ _ _ _ _ _ Hrect Hwall) as [Hx Hz].
  destruct (cell_Some_in _ _ _ _ _ _ Hrect H11) as [Hx' Hz'].
  pose proof (mazeToWorld_linear x) as Ex.
  pose proof (mazeToWorld_linear z) as Ez.
  split_and!.
  - apply createMaze_spec. by exists x, z.
  - unfold in_wall_box. cbn [fst snd].
    assert (Eh : (inject_Z WALL_SIZE / 2 == 1)%Q) by reflexivity.
    revert Eh. generalize (inject_Z WALL_SIZE / 2)%Q. intros h Eh.
    split_and!; Lqa.lra.
  - pose proof (worldToMaze_linear (mazeToWorld x - (1 # 2))) as Emx.
    pose proof (worldToMaze_linear (mazeToWorld z - (1 # 2))) as Emz.
    assert (Hx0 : (inject_Z 1 <= inject_Z x)%Q) by (rewrite <- Zle_Qle; lia).
    assert (Hx1 : (inject_Z x <= inject_Z 20)%Q)
      by (rewrite <- Zle_Qle; unfold MAZE_SIZE in *; lia).
    assert (Hz0 : (inject_Z 1 <= inject_Z z)%Q) by (rewrite <- Zle_Qle; lia).
    assert (Hz1 : (inject_Z z <= inject_Z 20)%Q)
      by (rewrite <- Zle_Qle; unfold MAZE_SIZE in *; lia).
    change (inject_Z 1) with 1%Q in *. change (inject_Z 20) with 20%Q in *.
    unfold Enhanced.checkCollision.
    set (mazeX := worldToMaze (mazeToWorld x - (1 # 2))) in *.
    set (mazeZ := worldToMaze (mazeToWorld z - (1 # 2))) in *.
    assert (Hm : Qltb mazeX Enhanced.margin
                 || Qle_bool (inject_Z MAZE_SIZE - Enhanced.margin) mazeX
                 || Qltb mazeZ Enhanced.margin
                 || Qle_bool (inject_Z MAZE_SIZE - Enhanced.margin) mazeZ
                 = false).
    { rewrite !orb_false_iff.
      assert (∀ m, (75 # 100 <= m)%Q → (m <= 1975 # 100)%Q →
                   Qltb m Enhanced.margin = false ∧
                   Qle_bool (inject_Z MAZE_SIZE - Enhanced.margin) m = false)
        as Hin.
      { intros m H0 H1. split.
        - apply Qltb_ge. unfold Enhanced.margin. Lqa.lra.
        - apply not_true_iff_false. rewrite Qle_bool_iff.
          unfold Enhanced.margin, MAZE_SIZE.
          change (inject_Z 21) with 21%Q. intros ?. Lqa.lra. }
      destruct (Hin mazeX) as [? ?]; [Lqa.lra..|].
      destruct (Hin mazeZ) as [? ?]; [Lqa.lra..|]. done. }
    rewrite Hm. apply anyWall_open. unfold Enhanced.checkPositions.
    assert (Px : (inject_Z (x - 1) == inject_Z x - 1)%Q)
      by (unfold Qeq; cbn; lia).
    assert (Pz : (inject_Z (z - 1) == inject_Z z - 1)%Q)
      by (unfold Qeq; cbn; lia).
    assert (Fx : Qfloor mazeX = x - 1).
    { apply Qfloor_unique; Lqa.lra. }
    assert (Fz : Qfloor mazeZ = z - 1).
    { apply Qfloor_unique; Lqa.lra. }
    assert (Fxr : Qfloor (mazeX + Enhanced.COLLISION_RADIUS) = x).
    { apply Qfloor_unique; unfold Enhanced.COLLISION_RADIUS; Lqa.lra. }
    assert (Fxl : Qfloor (mazeX - Enhanced.COLLISION_RADIUS) = x - 1).
    { apply Qfloor_unique; unfold Enhanced.COLLISION_RADIUS; Lqa.lra. }
    assert (Fzf : Qfloor (mazeZ + Enhanced.COLLISION_RADIUS) = z).
    { apply Qfloor_unique; unfold Enhanced.COLLISION_RADIUS; Lqa.lra. }
    assert (Fzb : Qfloor (mazeZ - Enhanced.COLLISION_RADIUS) = z - 1).
    { apply Qfloor_unique; unfold Enhanced.COLLISION_RADIUS; Lqa.lra. }
    repeat apply Forall_cons_2; [..|apply Forall_nil_2];
      unfold open_cell; cbn [fst snd];
      rewrite ?Fx, ?Fz, ?Fxr, ?Fxl, ?Fzf, ?Fzb; done.
Qed.

Lemma enhanced_accepts_inside_drawn_wall_witness :
  let w := (mazeToWorld 2, mazeToWorld 4) in
  let p := (mazeToWorld 2 - (1 # 2), mazeToWorld 4 - (1 # 2))%Q in
  w ∈ createMaze sample_maze ∧ in_wall_box w p ∧
  Enhanced.checkCollision sample_maze p.1 p.2 = Done false.
Proof.
  apply (enhanced_accepts_inside_drawn_wall sample_maze 2 4);
    [apply sample_maze_rect | reflexivity..].
Defined.

(** ** Where the enhanced component departs from the specification *)

(** The win test of the basic component: the same threshold as in the
    enhanced one, and a detection on a game that is won already leaves the
    state as it is, whatever the closure read. *)
Lemma basic_win_threshold (gameWon_read : bool) (g : BasicWin.Game) :
  let d := distance (BasicWin.playerPositionRef g)
                    (BasicWin.exitPositionRef g) in
  ((d < 3 / 2)%R ∧ gameWon_read = false →
   BasicWin.gameWon (BasicWin.checkWinCondition gameWon_read g) = true) ∧
  ((3 / 2 <= d)%R → BasicWin.checkWinCondition gameWon_read g = g) ∧
  (BasicWin.gameWon g = true → BasicWin.checkWinCondition gameWon_read g = g).
Proof.
  intros d. unfold BasicWin.checkWinCondition.
  destruct (distance_lt _ _ (3 # 2)) eqn:E.
  - apply distance_lt_sqrt in E; [|done]. rewrite Q2R_3_2 in E. fold d in E.
    split_and!.
    + by intros [_ ->].
    + intros Hd. lra.
    + intros Hwon. destruct gameWon_read; [done|]. cbn.
      destruct g as [w p e]. cbn in *. by subst.
  - apply distance_ge_sqrt in E; [|done]. rewrite Q2R_3_2 in E. fold d in E.
    split_and!; [|done..]. intros [Hd _]. lra.
Qed.

(** C3: a position that lies in a wall cell is not always rejected.  In the
    level generated from draws that are all 0.5, the world position
    (-17.5, -13.5) lies in cell (2,4), a wall: [Math.round] of its grid
    coordinates, which is how [updateMovement] and the basic component
    take the cell of a position, gives (2,4), and the position is inside
    the mesh drawn for that wall. The enhanced [checkCollision] floors the
    coordinates instead, finds its five samples in the open cells (1,3),
    (2,3) and (1,4), and accepts the position; the basic [checkCollision]
    rejects it. *)
Theorem enhanced_collision_accepts_wall_position :
  MazeGenerator.generate MAZE_SIZE MAZE_SIZE half = Done sample_maze ∧
  round (worldToMaze (-35 # 2)) = 2 ∧
  round (worldToMaze (-27 # 2)) = 4 ∧
  cell sample_maze 2 4 = Some 1 ∧
  in_wall_box (mazeToWorld 2, mazeToWorld 4) (-35 # 2, -27 # 2)%Q ∧
  Enhanced.checkCollision sample_maze (-35 # 2) (-27 # 2) = Done false ∧
  Basic.checkCollision sample_maze (-35 # 2) (-27 # 2) = Done true.
Proof.
  split_and!; [apply sample_maze_generated | reflexivity.. | |
               reflexivity | reflexivity].
  unfold in_wall_box. cbn. split_and!; done.
Qed.


